(** * Shallow embedding of the lisk-sdk consensus core

    - [MerkleTree]: elements/lisk-tree/src/merkle_tree.ts
    - [BFT]: framework/src/modules/bft/api.ts (class BFTAPI)
    - [CommitPool]: the commit pool and its certificate utilities
    - [BFTQueries]: the read-only operations of BFTAPI
    - [DPoS]: framework/src/modules/dpos_v2/utils.ts, and the call of
      setBFTParameters in framework/src/modules/dpos_v2/module.ts

    Buffers are lists of byte values; JavaScript numbers and BigInts that
    hold heights, widths, weights and thresholds are integers of [Z];
    exceptions are values of [Error] carried by [result]; objects that the
    code mutates are threaded explicitly as state. *)

From Stdlib Require Import ZArith List Lia Bool Permutation.
From stdpp Require Import base option list gmap sorting.

Open Scope Z_scope.

(** ** Exceptions and results

    [Error] lists what the code throws. [LoopBound] is not thrown by the
    code: it marks a loop of the model that used up the rounds it was given,
    and the properties show that no run reaches it. *)

Inductive Error : Type :=
  | HashNotFound (h : list Z)
  | RangeError
  | TypeError
  | LoopBound
  | InvalidValidatorsSize
  | InvalidBFTWeight
  | InvalidPrecommitThreshold
  | InvalidCertificateThreshold
  | StoreKeyNotFound
  | BFTParameterNotFoundError
  | ValidatorAccountNotFound (a : list Z)
  | MissingStateRoot
  | MissingValidatorsHash
  | OtherError (code : Z).

Inductive result (A : Type) : Type :=
  | Ok (a : A)
  | Throw (e : Error).
Arguments Ok {A} a.
Arguments Throw {A} e.

#[global] Instance result_ret : MRet result := fun A a => Ok a.
#[global] Instance result_bind : MBind result := fun A B f m =>
  match m with
  | Ok a => f a
  | Throw e => Throw e
  end.

(** ** Code that mutates an object or a store

    A computation may update the state and then return or throw; the updates
    made before a throw stay, as they do in JavaScript. *)

Definition St (S A : Type) : Type := S -> S * result A.

#[global] Instance St_ret {S} : MRet (St S) := fun A a s => (s, Ok a).
#[global] Instance St_bind {S} : MBind (St S) := fun A B f m s =>
  match m s with
  | (s', Ok a) => f a s'
  | (s', Throw e) => (s', Throw e)
  end.

Definition throw {S A} (e : Error) : St S A := fun s => (s, Throw e).
Definition lift {S A} (r : result A) : St S A := fun s => (s, r).
Definition gets {S A} (f : S -> A) : St S A := fun s => (s, Ok (f s)).
Definition modify {S} (f : S -> S) : St S unit := fun s => (f s, Ok tt).

(** ** Node.js Buffer operations *)

Module Buf.

Abbreviation Buffer := (list Z).

(** [a.compare(b)]: bytewise lexicographic order, a proper prefix first. *)
Fixpoint compare (a b : Buffer) : Z :=
  match a, b with
  | [], [] => 0
  | [], _ :: _ => -1
  | _ :: _, [] => 1
  | x :: a', y :: b' =>
      if x <? y then -1 else if y <? x then 1 else compare a' b'
  end.

(** [a.equals(b)] *)
Definition equals (a b : Buffer) : bool := compare a b =? 0.

(** An index argument of [slice]: negative counts from the end, and the
    result is clamped to the buffer. *)
Definition clamp (len i : Z) : Z :=
  if i <? 0 then Z.max (len + i) 0 else Z.min i len.

(** [b.slice(start, end)] *)
Definition slice (b : Buffer) (start stop : Z) : Buffer :=
  let len := Z.of_nat (length b) in
  let s := clamp len start in
  let e := clamp len stop in
  take (Z.to_nat (e - s)) (drop (Z.to_nat s) b).

(** [b.slice(start)] *)
Definition slice_from (b : Buffer) (start : Z) : Buffer :=
  slice b start (Z.of_nat (length b)).

(** Big-endian value of a byte string. *)
Definition be_value (l : Buffer) : Z :=
  fold_left (fun acc x => acc * 256 + x) l 0.

(** The [n] low bytes of [u], most significant first. *)
Fixpoint be_bytes (n : nat) (u : Z) : Buffer :=
  match n with
  | O => []
  | S n' => (u / 256 ^ Z.of_nat n') mod 256 :: be_bytes n' u
  end.

(** [b.readInt8(offset)] *)
Definition readInt8 (b : Buffer) (offset : nat) : result Z :=
  match b !! offset with
  | Some x => Ok (if x <? 128 then x else x - 256)
  | None => Throw RangeError
  end.

(** [b.readBigInt64BE(offset)] *)
Definition readBigInt64BE (b : Buffer) (offset : nat) : result Z :=
  if (length b <? offset + 8)%nat then Throw RangeError
  else
    let u := be_value (take 8 (drop offset b)) in
    Ok (if u <? 2 ^ 63 then u else u - 2 ^ 64).

(** [Buffer.alloc(1)] followed by [writeInt8(v, 0)] *)
Definition writeInt8 (v : Z) : result Buffer :=
  if (v <? -128) || (127 <? v) then Throw RangeError
  else Ok [v mod 256].

(** [Buffer.alloc(8)] followed by [writeBigInt64BE(v, 0)] *)
Definition writeBigInt64BE (v : Z) : result Buffer :=
  if (v <? - 2 ^ 63) || (2 ^ 63 - 1 <? v) then Throw RangeError
  else Ok (be_bytes 8 (v mod 2 ^ 64)).

(** Ascending byte order. *)
Definition le (a b : Buffer) : Prop := compare a b <= 0.

(** Every object is truthy, an empty Buffer included. *)
Definition truthy (b : Buffer) : bool := true.

End Buf.

Abbreviation Buffer := (list Z).

(** ** Array.prototype.sort with a comparator

    The sort is stable; on a comparator that is a total preorder every stable
    sort returns the same array, which a stable insertion sort computes. *)

Module JSArray.
Section Sort.
Context {A : Type} (cmp : A -> A -> Z).

(** [x] goes before the first element that does not come strictly
    before it. *)
Fixpoint insert (x : A) (l : list A) : list A :=
  match l with
  | [] => [x]
  | y :: l' => if cmp x y <=? 0 then x :: y :: l' else y :: insert x l'
  end.

Fixpoint sort (l : list A) : list A :=
  match l with
  | [] => []
  | x :: l' => insert x (sort l')
  end.
End Sort.

(** The comparator [(a, b) => a.key.compare(b.key)] and the order it
    sorts by. *)
Definition byKey {A} (key : A -> Buffer) (a b : A) : Z :=
  Buf.compare (key a) (key b).
Definition keyLe {A} (key : A -> Buffer) (a b : A) : Prop :=
  Buf.compare (key a) (key b) <= 0.

(** [a.pop()] *)
Definition pop {A} (l : list A) : option (list A * A) :=
  match reverse l with
  | [] => None
  | x :: r => Some (reverse r, x)
  end.
End JSArray.

(** ** The Merkle tree (merkle_tree.ts) *)

Module MerkleTree.

Definition LAYER_INDEX_SIZE : Z := 1.
Definition NODE_INDEX_SIZE : Z := 8.
Definition NODE_HASH_SIZE : Z := 32.

Inductive NodeType : Type := ROOT | BRANCH | LEAF.

#[global] Instance NodeType_eq_dec : EqDecision NodeType.
Proof. solve_decision. Defined.

Record NodeData : Type := mkNodeData {
  nd_value : Buffer;
  nd_hash : Buffer;
}.

Record NodeInfo : Type := mkNodeInfo {
  ni_type : NodeType;
  ni_hash : Buffer;
  ni_value : Buffer;
  ni_leftHash : Buffer;
  ni_rightHash : Buffer;
  ni_layerIndex : Z;
  ni_nodeIndex : Z;
}.

(** The fields of a [MerkleTree] object. [_hashToBuffer] is the object used
    as a map from [hash.toString('binary')] to the node value. *)
Record State : Type := mkState {
  _root : Buffer;
  _width : Z;
  _hashToBuffer : gmap (list Z) (list Z);
}.

Abbreviation M := (St State).

Definition set_root (r : Buffer) : State -> State :=
  fun s => mkState r (_width s) (_hashToBuffer s).
Definition set_width (w : Z) : State -> State :=
  fun s => mkState (_root s) w (_hashToBuffer s).
Definition store (k v : Buffer) : State -> State :=
  fun s => mkState (_root s) (_width s) (<[k := v]> (_hashToBuffer s)).

(** A computation that leaves [_width] as it found it, whether it returns
    or throws. *)
Definition keepsWidth {A} (m : M A) : Prop :=
  forall s, _width (m s).1 = _width s.

(** A computation whose loops end within the rounds the model gives them:
    it never stops on [LoopBound], which no run of the code raises. *)
Definition withinBound {A} (m : M A) : Prop :=
  forall s, (m s).2 <> Throw LoopBound.

(** ToInt32, applied by the bitwise operators to their operands. *)
Definition toInt32 (z : Z) : Z := (z + 2 ^ 31) mod 2 ^ 32 - 2 ^ 31.

(** [2 ** (layer - 1)] is a fraction when [layer < 1]; ToInt32 then takes
    both [multiplier] and [multiplier - 1] to 0. Above that the arithmetic
    is exact for the layers of any width that a number counts exactly
    (up to 2 ^ 53). *)
Definition isAppendPath (dataLength layer : Z) : bool :=
  if layer - 1 <? 0 then false
  else
    let multiplier := 2 ^ (layer - 1) in
    negb (Z.land (Z.lor (toInt32 dataLength) (toInt32 (multiplier - 1)))
                 (toInt32 multiplier) =? 0).

Section WithHash.
(** [hash] of lisk-cryptography and the constants of ./constants. *)
Variable hash : Buffer -> Buffer.
Variables EMPTY_HASH LEAF_PREFIX BRANCH_PREFIX : Buffer.

Definition isLeaf (value : Buffer) : bool :=
  (Buf.compare LEAF_PREFIX (Buf.slice value 0 1) =? 0)
  && negb (Buf.compare value [] =? 0).

(** The lookup gives undefined for a hash that was never stored, and a
    stored Buffer is truthy even when empty. The arena is read as a map.
    That is what the object is for keys of NODE_HASH_SIZE bytes, which are
    longer than every property name that a plain object inherits; for the
    bytes of an inherited name (constructor, toString, __proto__, ...) the
    code finds the inherited property and goes on to a TypeError, which the
    map does not follow. *)
Definition getNode (h : Buffer) : M NodeInfo :=
  m ← gets _hashToBuffer;
  match m !! h with
  | None => throw (HashNotFound h)
  | Some value =>
      root ← gets _root;
      let type :=
        if Buf.compare root h =? 0 then ROOT
        else if isLeaf value then LEAF else BRANCH in
      layerIndex ← lift (if decide (type = BRANCH)
                         then Buf.readInt8 value 0 else Ok 0);
      nodeIndex ← lift (if decide (type = BRANCH)
                        then Buf.readBigInt64BE value (Z.to_nat LAYER_INDEX_SIZE)
                        else Ok 0);
      let rightHash :=
        if decide (type = LEAF) then []
        else Buf.slice_from value (-1 * NODE_HASH_SIZE) in
      let leftHash :=
        if decide (type = LEAF) then []
        else Buf.slice value (-2 * NODE_HASH_SIZE) (-1 * NODE_HASH_SIZE) in
      mret (mkNodeInfo type h value leftHash rightHash layerIndex nodeIndex)
  end.

(** [Math.ceil(Math.log2(width)) + 1], for a width of at least 1 (in
    [append] the width has just been incremented). *)
Definition _getHeight : M Z :=
  w ← gets _width;
  mret (Z.log2_up w + 1).

Definition _generateLeaf (value : Buffer) : M NodeData :=
  let leafValue := LEAF_PREFIX ++ value in
  let leafHash := hash leafValue in
  _ ← modify (store leafHash leafValue);
  w ← gets _width;
  _ ← modify (set_width (w + 1));
  mret (mkNodeData leafValue (hash leafValue)).

Definition _generateNode (leftHashBuffer rightHashBuffer : Buffer)
    (layerIndex nodeIndex : Z) : M NodeData :=
  layerIndexBuffer ← lift (Buf.writeInt8 layerIndex);
  nodeIndexBuffer ← lift (Buf.writeBigInt64BE nodeIndex);
  let branchValue :=
    BRANCH_PREFIX ++ layerIndexBuffer ++ nodeIndexBuffer
      ++ leftHashBuffer ++ rightHashBuffer in
  let branchHash := hash (BRANCH_PREFIX ++ leftHashBuffer ++ rightHashBuffer) in
  _ ← modify (store branchHash branchValue);
  mret (mkNodeData branchValue branchHash).

(** The first loop of [_build]: one leaf per value, in order. *)
Fixpoint build_leaves (initValues : list Buffer) : M (list Buffer) :=
  match initValues with
  | [] => mret []
  | v :: rest =>
      leaf ← _generateLeaf v;
      _ ← modify (store (nd_hash leaf) (nd_value leaf));
      hs ← build_leaves rest;
      mret (nd_hash leaf :: hs)
  end.

(** [pairs.push([nodes[i], nodes[i + 1]])] for i = 0, 2, 4, ... while
    [i < nodes.length - 1]. *)
Fixpoint make_pairs (nodes : list Buffer) : list (Buffer * Buffer) :=
  match nodes with
  | a :: b :: rest => (a, b) :: make_pairs rest
  | _ => []
  end.

(** The parent layer: pair number [i] becomes the branch of node index
    [i]. *)
Fixpoint build_parents (pairs : list (Buffer * Buffer)) (currentLayer i : Z)
    : M (list Buffer) :=
  match pairs with
  | [] => mret []
  | (l, r) :: rest =>
      node ← _generateNode l r currentLayer i;
      _ ← modify (store (nd_hash node) (nd_value node));
      hs ← build_parents rest currentLayer (i + 1);
      mret (nd_hash node :: hs)
  end.

(** The [while] loop of [_build]. Each round makes the number of nodes
    plus the pending orphan smaller, so [fuel] rounds are enough when
    [fuel] exceeds that number. *)
Fixpoint build_layers (fuel : nat) (currentLayerNodes : list Buffer)
    (orphanNodeInPreviousLayer : option Buffer) (currentLayer : Z)
    : M (list Buffer) :=
  if negb ((1 <? length currentLayerNodes)%nat
           || bool_decide (is_Some orphanNodeInPreviousLayer))
  then mret currentLayerNodes
  else
    match fuel with
    | O => throw LoopBound
    | S fuel' =>
        let pairs := make_pairs currentLayerNodes in
        let '(pairs, orphan) :=
          if (length currentLayerNodes mod 2 =? 1)%nat then
            match orphanNodeInPreviousLayer with
            | None => (pairs, last currentLayerNodes)
            | Some o =>
                (pairs ++ [(default [] (last currentLayerNodes), o)], None)
            end
          else (pairs, orphanNodeInPreviousLayer) in
        parentLayerNodes ← build_parents pairs currentLayer 0;
        build_layers fuel' parentLayerNodes orphan (currentLayer + 1)
    end.

(** [currentLayerNodes[0]] is the root. On an empty array it would be
    undefined, which the model reports as a TypeError; the constructor calls
    [_build] on a non-empty array only. *)
Definition _build (initValues : list Buffer) : M Buffer :=
  leafHashes ← build_leaves initValues;
  nodes ← build_layers (S (length leafHashes)) leafHashes None 0;
  match nodes with
  | h :: _ => mret h
  | [] => throw TypeError
  end.

(** The object before the constructor body runs ([_root] is not yet
    assigned). *)
Definition blank : State := mkState [] 0 ∅.

Definition constructor (initValues : list Buffer) : M unit :=
  _ ← modify (set_width (Z.of_nat (length initValues)));
  w ← gets _width;
  if w =? 0 then modify (set_root EMPTY_HASH)
  else
    r ← _build initValues;
    modify (set_root r).

(** [new MerkleTree(initValues)] *)
Definition new (initValues : list Buffer) : State * result unit :=
  constructor initValues blank.

(** The [for] loop of [append], with [n] rounds left. *)
Fixpoint append_descend (n : nat) (i treeHeight : Z) (currentNode : NodeInfo)
    (appendPath : list NodeInfo) : M (list NodeInfo) :=
  match n with
  | O => mret appendPath
  | S n' =>
      w ← gets _width;
      let appendPath :=
        if isAppendPath (w - 1) (treeHeight - i)
        then appendPath ++ [currentNode] else appendPath in
      if isLeaf (ni_hash currentNode) then mret appendPath
      else
        appendPath ←
          (if isAppendPath (w - 1) (treeHeight - i - 1)
           then l ← getNode (ni_leftHash currentNode);
                mret (appendPath ++ [l])
           else mret appendPath);
        if Buf.truthy (ni_rightHash currentNode) then mret appendPath
        else if isLeaf (ni_rightHash currentNode)
                || (Buf.compare [] (ni_rightHash currentNode) =? 0)
        then mret appendPath
        else
          next ← getNode (ni_rightHash currentNode);
          append_descend n' (i + 1) treeHeight next appendPath
  end.

(** The [while (appendPath.length > 1)] loop; each round shortens the
    path by one. *)
Fixpoint append_combine (n : nat) (appendPath : list NodeInfo)
    : M (list NodeInfo) :=
  if negb (1 <? length appendPath)%nat then mret appendPath
  else
    match n with
    | O => throw LoopBound
    | S n' =>
        match JSArray.pop appendPath with
        | None => throw TypeError
        | Some (path1, rightNodeInfo) =>
            match JSArray.pop path1 with
            | None => throw TypeError
            | Some (path2, leftNodeInfo) =>
                newNode ← _generateNode (ni_hash leftNodeInfo)
                            (ni_hash rightNodeInfo)
                            (ni_layerIndex leftNodeInfo + 1)
                            (ni_nodeIndex leftNodeInfo + 1);
                _ ← modify (store (nd_hash newNode) (nd_value newNode));
                n ← getNode (nd_hash newNode);
                append_combine n' (path2 ++ [n])
            end
        end
    end.

Definition append (value : Buffer) : M Buffer :=
  appendData ← _generateLeaf value;
  appendNode ← getNode (nd_hash appendData);
  rootNodeHash ← gets _root;
  currentNode ← getNode rootNodeHash;
  treeHeight ← _getHeight;
  appendPath ← append_descend (Z.to_nat treeHeight) 0 treeHeight currentNode [];
  n ← getNode (ni_hash appendNode);
  let appendPath := appendPath ++ [n] in
  appendPath ← append_combine (length appendPath) appendPath;
  match appendPath with
  | first :: _ =>
      _ ← modify (set_root (ni_hash first));
      gets _root
  | [] => throw TypeError
  end.

Definition clear : M unit :=
  _ ← modify (set_width 0);
  _ ← modify (fun s => mkState (_root s) (_width s) ∅);
  modify (set_root EMPTY_HASH).

(** [fold(append, L, t)]: the appends in order, stopping at a throw. *)
Fixpoint append_all (values : list Buffer) : M unit :=
  match values with
  | [] => mret tt
  | v :: rest => _ ← append v; append_all rest
  end.

End WithHash.

End MerkleTree.

(** ** The BFT API (framework/src/modules/bft/api.ts) *)

Module BFT.

Record Validator : Type := mkValidator {
  address : Buffer;
  bftWeight : Z;
}.

Record ValidatorsHashInfo : Type := mkValidatorsHashInfo {
  blsKey : Buffer;
  vh_bftWeight : Z;
}.

Record ValidatorsHashInput : Type := mkValidatorsHashInput {
  activeValidators : list ValidatorsHashInfo;
  vi_certificateThreshold : Z;
}.

(** The fields of a block header that the BFT API reads. *)
Record BlockHeader : Type := mkBlockHeader {
  id : Buffer;
  height : Z;
  generatorAddress : Buffer;
  maxHeightGenerated : Z;
  maxHeightPrevoted : Z;
}.

Record BlockBFTInfo : Type := mkBlockBFTInfo {
  bi_height : Z;
  bi_generatorAddress : Buffer;
  bi_maxHeightGenerated : Z;
  bi_maxHeightPrevoted : Z;
}.

Record BFTVotesActiveValidatorsVoteInfo : Type := mkVoteInfo {
  vi_address : Buffer;
  minActiveHeight : Z;
  largestHeightPrecommit : Z;
}.

Record BFTVotes : Type := mkBFTVotes {
  bv_maxHeightPrevoted : Z;
  bv_maxHeightPrecommitted : Z;
  bv_maxHeightCertified : Z;
  blockBFTInfos : list BlockBFTInfo;
  activeValidatorsVoteInfo : list BFTVotesActiveValidatorsVoteInfo;
}.

Record BFTParameters : Type := mkBFTParameters {
  prevoteThreshold : Z;
  precommitThreshold : Z;
  certificateThreshold : Z;
  validators : list Validator;
  validatorsHash : Buffer;
}.

Record BFTHeights : Type := mkBFTHeights {
  h_maxHeightPrevoted : Z;
  h_maxHeightPrecommitted : Z;
  h_maxHeightCertified : Z;
}.

(** The two stores of the module: the votes store holds one value under
    EMPTY_KEY; the parameters store is keyed by the 4-byte big-endian
    encoding of a height, identified here with the height. The heights of
    keys are taken within 0 .. 2 ^ 32 - 1: outside it intToBuffer throws a
    RangeError before the store is read or written, which the model does
    not follow. *)
Record Stores : Type := mkStores {
  votesStore : option BFTVotes;
  paramsStore : gmap Z BFTParameters;
}.

Abbreviation M := (St Stores).

(** [votesStore.getWithSchema(EMPTY_KEY, bftVotesSchema)] *)
Definition getVotes : M BFTVotes := fun s =>
  match votesStore s with
  | Some v => (s, Ok v)
  | None => (s, Throw StoreKeyNotFound)
  end.

(** [votesStore.setWithSchema(EMPTY_KEY, bftVotes, bftVotesSchema)] *)
Definition setVotes (v : BFTVotes) : M unit :=
  modify (fun s => mkStores (Some v) (paramsStore s)).

(** [paramsStore.setWithSchema(key, bftParams, bftParametersSchema)] *)
Definition setParams (key : Z) (p : BFTParameters) : M unit :=
  modify (fun s => mkStores (votesStore s) (<[key := p]> (paramsStore s))).

Section WithRule.
(** areDistinctHeadersContradicting of ./utils, which is not among the
    sources: the rule for two headers with different ids is a parameter. *)
Variable areDistinctHeadersContradicting : BlockHeader -> BlockHeader -> bool.

Definition areHeadersContradicting (bftHeader1 bftHeader2 : BlockHeader) : bool :=
  if Buf.equals (id bftHeader1) (id bftHeader2) then false
  else areDistinctHeadersContradicting bftHeader1 bftHeader2.
End WithRule.

Definition getBFTHeights : M BFTHeights :=
  bftVotes ← getVotes;
  mret (mkBFTHeights (bv_maxHeightPrevoted bftVotes)
          (bv_maxHeightPrecommitted bftVotes) (bv_maxHeightCertified bftVotes)).

(** [a[i]] for a number [i]: undefined outside the array. *)
Definition index {A} (a : list A) (i : Z) : option A :=
  if i <? 0 then None else a !! Z.to_nat i.

Definition impliesMaximalPrevotes (header : BlockHeader) : M bool :=
  bftVotes ← getVotes;
  match head (blockBFTInfos bftVotes) with
  | None => throw TypeError
  | Some lastHeader =>
      if negb (height header =? bi_height lastHeader + 1) then mret false
      else
        let previousHeight := maxHeightGenerated header in
        if previousHeight >=? height header then mret false
        else
          let offset := bi_height lastHeader - previousHeight in
          if offset >=? Z.of_nat (length (blockBFTInfos bftVotes)) then mret true
          else
            match index (blockBFTInfos bftVotes) offset with
            | None => throw TypeError
            | Some info =>
                if negb (Buf.equals (bi_generatorAddress info)
                           (generatorAddress header))
                then mret false
                else mret true
            end
  end.

(** Modelled from the spec: sortValidatorsByBLSKey of ./utils is not among
    the sources. Section 4.3: the validators hash is computed over the
    validators canonically sorted by BLS key; the sort is the in-place
    [sort((a, b) => a.blsKey.compare(b.blsKey))] that the commit pool writes
    out in getSortedWeightsAndValidatorKeys. *)
Definition sortValidatorsByBLSKey (l : list ValidatorsHashInfo)
    : list ValidatorsHashInfo :=
  JSArray.sort (fun a b => Buf.compare (blsKey a) (blsKey b)) l.

(** Modelled from the spec: sortValidatorsByAddress of ./utils is not among
    the sources. Section 4.3: the list is sorted by address for a
    deterministic storage order. *)
Definition sortValidatorsByAddress {A} (addr : A -> Buffer) (l : list A) : list A :=
  JSArray.sort (fun a b => Buf.compare (addr a) (addr b)) l.

Section WithCollaborators.
(** [this._batchSize]; the BLS key of the validator account of an address,
    if the validators module has one; [codec.encode(validatorsHashInputSchema,
    _)] and [hash]. *)
Variable _batchSize : Z.
Variable validatorAccounts : Buffer -> option Buffer.
Variable encode : ValidatorsHashInput -> Buffer.
Variable hash : Buffer -> Buffer.

(** [(await this._validatorsAPI.getValidatorAccount(context, address)).blsKey] *)
Definition getValidatorAccount (address : Buffer) : result Buffer :=
  match validatorAccounts address with
  | Some blsKey => Ok blsKey
  | None => Throw (ValidatorAccountNotFound address)
  end.

(** The first loop of [_computeValidatorsHash]. *)
Fixpoint resolveKeys (validators : list Validator)
    : result (list ValidatorsHashInfo) :=
  match validators with
  | [] => Ok []
  | validator :: rest =>
      blsKey ← getValidatorAccount (address validator);
      infos ← resolveKeys rest;
      mret (mkValidatorsHashInfo blsKey (bftWeight validator) :: infos)
  end.

Definition _computeValidatorsHash (validators : list Validator)
    (certificateThreshold : Z) : result Buffer :=
  activeValidators ← resolveKeys validators;
  let activeValidators := sortValidatorsByBLSKey activeValidators in
  let input := mkValidatorsHashInput activeValidators certificateThreshold in
  mret (hash (encode input)).

(** The weight loop of [setBFTParameters]. *)
Fixpoint aggregateWeights (validators : list Validator) (aggregateBFTWeight : Z)
    : result Z :=
  match validators with
  | [] => Ok aggregateBFTWeight
  | validator :: rest =>
      if bftWeight validator <=? 0 then Throw InvalidBFTWeight
      else aggregateWeights rest (aggregateBFTWeight + bftWeight validator)
  end.

(** The entry of a validator in the next [activeValidatorsVoteInfo]. *)
Definition nextVoteInfo (bftVotes : BFTVotes) (nextHeight : Z)
    (validator : Validator) : BFTVotesActiveValidatorsVoteInfo :=
  match find (fun v => Buf.equals (vi_address v) (address validator))
             (activeValidatorsVoteInfo bftVotes) with
  | Some existingValidator => existingValidator
  | None => mkVoteInfo (address validator) nextHeight (nextHeight - 1)
  end.

Definition setBFTParameters (precommitThreshold certificateThreshold : Z)
    (validators : list Validator) : M unit :=
  _ ← lift (if Z.of_nat (length validators) >? _batchSize
            then Throw InvalidValidatorsSize else Ok tt);
  aggregateBFTWeight ← lift (aggregateWeights validators 0);
  _ ← lift (if (aggregateBFTWeight ÷ 3 + 1 >? precommitThreshold)
               || (precommitThreshold >? aggregateBFTWeight)
            then Throw InvalidPrecommitThreshold else Ok tt);
  _ ← lift (if (aggregateBFTWeight ÷ 3 + 1 >? certificateThreshold)
               || (certificateThreshold >? aggregateBFTWeight)
            then Throw InvalidCertificateThreshold else Ok tt);
  validatorsHash ← lift (_computeValidatorsHash validators certificateThreshold);
  let validators := sortValidatorsByAddress address validators in
  let bftParams :=
    mkBFTParameters (2 * aggregateBFTWeight ÷ 3 + 1) precommitThreshold
      certificateThreshold validators validatorsHash in
  bftVotes ← getVotes;
  let nextHeight :=
    match blockBFTInfos bftVotes with
    | info :: _ => bi_height info + 1
    | [] => bv_maxHeightPrevoted bftVotes
    end in
  _ ← setParams nextHeight bftParams;
  let nextActiveValidators := map (nextVoteInfo bftVotes nextHeight) validators in
  let nextActiveValidators := sortValidatorsByAddress vi_address nextActiveValidators in
  setVotes (mkBFTVotes (bv_maxHeightPrevoted bftVotes)
              (bv_maxHeightPrecommitted bftVotes) (bv_maxHeightCertified bftVotes)
              (blockBFTInfos bftVotes) nextActiveValidators).

(** The height under which [setBFTParameters] stores the new entry. *)
Definition nextHeightOf (s : Stores) : option Z :=
  match votesStore s with
  | Some bftVotes =>
      Some match blockBFTInfos bftVotes with
           | info :: _ => bi_height info + 1
           | [] => bv_maxHeightPrevoted bftVotes
           end
  | None => None
  end.

End WithCollaborators.

(** *** Vocabulary of the properties *)

(** W, the sum of the weights of a validator list. *)
Definition totalWeight (validators : list Validator) : Z :=
  foldr (fun validator sum => bftWeight validator + sum) 0 validators.

(** A threshold within floor(W/3) + 1 and W. *)
Definition inBounds (W threshold : Z) : bool :=
  (W / 3 + 1 <=? threshold) && (threshold <=? W).

(** The errors that [setBFTParameters] raises on its own checks. *)
Definition isValidationError (e : Error) : bool :=
  match e with
  | InvalidValidatorsSize | InvalidBFTWeight
  | InvalidPrecommitThreshold | InvalidCertificateThreshold => true
  | _ => false
  end.

Definition isThresholdError (e : Error) : bool :=
  match e with
  | InvalidPrecommitThreshold | InvalidCertificateThreshold => true
  | _ => false
  end.


End BFT.

(** ** The commit pool and its certificate utilities *)

Module CommitPool.

Record AggregateCommit : Type := mkAggregateCommit {
  ac_height : Z;
  ac_aggregationBits : Buffer;
  certificateSignature : Buffer;
}.

(** The block header as the chain returns it; [stateRoot] and
    [validatorsHash] may be undefined. *)
Record BlockHeader : Type := mkBlockHeader {
  id : Buffer;
  height : Z;
  timestamp : Z;
  stateRoot : option Buffer;
  validatorsHash : option Buffer;
}.

Record Certificate : Type := mkCertificate {
  blockID : Buffer;
  c_height : Z;
  c_timestamp : Z;
  c_stateRoot : Buffer;
  c_validatorsHash : Buffer;
  aggregationBits : option Buffer;
  signature : option Buffer;
}.

(** An element of the array that getSortedWeightsAndValidatorKeys takes. *)
Record KeyWithWeight : Type := mkKeyWithWeight {
  weight : Z;
  blsKey : Buffer;
}.

(** *** utils *)

Definition computeCertificateFromBlockHeader (blockHeader : BlockHeader)
    : result Certificate :=
  match stateRoot blockHeader with
  | None => Throw MissingStateRoot
  | Some sr =>
      match validatorsHash blockHeader with
      | None => Throw MissingValidatorsHash
      | Some vh =>
          Ok (mkCertificate (id blockHeader) (height blockHeader)
                (timestamp blockHeader) sr vh None None)
      end
  end.

(** Arrays live in a heap, so that a call can be seen to leave the array of
    its caller alone. *)
Abbreviation Heap := (gmap nat (list KeyWithWeight)).

Definition alloc (a : list KeyWithWeight) : St Heap nat := fun h =>
  let p := fresh (dom h) in (<[p := a]> h, Ok p).

Definition read (p : nat) : St Heap (list KeyWithWeight) := fun h =>
  match h !! p with
  | Some a => (h, Ok a)
  | None => (h, Throw TypeError)
  end.

(** [a.sort(cmp)] sorts the array at [p] in place. *)
Definition sortInPlace (cmp : KeyWithWeight -> KeyWithWeight -> Z) (p : nat)
    : St Heap unit :=
  a ← read p;
  modify (fun h : Heap => <[p := JSArray.sort cmp a]> h).

(** The argument is the reference [validatorKeysWithWeightsParam]; the two
    arrays of the result are new and returned by value. *)
Definition getSortedWeightsAndValidatorKeys (validatorKeysWithWeightsParam : nat)
    : St Heap (list Z * list Buffer) :=
  param ← read validatorKeysWithWeightsParam;
  validatorKeysWithWeights ←
    alloc (map (fun o => mkKeyWithWeight (weight o) (blsKey o)) param);
  _ ← sortInPlace (fun a b => Buf.compare (blsKey a) (blsKey b))
        validatorKeysWithWeights;
  sorted ← read validatorKeysWithWeights;
  let weights := map weight sorted in
  let validatorKeys := map blsKey sorted in
  mret (weights, validatorKeys).

(** *** Collaborators of the pool *)

Record Env : Type := mkEnv {
  (** [this._bftAPI] *)
  getBFTHeights : result BFT.BFTHeights;
  getNextHeightBFTParameters : Z -> result Z;
  getBFTParameters : Z -> result BFT.BFTParameters;
  (** [this._validatorsAPI.getValidatorAccount(_, address).blsKey] *)
  getValidatorAccount : Buffer -> result Buffer;
  (** [this._chain] *)
  getBlockHeaderByHeight : Z -> result BlockHeader;
  networkIdentifier : Buffer;
  (** [codec.encode(certificateSchema, _)], [verifyWeightedAggSig] and
      MESSAGE_TAG_CERTIFICATE *)
  encodeCertificate : Certificate -> Buffer;
  verifyWeightedAggSig :
    list Buffer -> Buffer -> Buffer -> Buffer -> Buffer -> Buffer ->
    list Z -> Z -> bool;
  MESSAGE_TAG_CERTIFICATE : Buffer;
}.

(** The calls that leave the pool, in the order they are made. *)
Inductive Call : Type :=
  | CallGetBFTHeights
  | CallGetNextHeightBFTParameters (h : Z)
  | CallGetBlockHeaderByHeight (h : Z)
  | CallGetBFTParameters (h : Z)
  | CallGetValidatorAccount (a : Buffer)
  | CallVerifyWeightedAggSig.

(** A computation of the pool: the calls it made and its outcome. *)
Definition W (A : Type) : Type := (list Call * result A)%type.

#[global] Instance W_ret : MRet W := fun A a => ([], Ok a).
#[global] Instance W_bind : MBind W := fun A B f m =>
  match m with
  | (t, Ok a) => let '(t', r) := f a in (t ++ t', r)
  | (t, Throw e) => (t, Throw e)
  end.

Definition call {A} (c : Call) (r : result A) : W A := ([c], r).

(** [try { body } catch { }]: every exception of [body] is dropped and
    [fallback] is the value the code goes on with. *)
Definition tryCatchAll {A} (body : W A) (fallback : A) : W A :=
  match body with
  | (t, Ok a) => (t, Ok a)
  | (t, Throw _) => (t, Ok fallback)
  end.

Section WithEnv.
Variable env : Env.

Definition verifyAggregateCertificateSignature (keysList : list Buffer)
    (weights : list Z) (threshold : Z) (networkIdentifier : Buffer)
    (certificate : Certificate) : W bool :=
  match aggregationBits certificate, signature certificate with
  | Some aggregationBits, Some signature =>
      let message :=
        encodeCertificate env
          (mkCertificate (blockID certificate) (c_height certificate)
             (c_timestamp certificate) (c_stateRoot certificate)
             (c_validatorsHash certificate) None None) in
      call CallVerifyWeightedAggSig
        (Ok (verifyWeightedAggSig env keysList aggregationBits signature
               (MESSAGE_TAG_CERTIFICATE env) networkIdentifier message
               weights threshold))
  | _, _ => mret false
  end.

(** The loop over [bftParams.validators]. *)
Fixpoint resolveKeys (validators : list BFT.Validator) : W (list KeyWithWeight) :=
  match validators with
  | [] => mret []
  | validator :: rest =>
      key ← call (CallGetValidatorAccount (BFT.address validator))
              (getValidatorAccount env (BFT.address validator));
      l ← resolveKeys rest;
      mret (mkKeyWithWeight (BFT.bftWeight validator) key :: l)
  end.

(** Step 6: everything after the try statement. *)
Definition verifyCertificate (aggregateCommit : AggregateCommit) : W bool :=
  blockHeader ← call (CallGetBlockHeaderByHeight (ac_height aggregateCommit))
                  (getBlockHeaderByHeight env (ac_height aggregateCommit));
  computed ← ([], computeCertificateFromBlockHeader blockHeader);
  let certificate :=
    mkCertificate (blockID computed) (c_height computed) (c_timestamp computed)
      (c_stateRoot computed) (c_validatorsHash computed)
      (Some (ac_aggregationBits aggregateCommit))
      (Some (certificateSignature aggregateCommit)) in
  bftParams ← call (CallGetBFTParameters (ac_height aggregateCommit))
                (getBFTParameters env (ac_height aggregateCommit));
  let threshold := BFT.certificateThreshold bftParams in
  validatorKeysWithWeights ← resolveKeys (BFT.validators bftParams);
  sorted ← ([], (getSortedWeightsAndValidatorKeys 0
                   {[ 0%nat := validatorKeysWithWeights ]}).2);
  let '(weights, validatorKeys) := sorted in
  verifyAggregateCertificateSignature validatorKeys weights threshold
    (networkIdentifier env) certificate.

(** The try statement: [Some false] when its body returns false from the
    function, [None] when the code goes on after it. *)
Definition expiryGate (aggregateCommit : AggregateCommit) (maxHeightCertified : Z)
    : W (option bool) :=
  tryCatchAll
    (heightNextBFTParameters ←
       call (CallGetNextHeightBFTParameters (maxHeightCertified + 1))
         (getNextHeightBFTParameters env (maxHeightCertified + 1));
     if ac_height aggregateCommit >? heightNextBFTParameters - 1
     then mret (Some false) else mret None)
    None.

Definition verifyAggregateCommit (aggregateCommit : AggregateCommit) : W bool :=
  heights ← call CallGetBFTHeights (getBFTHeights env);
  let maxHeightCertified := BFT.h_maxHeightCertified heights in
  let maxHeightPrecommitted := BFT.h_maxHeightPrecommitted heights in
  if (length (ac_aggregationBits aggregateCommit) =? 0)%nat
     && (length (certificateSignature aggregateCommit) =? 0)%nat
     && (ac_height aggregateCommit =? maxHeightCertified)
  then mret true
  else if (length (ac_aggregationBits aggregateCommit) =? 0)%nat
          || (length (certificateSignature aggregateCommit) =? 0)%nat
  then mret false
  else if ac_height aggregateCommit <=? maxHeightCertified then mret false
  else if ac_height aggregateCommit >? maxHeightPrecommitted then mret false
  else
    returned ← expiryGate aggregateCommit maxHeightCertified;
    match returned with
    | Some b => mret b
    | None => verifyCertificate aggregateCommit
    end.

End WithEnv.

(** *** Vocabulary of the properties *)

(** The calls of certificate recomputation and signature verification. *)
Definition isVerificationCall (c : Call) : bool :=
  match c with
  | CallGetBlockHeaderByHeight _ | CallGetBFTParameters _
  | CallGetValidatorAccount _ | CallVerifyWeightedAggSig => true
  | CallGetBFTHeights | CallGetNextHeightBFTParameters _ => false
  end.

(** [env] with another answer of the next-parameters lookup. *)
Definition withNextHeight (env : Env) (answer : Z -> result Z) : Env :=
  mkEnv (getBFTHeights env) answer (getBFTParameters env)
    (getValidatorAccount env) (getBlockHeaderByHeight env)
    (networkIdentifier env) (encodeCertificate env) (verifyWeightedAggSig env)
    (MESSAGE_TAG_CERTIFICATE env).

End CommitPool.

(** ** Sample collaborators and inputs

    A stand-in for the hash of lisk-cryptography, with 32-byte digests whose
    first byte is at least 128, and the constants of lisk-tree as they are
    declared there: a leaf prefix 00, a branch prefix 01 and the digest of
    the empty string as the empty root. *)

Module Samples.

Definition sampleHash (b : Buffer) : Buffer :=
  Buf.be_bytes 32
    (2 ^ 255 + fold_left (fun acc x => acc * 257 + x + 1) b 7 mod 2 ^ 255).

Definition LEAF_PREFIX : Buffer := [0].
Definition BRANCH_PREFIX : Buffer := [1].
Definition EMPTY_HASH : Buffer := sampleHash [].

Definition new := MerkleTree.new sampleHash EMPTY_HASH LEAF_PREFIX BRANCH_PREFIX.
Definition append := MerkleTree.append sampleHash LEAF_PREFIX BRANCH_PREFIX.
Definition append_all :=
  MerkleTree.append_all sampleHash LEAF_PREFIX BRANCH_PREFIX.

(** The validator account of an address holds the address as its BLS key;
    the encoding writes each key with its weight, then the threshold. *)
Definition sampleAccount (a : Buffer) : option Buffer := Some a.

Definition sampleEncode (input : BFT.ValidatorsHashInput) : Buffer :=
  concat (map (fun i => BFT.blsKey i ++ [BFT.vh_bftWeight i])
            (BFT.activeValidators input))
  ++ [BFT.vi_certificateThreshold input].

Definition sampleVotes : BFT.BFTVotes :=
  BFT.mkBFTVotes 7 5 3 [BFT.mkBlockBFTInfo 9 [1] 8 7; BFT.mkBlockBFTInfo 8 [2] 7 6] [].

Definition sampleStores : BFT.Stores := BFT.mkStores (Some sampleVotes) ∅.

Definition setBFTParameters :=
  BFT.setBFTParameters 10 sampleAccount sampleEncode sampleHash.

(** A pool whose BFT heights are certified 10 and precommitted 20, whose
    next-parameters lookup fails with an error other than
    BFTParameterNotFoundError, and whose signature check accepts. *)
Definition sampleEnv : CommitPool.Env :=
  CommitPool.mkEnv
    (Ok (BFT.mkBFTHeights 30 20 10))
    (fun _ => Throw (OtherError 1))
    (fun _ => Ok (BFT.mkBFTParameters 3 2 2
                    [BFT.mkValidator [2] 2; BFT.mkValidator [1] 1] []))
    (fun a => Ok a)
    (fun h => Ok (CommitPool.mkBlockHeader [9] h 100 (Some [1]) (Some [2])))
    [0]
    (fun c => CommitPool.blockID c ++ [CommitPool.c_height c])
    (fun _ _ _ _ _ _ _ _ => true)
    [76].

Definition sampleHeap : gmap nat (list CommitPool.KeyWithWeight) :=
  {[ 4%nat := [CommitPool.mkKeyWithWeight 5 [2; 1];
               CommitPool.mkKeyWithWeight 7 [1; 9];
               CommitPool.mkKeyWithWeight 3 [1]] ]}.

End Samples.

(** ** More of the Merkle tree: reference notions for its properties *)

Module MerkleTreeModel.
Import MerkleTree.

Section WithHash.
Variable hash : Buffer -> Buffer.
Variables EMPTY_HASH LEAF_PREFIX BRANCH_PREFIX : Buffer.

(** Every key of the arena has the length of a hash, NODE_HASH_SIZE: the
    states in which the object behaves as the map that the model reads. *)
Definition digestKeys (s : State) : Prop :=
  forall k, is_Some (_hashToBuffer s !! k) -> length k = 32%nat.

(** The states of a tree object: the state that a returning constructor
    call leaves, then the state after each call of [append], whether it
    returns or throws, and of [clear]. The other operations leave the
    state as it is. *)
Inductive reachable : State -> Prop :=
  | reachable_new (initValues : list Buffer) :
      (new hash EMPTY_HASH LEAF_PREFIX BRANCH_PREFIX initValues).2 = Ok tt ->
      reachable (new hash EMPTY_HASH LEAF_PREFIX BRANCH_PREFIX initValues).1
  | reachable_append (value : Buffer) (s : State) :
      reachable s ->
      reachable (append hash LEAF_PREFIX BRANCH_PREFIX value s).1
  | reachable_clear (s : State) :
      reachable s -> reachable (clear EMPTY_HASH s).1.

(** An entry of the arena is content-addressed: a leaf value under the hash
    of the value, or a branch value under the hash of the branch prefix and
    the two child hashes, the layer and node index bytes left out. *)
Definition addressed (k v : Buffer) : Prop :=
  (exists value, v = LEAF_PREFIX ++ value /\ k = hash v)
  \/ (exists layerIndex nodeIndex l r,
        v = BRANCH_PREFIX ++ layerIndex ++ nodeIndex ++ l ++ r
        /\ length layerIndex = 1%nat /\ length nodeIndex = 8%nat
        /\ k = hash (BRANCH_PREFIX ++ l ++ r)).

Definition contentAddressed (m : gmap (list Z) (list Z)) : Prop :=
  forall k v, m !! k = Some v -> addressed k v.

(** A hash that [getNode] finds. *)
Definition known (s : State) (h : Buffer) : Prop :=
  is_Some (_hashToBuffer s !! h).

(** From a state in [P], the computation returns [a] in a state with
    [Q a], or throws in a state with [E]. *)
Definition triple {A} (P : State -> Prop) (c : M A)
    (Q : A -> State -> Prop) (E : State -> Prop) : Prop :=
  forall s, P s ->
    match c s with
    | (s', Ok a) => Q a s'
    | (s', Throw _) => E s'
    end.

(** [I] holds after the computation if it held before, whether it returns
    or throws. *)
Definition preserves {A} (I : State -> Prop) (c : M A) : Prop :=
  triple I c (fun _ => I) I.

(** The layer above a layer of an even number of nodes. *)
Definition layerAbove (nodes : list Buffer) : list Buffer :=
  map (fun p => hash (BRANCH_PREFIX ++ p.1 ++ p.2)) (make_pairs nodes).

(** The root of the complete binary tree of height [k] over [2 ^ k] nodes. *)
Fixpoint completeRoot (k : nat) (nodes : list Buffer) : Buffer :=
  match k with
  | O => default [] (head nodes)
  | S k' => completeRoot k' (layerAbove nodes)
  end.

Definition leafHashes (values : list Buffer) : list Buffer :=
  map (fun value => hash (LEAF_PREFIX ++ value)) values.

End WithHash.
End MerkleTreeModel.

(** ** More of the BFT API (api.ts) *)

Module BFTQueries.
Import BFT.

(** MAX_UINT32 of ./constants, which is not among the sources: the value
    that its name gives, the largest height of a 4-byte key. *)
Definition MAX_UINT32 : Z := 4294967295.

(** [paramsStore.has(intToBuffer(height, 4, BIG_ENDIAN))] *)
Definition existBFTParameters (height : Z) : M bool :=
  gets (fun s => bool_decide (is_Some (paramsStore s !! height))).

Section WithRule.
(** areDistinctHeadersContradicting of ./utils, as it is applied here to a
    stored block info and a header. *)
Variable areDistinctHeadersContradicting : BlockBFTInfo -> BlockHeader -> bool.

(** The [for] loop over [bftVotes.blockBFTInfos], with its [return false]
    after the loop. *)
Fixpoint scanBlockBFTInfos (infos : list BlockBFTInfo) (header : BlockHeader)
    : bool :=
  match infos with
  | [] => false
  | bftBlock :: rest =>
      if Buf.equals (bi_generatorAddress bftBlock) (generatorAddress header)
      then areDistinctHeadersContradicting bftBlock header
      else scanBlockBFTInfos rest header
  end.

Definition isHeaderContradictingChain (header : BlockHeader) : M bool :=
  bftVotes ← getVotes;
  mret (scanBlockBFTInfos (blockBFTInfos bftVotes) header).
End WithRule.

(** Modelled from the spec: the store and its [iterate] are not among the
    sources. Section 6: [iterate(range)] gives the ordered sequence of the
    entries of the range; keys are the 4-byte big-endian encodings of
    heights, whose byte order is the order of the heights. [limit] keeps the
    first entries. *)
Definition keyLe (a b : Z * BFTParameters) : Prop := a.1 <= b.1.

#[global] Instance keyLe_dec (a b : Z * BFTParameters) : Decision (keyLe a b).
Proof. unfold keyLe. apply _. Defined.

Definition iterate (m : gmap Z BFTParameters) (limit : nat) (start stop : Z)
    : list (Z * BFTParameters) :=
  take limit
    (filter (fun kv => start <= kv.1 <= stop)
       (merge_sort keyLe (map_to_list m))).

Definition getNextHeightBFTParameters (height : Z) : M Z :=
  results ← gets (fun s => iterate (paramsStore s) 1 (height + 1) MAX_UINT32);
  match results with
  | [result] => mret result.1
  | _ => throw BFTParameterNotFoundError
  end.

(** The recorded heights go down by one from one block info to the next. *)
Definition contiguous (infos : list BlockBFTInfo) : Prop :=
  forall last i info,
    head infos = Some last -> infos !! i = Some info ->
    bi_height info = bi_height last - Z.of_nat i.

End BFTQueries.

(** ** The DPoS utilities (dpos_v2/utils.ts) and the call of the DPoS module *)

Module DPoS.

Record UnlockingObject : Type := mkUnlockingObject {
  delegateAddress : Buffer;
  amount : Z;
  unvoteHeight : Z;
}.

(** The comparator of [sortUnlocking]. *)
Definition compareUnlocking (a b : UnlockingObject) : Z :=
  if negb (Buf.equals (delegateAddress a) (delegateAddress b))
  then Buf.compare (delegateAddress a) (delegateAddress b)
  else if negb (unvoteHeight a =? unvoteHeight b)
  then unvoteHeight b - unvoteHeight a
  else
    let diff := amount b - amount a in
    if diff >? 0 then 1 else if diff <? 0 then -1 else 0.

(** [sortUnlocking(unlocks)]: the array after the call. *)
Definition sortUnlocking (unlocks : list UnlockingObject) : list UnlockingObject :=
  JSArray.sort compareUnlocking unlocks.

(** [Math.ceil] of an integer is the integer. *)
Definition getRoundNumber (height genesisHeight roundLength : Z) : Z :=
  height - genesisHeight - roundLength.

(** [%] is the remainder that takes the sign of the dividend; by 0 it is
    NaN, which is not 0. *)
Definition isEndOfRound (height genesisHeight roundLength : Z) : bool :=
  if roundLength =? 0 then false
  else Z.rem (height - genesisHeight) roundLength =? 0.

Record ShuffleEntry : Type := mkShuffleEntry {
  se_address : Buffer;
  roundHash : Buffer;
}.

Definition compareShuffle (delegate1 delegate2 : ShuffleEntry) : Z :=
  let diff := Buf.compare (roundHash delegate1) (roundHash delegate2) in
  if negb (diff =? 0) then diff
  else Buf.compare (se_address delegate1) (se_address delegate2).

Section WithHash.
Variable hash : Buffer -> Buffer.

Definition shuffleValidatorsList (addresses : list Buffer) (randomSeed : Buffer)
    : list Buffer :=
  let delegateList :=
    map (fun delegate => mkShuffleEntry delegate (hash (randomSeed ++ delegate)))
      addresses in
  map se_address (JSArray.sort compareShuffle delegateList).
End WithHash.

(** EMPTY_BUFFER of ./constants, which is not among the sources: the buffer
    of length 0 that its name gives. *)
Definition EMPTY_BUFFER : Buffer := [].

(** [b.readBigUInt64BE()] *)
Definition readBigUInt64BE (b : Buffer) : result Z :=
  if (length b <? 8)%nat then Throw RangeError
  else Ok (Buf.be_value (take 8 b)).

(** BigInt [%]: a RangeError on a zero divisor. *)
Definition bigIntRem (a b : Z) : result Z :=
  if b =? 0 then Throw RangeError else Ok (Z.rem a b).

(** The [for] loop of [pickStandByDelegate]. *)
Fixpoint pickFrom (entries : list (Buffer * Z)) (threshold : Z) : Buffer :=
  match entries with
  | [] => EMPTY_BUFFER
  | (address, weight) :: rest =>
      if weight >? threshold then address
      else pickFrom rest (threshold - weight)
  end.

(** [delegateWeights] is read through [entries()] only; the argument here is
    that array of [address, weight] pairs. *)
Definition pickStandByDelegate (delegateWeightEntries : list (Buffer * Z))
    (randomSeed : Buffer) : result Buffer :=
  seedNumber ← readBigUInt64BE randomSeed;
  let totalVoteWeight :=
    fold_left (fun prev current => prev + current.2) delegateWeightEntries 0 in
  threshold ← bigIntRem seedNumber totalVoteWeight;
  mret (pickFrom delegateWeightEntries threshold).

(** The validator list that [afterBlockExecute] hands to setBFTParameters:
    every active delegate with weight 1. *)
Definition bftWeights (activeDelegates : list Buffer) : list BFT.Validator :=
  map (fun address => BFT.mkValidator address 1) activeDelegates.

Section WithConstants.
(** The constants of ./constants that the punishment functions read. *)
Variables SELF_VOTE_PUNISH_TIME VOTER_PUNISH_TIME PUNISHMENT_PERIOD : Z.

(** [Math.max(...heights)] on a non-empty array. *)
Definition maxOf (first : Z) (rest : list Z) : Z := fold_left Z.max rest first.

Definition getMinPunishedHeight (senderAddress delegateAddress : Buffer)
    (pomHeights : list Z) : Z :=
  match pomHeights with
  | [] => 0
  | first :: rest =>
      let lastPomHeight := maxOf first rest in
      if Buf.equals senderAddress delegateAddress
      then lastPomHeight + SELF_VOTE_PUNISH_TIME
      else lastPomHeight + VOTER_PUNISH_TIME
  end.

Definition getPunishmentPeriod (senderAddress delegateAddress : Buffer)
    (pomHeights : list Z) (lastBlockHeight : Z) : Z :=
  let currentHeight := lastBlockHeight + 1 in
  let minPunishedHeight :=
    getMinPunishedHeight senderAddress delegateAddress pomHeights in
  let remainingBlocks := minPunishedHeight - currentHeight in
  if remainingBlocks <? 0 then 0 else remainingBlocks.

Definition isCurrentlyPunished (height : Z) (pomHeights : list Z) : bool :=
  match pomHeights with
  | [] => false
  | first :: rest =>
      let lastPomHeight := maxOf first rest in
      if height - lastPomHeight <? PUNISHMENT_PERIOD then true else false
  end.
End WithConstants.

(** *** Vocabulary of the properties *)

(** The order a comparator sorts by: [x] may stand before [y]. *)
Definition cmpLe {A} (cmp : A -> A -> Z) (x y : A) : Prop := cmp x y <= 0.

(** Ascending address, then descending unvote height, then descending
    amount. *)
Definition unlockingLe (a b : UnlockingObject) : Prop :=
  Buf.compare (delegateAddress a) (delegateAddress b) < 0
  \/ (delegateAddress a = delegateAddress b
      /\ (unvoteHeight b < unvoteHeight a
          \/ (unvoteHeight a = unvoteHeight b /\ amount b <= amount a))).

(** Ascending round hash, then ascending address. *)
Definition shuffleLe (a b : ShuffleEntry) : Prop :=
  Buf.compare (roundHash a) (roundHash b) < 0
  \/ (roundHash a = roundHash b
      /\ Buf.compare (se_address a) (se_address b) <= 0).

(** The sum of the weights of a list of entries. *)
Definition sumWeights (entries : list (Buffer * Z)) : Z :=
  foldr (fun entry sum => entry.2 + sum) 0 entries.

End DPoS.

(** ** More of the commit pool: collaborators that answer otherwise *)

Module CommitPoolModel.
Import CommitPool.

(** [env] with another answer of the BFT parameters lookup. *)
Definition withBFTParameters (env : Env)
    (answer : Z -> result BFT.BFTParameters) : Env :=
  mkEnv (getBFTHeights env) (getNextHeightBFTParameters env) answer
    (getValidatorAccount env) (getBlockHeaderByHeight env)
    (networkIdentifier env) (encodeCertificate env) (verifyWeightedAggSig env)
    (MESSAGE_TAG_CERTIFICATE env).

End CommitPoolModel.

(** * Properties *)

(** ** Running a bind *)

Lemma St_bind_run {S A B} (m : St S A) (f : A -> St S B) (s : S) :
  (m ≫= f) s =
    match m s with
    | (s', Ok a) => f a s'
    | (s', Throw e) => (s', Throw e)
    end.
Proof. reflexivity. Qed.

(** ** Buffer comparison is a total order on byte strings *)

Module BufFacts.

Lemma compare_refl (a : Buffer) : Buf.compare a a = 0.
Proof.
  induction a as [|x a IH]; simpl; [reflexivity|].
  rewrite Z.ltb_irrefl. exact IH.
Qed.

Lemma compare_eq (a b : Buffer) : Buf.compare a b = 0 -> a = b.
Proof.
  revert b. induction a as [|x a IH]; intros [|y b]; simpl; try discriminate.
  - reflexivity.
  - destruct (Z.ltb_spec x y); [discriminate|].
    destruct (Z.ltb_spec y x); [discriminate|].
    intros Hc. f_equal; [lia | auto].
Qed.

Lemma compare_antisym (a b : Buffer) : Buf.compare b a = - Buf.compare a b.
Proof.
  revert b. induction a as [|x a IH]; intros [|y b]; simpl; try reflexivity.
  destruct (Z.ltb_spec x y), (Z.ltb_spec y x); try lia; auto.
Qed.

Lemma compare_range (a b : Buffer) :
  Buf.compare a b = -1 \/ Buf.compare a b = 0 \/ Buf.compare a b = 1.
Proof.
  revert b. induction a as [|x a IH]; intros [|y b]; simpl; auto.
  destruct (x <? y); auto. destruct (y <? x); auto.
Qed.

Lemma compare_le_trans (a b c : Buffer) :
  Buf.compare a b <= 0 -> Buf.compare b c <= 0 -> Buf.compare a c <= 0.
Proof.
  revert b c. induction a as [|x a IH]; intros [|y b] [|z c]; simpl; try lia.
  destruct (Z.ltb_spec x y), (Z.ltb_spec y x), (Z.ltb_spec y z),
    (Z.ltb_spec z y), (Z.ltb_spec x z), (Z.ltb_spec z x); try lia.
  apply IH.
Qed.

Lemma equals_true (a b : Buffer) : Buf.equals a b = true <-> a = b.
Proof.
  unfold Buf.equals. rewrite Z.eqb_eq. split.
  - apply compare_eq.
  - intros ->. apply compare_refl.
Qed.

Lemma equals_sym (a b : Buffer) : Buf.equals a b = Buf.equals b a.
Proof.
  unfold Buf.equals. rewrite (compare_antisym a b).
  destruct (Z.eqb_spec (Buf.compare a b) 0) as [->|H]; [reflexivity|].
  symmetry. apply Z.eqb_neq. lia.
Qed.

End BufFacts.

(** ** The sort: a sorted rearrangement, fixed by the keys when they differ *)

Module SortFacts.
Section ByKey.
Context {A : Type} (key : A -> Buffer).

Abbreviation byKey := (JSArray.byKey key).
Abbreviation keyLe := (JSArray.keyLe key).

Lemma keyLe_trans : Transitive keyLe.
Proof. intros a b c. apply BufFacts.compare_le_trans. Qed.

Lemma insert_Permutation (x : A) (l : list A) :
  JSArray.insert byKey x l ≡ₚ x :: l.
Proof.
  induction l as [|y l IH]; simpl; [reflexivity|].
  destruct (byKey x y <=? 0); [reflexivity|].
  rewrite IH. apply perm_swap.
Qed.

Lemma sort_Permutation (l : list A) : JSArray.sort byKey l ≡ₚ l.
Proof.
  induction l as [|x l IH]; simpl; [reflexivity|].
  rewrite insert_Permutation. by rewrite IH.
Qed.

Lemma insert_Sorted (x : A) (l : list A) :
  Sorted keyLe l -> Sorted keyLe (JSArray.insert byKey x l).
Proof.
  induction l as [|y l IH]; intros Hs; simpl.
  - repeat constructor.
  - destruct (Z.leb_spec (byKey x y) 0) as [Hle|Hgt].
    + constructor; [exact Hs | constructor; exact Hle].
    + apply Sorted_inv in Hs as [Hs Hhd].
      constructor; [auto|].
      assert (Hyx : keyLe y x).
      { unfold JSArray.keyLe, JSArray.byKey in *.
        rewrite BufFacts.compare_antisym. lia. }
      destruct l as [|z l]; simpl.
      * constructor. exact Hyx.
      * destruct (byKey x z <=? 0); constructor; [exact Hyx|].
        by apply HdRel_inv in Hhd.
Qed.

Lemma sort_Sorted (l : list A) : Sorted keyLe (JSArray.sort byKey l).
Proof.
  induction l as [|x l IH]; simpl; [constructor|].
  by apply insert_Sorted.
Qed.

(** Two arrangements of the same elements sort to the same array when no
    two different elements share a key. *)
Lemma sort_canonical (l1 l2 : list A) :
  l1 ≡ₚ l2 ->
  (forall a b, a ∈ l1 -> b ∈ l1 -> key a = key b -> a = b) ->
  JSArray.sort byKey l1 = JSArray.sort byKey l2.
Proof.
  intros Hp Hinj. pose proof keyLe_trans as Htrans.
  apply (Sorted_unique_strong keyLe); try apply sort_Sorted.
  - intros a b Ha Hb Hab Hba.
    rewrite sort_Permutation in Ha.
    rewrite sort_Permutation, <- Hp in Hb.
    apply Hinj; try assumption.
    apply BufFacts.compare_eq.
    unfold JSArray.keyLe in *. rewrite BufFacts.compare_antisym in Hba. lia.
  - by rewrite !sort_Permutation.
Qed.

End ByKey.
End SortFacts.

(** ** The Merkle tree: what the width counts *)

Module MerkleTreeFacts.
Import MerkleTree.

Section WithHash.
Variable hash : Buffer -> Buffer.
Variables EMPTY_HASH LEAF_PREFIX BRANCH_PREFIX : Buffer.

Abbreviation getNode := (MerkleTree.getNode LEAF_PREFIX).
Abbreviation _generateLeaf := (MerkleTree._generateLeaf hash LEAF_PREFIX).
Abbreviation _generateNode := (MerkleTree._generateNode hash BRANCH_PREFIX).
Abbreviation build_leaves := (MerkleTree.build_leaves hash LEAF_PREFIX).
Abbreviation build_parents := (MerkleTree.build_parents hash BRANCH_PREFIX).
Abbreviation build_layers := (MerkleTree.build_layers hash BRANCH_PREFIX).
Abbreviation _build := (MerkleTree._build hash LEAF_PREFIX BRANCH_PREFIX).
Abbreviation new := (MerkleTree.new hash EMPTY_HASH LEAF_PREFIX BRANCH_PREFIX).
Abbreviation append := (MerkleTree.append hash LEAF_PREFIX BRANCH_PREFIX).
Abbreviation append_all := (MerkleTree.append_all hash LEAF_PREFIX BRANCH_PREFIX).

Lemma keepsWidth_bind {A B} (m : M A) (f : A -> M B) :
  keepsWidth m -> (forall a, keepsWidth (f a)) -> keepsWidth (m ≫= f).
Proof.
  intros Hm Hf s. unfold mbind, St_bind.
  specialize (Hm s). destruct (m s) as [s' [a|e]]; simpl in *.
  - rewrite Hf. exact Hm.
  - exact Hm.
Qed.

Lemma keepsWidth_ret {A} (a : A) : keepsWidth (mret a : M A).
Proof. intros s. reflexivity. Qed.

Lemma keepsWidth_throw {A} (e : Error) : keepsWidth (throw e : M A).
Proof. intros s. reflexivity. Qed.

Lemma keepsWidth_lift {A} (r : result A) : keepsWidth (lift r : M A).
Proof. intros s. reflexivity. Qed.

Lemma keepsWidth_gets {A} (f : State -> A) : keepsWidth (gets f).
Proof. intros s. reflexivity. Qed.

Lemma keepsWidth_store k v : keepsWidth (modify (store k v)).
Proof. intros s. reflexivity. Qed.

Lemma keepsWidth_set_root r : keepsWidth (modify (set_root r)).
Proof. intros s. reflexivity. Qed.

Create HintDb width.
#[local] Hint Resolve keepsWidth_ret keepsWidth_throw keepsWidth_lift
  keepsWidth_gets keepsWidth_store keepsWidth_set_root : width.

Ltac width_step :=
  repeat first
    [ apply keepsWidth_bind; [|intros ?]
    | progress auto with width
    | match goal with
      | |- keepsWidth (match ?x with _ => _ end) => destruct x
      | |- keepsWidth (if ?b then _ else _) => destruct b
      | |- keepsWidth (let '(_, _) := ?x in _) => destruct x
      end ].

Lemma getNode_keepsWidth h : keepsWidth (getNode h).
Proof. unfold MerkleTree.getNode. width_step. Qed.

Lemma _generateNode_keepsWidth l r li ni : keepsWidth (_generateNode l r li ni).
Proof. unfold MerkleTree._generateNode. width_step. Qed.

#[local] Hint Resolve getNode_keepsWidth _generateNode_keepsWidth : width.

Lemma build_parents_keepsWidth pairs layer i :
  keepsWidth (build_parents pairs layer i).
Proof.
  revert i. induction pairs as [|[l r] pairs IH]; intros i; simpl; width_step.
Qed.

#[local] Hint Resolve build_parents_keepsWidth : width.

Lemma build_layers_keepsWidth fuel nodes orphan layer :
  keepsWidth (build_layers fuel nodes orphan layer).
Proof.
  revert nodes orphan layer.
  induction fuel as [|fuel IH]; intros nodes orphan layer; simpl.
  - destruct (negb _); auto with width.
  - destruct (negb _); [auto with width|].
    destruct (_ =? _)%nat; [destruct orphan|]; width_step.
Qed.

Lemma append_descend_keepsWidth n i treeHeight node path :
  keepsWidth (append_descend LEAF_PREFIX n i treeHeight node path).
Proof.
  revert i node path. induction n as [|n IH]; intros i node path; simpl.
  - auto with width.
  - width_step.
Qed.

Lemma append_combine_keepsWidth n path :
  keepsWidth (append_combine hash LEAF_PREFIX BRANCH_PREFIX n path).
Proof.
  revert path. induction n as [|n IH]; intros path; simpl.
  - destruct (negb _); auto with width.
  - destruct (negb _); [auto with width|].
    destruct (JSArray.pop path) as [[path1 r]|]; [|auto with width].
    destruct (JSArray.pop path1) as [[path2 l]|]; [|auto with width].
    width_step.
Qed.

#[local] Hint Resolve build_layers_keepsWidth append_descend_keepsWidth
  append_combine_keepsWidth : width.

(** [_generateLeaf] always returns, and counts the leaf. *)
Lemma _generateLeaf_run value s :
  _generateLeaf value s =
    (mkState (_root s) (_width s + 1)
       (<[hash (LEAF_PREFIX ++ value) := LEAF_PREFIX ++ value]> (_hashToBuffer s)),
     Ok (mkNodeData (LEAF_PREFIX ++ value) (hash (LEAF_PREFIX ++ value)))).
Proof. reflexivity. Qed.

Lemma build_leaves_run values s :
  exists m hs,
    build_leaves values s =
      (mkState (_root s) (_width s + Z.of_nat (length values)) m, Ok hs)
    /\ length hs = length values.
Proof.
  revert s. induction values as [|v values IH]; intros s.
  - exists (_hashToBuffer s), []. simpl. unfold mret, St_ret.
    destruct s; simpl. rewrite Z.add_0_r. auto.
  - simpl. unfold mbind, St_bind at 1. rewrite _generateLeaf_run.
    unfold mbind, St_bind at 1. simpl.
    unfold mbind, St_bind at 1.
    match goal with |- context [build_leaves values ?s'] =>
      destruct (IH s') as (m & hs & -> & Hlen) end.
    simpl. exists m, (hash (LEAF_PREFIX ++ v) :: hs).
    split; [|simpl; rewrite Hlen; reflexivity].
    unfold mret, St_ret. do 2 f_equal. lia.
Qed.

Lemma _build_width (initValues : list Buffer) (s : State) :
  _width (_build initValues s).1 = _width s + Z.of_nat (length initValues).
Proof.
  unfold MerkleTree._build. rewrite St_bind_run.
  destruct (build_leaves_run initValues s) as (m & hs & -> & Hlen).
  match goal with |- _width (?k ?s').1 = _ =>
    assert (Hk : keepsWidth k); [|rewrite (Hk s'); reflexivity] end.
  width_step.
Qed.

Lemma new_width (initValues : list Buffer) :
  _width (new initValues).1 = 2 * Z.of_nat (length initValues).
Proof.
  unfold MerkleTree.new, constructor.
  rewrite St_bind_run. cbn [modify set_width blank _root _width _hashToBuffer].
  rewrite St_bind_run. cbn [gets _width].
  change (_width (set_width (Z.of_nat (length initValues)) blank))
    with (Z.of_nat (length initValues)).
  destruct (Z.eqb_spec (Z.of_nat (length initValues)) 0) as [H0|Hn].
  - cbn. lia.
  - rewrite St_bind_run.
    match goal with |- context [_build initValues ?s'] =>
      pose proof (_build_width initValues s') as Hw;
      destruct (_build initValues s') as [s'' [r|e]] end;
      cbn in *; lia.
Qed.

Lemma append_width (value : Buffer) (s : State) :
  _width (append value s).1 = _width s + 1.
Proof.
  unfold MerkleTree.append. rewrite St_bind_run, _generateLeaf_run.
  match goal with |- _width (?m ?s').1 = _ =>
    assert (Hk : keepsWidth m); [|rewrite (Hk s'); reflexivity] end.
  unfold MerkleTree._getHeight. width_step.
Qed.

(** *** The loops of the model run to their end *)

Lemma withinBound_bind {A B} (m : M A) (f : A -> M B) :
  withinBound m -> (forall a, withinBound (f a)) -> withinBound (m ≫= f).
Proof.
  intros Hm Hf s. rewrite St_bind_run.
  specialize (Hm s). destruct (m s) as [s' [a|e]]; [apply Hf|].
  cbn in *. congruence.
Qed.

Lemma withinBound_ret {A} (a : A) : withinBound (mret a : M A).
Proof. intros s. discriminate. Qed.

Lemma withinBound_gets {A} (f : State -> A) : withinBound (gets f).
Proof. intros s. discriminate. Qed.

Lemma withinBound_modify (f : State -> State) : withinBound (modify f).
Proof. intros s. discriminate. Qed.

Lemma withinBound_throw {A} (e : Error) :
  e <> LoopBound -> withinBound (throw e : M A).
Proof. intros He s. cbn. congruence. Qed.

Lemma withinBound_lift {A} (r : result A) :
  r <> Throw LoopBound -> withinBound (lift r : M A).
Proof. intros Hr s. exact Hr. Qed.

Lemma readInt8_not_LoopBound b o : Buf.readInt8 b o <> Throw LoopBound.
Proof. unfold Buf.readInt8. destruct (b !! o); discriminate. Qed.

Lemma readBigInt64BE_not_LoopBound b o :
  Buf.readBigInt64BE b o <> Throw LoopBound.
Proof. unfold Buf.readBigInt64BE. destruct (_ <? _)%nat; discriminate. Qed.

Lemma writeInt8_not_LoopBound v : Buf.writeInt8 v <> Throw LoopBound.
Proof. unfold Buf.writeInt8. destruct (_ || _); discriminate. Qed.

Lemma writeBigInt64BE_not_LoopBound v : Buf.writeBigInt64BE v <> Throw LoopBound.
Proof. unfold Buf.writeBigInt64BE. destruct (_ || _); discriminate. Qed.

Create HintDb bound.
#[local] Hint Resolve withinBound_ret withinBound_gets withinBound_modify
  readInt8_not_LoopBound readBigInt64BE_not_LoopBound writeInt8_not_LoopBound
  writeBigInt64BE_not_LoopBound : bound.

Ltac bound_step :=
  repeat first
    [ apply withinBound_bind; [|intros ?]
    | apply withinBound_throw; discriminate
    | apply withinBound_lift; first [discriminate | solve [auto with bound]]
    | progress auto with bound
    | match goal with
      | |- withinBound (match ?x with _ => _ end) => destruct x
      | |- withinBound (if ?b then _ else _) => destruct b
      | |- withinBound (lift (if ?b then _ else _)) => destruct b
      end ].

Lemma getNode_withinBound h : withinBound (getNode h).
Proof. unfold MerkleTree.getNode. bound_step. Qed.

Lemma _generateNode_withinBound l r li ni :
  withinBound (_generateNode l r li ni).
Proof. unfold MerkleTree._generateNode. bound_step. Qed.

Lemma _generateLeaf_withinBound v : withinBound (_generateLeaf v).
Proof. intros s. rewrite _generateLeaf_run. discriminate. Qed.

#[local] Hint Resolve getNode_withinBound _generateNode_withinBound
  _generateLeaf_withinBound : bound.

Lemma build_parents_withinBound pairs layer i :
  withinBound (build_parents pairs layer i).
Proof.
  revert i. induction pairs as [|[l r] pairs IH]; intros i; simpl; bound_step.
Qed.

Lemma build_parents_length pairs layer i s s' hs :
  build_parents pairs layer i s = (s', Ok hs) -> length hs = length pairs.
Proof.
  revert i s s' hs.
  induction pairs as [|[l r] pairs IH]; intros i s s' hs; simpl.
  - by intros [= _ <-].
  - rewrite St_bind_run.
    destruct (_generateNode l r layer i s) as [s1 [node|e]]; [|discriminate].
    rewrite St_bind_run. cbn [modify]. rewrite St_bind_run.
    destruct (build_parents pairs layer (i + 1) _) as [s2 [hs2|e]] eqn:Hrec;
      [|discriminate].
    intros [= _ <-]. simpl. f_equal. by eapply IH.
Qed.

Lemma make_pairs_length (nodes : list Buffer) :
  length (make_pairs nodes) = Nat.div2 (length nodes).
Proof.
  assert (H : forall n (l : list Buffer), (length l <= n)%nat ->
                length (make_pairs l) = Nat.div2 (length l)).
  { induction n as [|n IH]; intros [|a [|b l]] Hl; simpl in *;
      try reflexivity; try lia.
    f_equal. apply IH. lia. }
  by apply (H (length nodes)).
Qed.

Lemma odd_length_div2 (n : nat) :
  (n mod 2 =? 1)%nat = true -> n = S (2 * Nat.div2 n).
Proof.
  intros H%Nat.eqb_eq. pose proof (Nat.div2_odd n) as Hn.
  rewrite <- Nat.bit0_mod in H.
  destruct (Nat.odd n) eqn:Ho; [simpl in Hn; lia|].
  rewrite <- Nat.bit0_odd in Ho. by rewrite Ho in H.
Qed.

Lemma even_length_div2 (n : nat) :
  (n mod 2 =? 1)%nat = false -> n = (2 * Nat.div2 n)%nat.
Proof.
  intros H%Nat.eqb_neq. pose proof (Nat.div2_odd n) as Hn.
  rewrite <- Nat.bit0_mod in H.
  destruct (Nat.odd n) eqn:Ho; [|simpl in Hn; lia].
  rewrite <- Nat.bit0_odd in Ho. by rewrite Ho in H.
Qed.

(** The number of nodes of a layer plus the pending orphan goes down with
    every round, and a layer is never empty. *)
Lemma build_layers_withinBound (fuel : nat) (nodes : list Buffer)
    (orphan : option Buffer) (layer : Z) :
  (1 <= length nodes)%nat ->
  (length nodes + match orphan with Some _ => 1 | None => 0 end <= fuel)%nat ->
  withinBound (build_layers fuel nodes orphan layer).
Proof.
  revert nodes orphan layer.
  induction fuel as [|fuel IH]; intros nodes orphan layer Hne Hfuel.
  - lia.
  - cbn [MerkleTree.build_layers].
    destruct (negb _) eqn:Hcond; [auto with bound|].
    apply negb_false_iff in Hcond.
    pose proof (make_pairs_length nodes) as Hpairs.
    assert (Hstep : forall pairs (orphan' : option Buffer),
      (1 <= length pairs)%nat ->
      (length pairs + match orphan' with Some _ => 1 | None => 0 end <= fuel)%nat ->
      withinBound
        (build_parents pairs layer 0
           ≫= (fun parents => build_layers fuel parents orphan' (layer + 1)))).
    { intros pairs orphan' H1 H2 s. rewrite St_bind_run.
      destruct (build_parents pairs layer 0 s) as [s1 [parents|e]] eqn:Hp.
      - apply build_parents_length in Hp. apply IH; lia.
      - pose proof (build_parents_withinBound pairs layer 0 s) as Hb.
        by rewrite Hp in Hb. }
    destruct (length nodes mod 2 =? 1)%nat eqn:Hodd.
    + apply odd_length_div2 in Hodd.
      destruct orphan as [o|].
      * apply Hstep; rewrite length_app, Hpairs; simpl; lia.
      * assert (1 < length nodes)%nat.
        { apply orb_true_iff in Hcond as [Hc|Hc].
          - by apply Nat.ltb_lt in Hc.
          - apply bool_decide_eq_true in Hc. by destruct Hc. }
        apply Hstep; rewrite Hpairs; [lia|].
        destruct (last nodes); lia.
    + apply even_length_div2 in Hodd.
      apply Hstep; rewrite Hpairs; [lia|]. destruct orphan; lia.
Qed.

Lemma build_leaves_withinBound values : withinBound (build_leaves values).
Proof.
  intros s. destruct (build_leaves_run values s) as (m & hs & -> & _).
  discriminate.
Qed.

Lemma _build_withinBound (initValues : list Buffer) :
  initValues <> [] -> withinBound (_build initValues).
Proof.
  intros Hne s. unfold MerkleTree._build. rewrite St_bind_run.
  destruct (build_leaves_run initValues s) as (m & hs & -> & Hlen).
  assert (1 <= length hs)%nat.
  { rewrite Hlen. destruct initValues; [done|simpl; lia]. }
  revert m. intros m.
  match goal with |- (?k ?s').2 <> _ =>
    assert (Hk : withinBound k); [|exact (Hk s')] end.
  apply withinBound_bind.
  - apply build_layers_withinBound; lia.
  - intros [|x nodes]; bound_step.
Qed.

(** The constructor never stops on the bound of the model. *)
Lemma new_withinBound (initValues : list Buffer) :
  (new initValues).2 <> Throw LoopBound.
Proof.
  unfold MerkleTree.new, constructor.
  rewrite St_bind_run. cbn [modify]. rewrite St_bind_run. cbn [gets].
  change (_width (set_width (Z.of_nat (length initValues)) blank))
    with (Z.of_nat (length initValues)).
  destruct (Z.eqb_spec (Z.of_nat (length initValues)) 0) as [H0|Hn].
  - discriminate.
  - match goal with |- (?k ?s').2 <> _ =>
      assert (Hk : withinBound k); [|exact (Hk s')] end.
    apply withinBound_bind; [|bound_step].
    apply _build_withinBound. by destruct initValues.
Qed.

Lemma pop_length {A} (l l' : list A) (x : A) :
  JSArray.pop l = Some (l', x) -> length l = S (length l').
Proof.
  unfold JSArray.pop. destruct (reverse l) as [|y r] eqn:Hr; [discriminate|].
  intros [= <- <-]. rewrite <- (length_reverse l), Hr. simpl.
  by rewrite length_reverse.
Qed.

Lemma append_descend_withinBound n i treeHeight node path :
  withinBound (append_descend LEAF_PREFIX n i treeHeight node path).
Proof.
  revert i node path. induction n as [|n IH]; intros i node path; simpl;
    bound_step.
Qed.

Lemma append_combine_withinBound n path :
  (length path <= n)%nat ->
  withinBound (append_combine hash LEAF_PREFIX BRANCH_PREFIX n path).
Proof.
  revert path. induction n as [|n IH]; intros path Hlen.
  - cbn [MerkleTree.append_combine].
    destruct (negb _) eqn:Hc; [auto with bound|].
    apply negb_false_iff, Nat.ltb_lt in Hc. lia.
  - cbn [MerkleTree.append_combine].
    destruct (negb _); [auto with bound|].
    destruct (JSArray.pop path) as [[path1 r]|] eqn:Hp1; [|bound_step].
    destruct (JSArray.pop path1) as [[path2 l]|] eqn:Hp2; [|bound_step].
    apply pop_length in Hp1, Hp2.
    bound_step. apply IH. rewrite length_app. simpl. lia.
Qed.

(** [append] never stops on the bound of the model. *)
Lemma append_withinBound (value : Buffer) : withinBound (append value).
Proof.
  unfold MerkleTree.append, MerkleTree._getHeight.
  bound_step; try apply append_descend_withinBound.
  apply append_combine_withinBound. lia.
Qed.

Lemma new_empty : new [] = (mkState EMPTY_HASH 0 ∅, Ok tt).
Proof. reflexivity. Qed.

Lemma new_single (x : Buffer) :
  new [x] =
    (mkState (hash (LEAF_PREFIX ++ x)) 2
       (<[hash (LEAF_PREFIX ++ x) := LEAF_PREFIX ++ x]>
          (<[hash (LEAF_PREFIX ++ x) := LEAF_PREFIX ++ x]> ∅)),
     Ok tt).
Proof. reflexivity. Qed.

(** On the empty tree the root is not a stored node, so looking it up
    fails: [append] throws after it has stored and counted the leaf. *)
Lemma append_empty_throws (x : Buffer) :
  hash (LEAF_PREFIX ++ x) <> EMPTY_HASH ->
  exists s e, append x (mkState EMPTY_HASH 0 ∅) = (s, Throw e)
              /\ _root s = EMPTY_HASH /\ _width s = 1.
Proof.
  intros Hne. unfold MerkleTree.append.
  rewrite St_bind_run, _generateLeaf_run. cbn [_root _width _hashToBuffer nd_hash].
  rewrite St_bind_run.
  destruct (getNode (hash (LEAF_PREFIX ++ x)) _) as [s1 [n|e]] eqn:Hget.
  - pose proof (f_equal fst Hget) as Hs1. cbn [fst] in Hs1.
    assert (Hst : forall h s, (getNode h s).1 = s).
    { intros h s. unfold MerkleTree.getNode. rewrite St_bind_run. cbn [gets].
      destruct (_hashToBuffer s !! h); [|reflexivity].
      rewrite St_bind_run. cbn [gets].
      rewrite St_bind_run. unfold lift at 1.
      destruct (if decide _ then _ else _); [|reflexivity].
      rewrite St_bind_run. unfold lift at 1.
      destruct (if decide _ then _ else _); reflexivity. }
    rewrite Hst in Hs1. subst s1.
    rewrite St_bind_run. cbn [gets _root].
    rewrite St_bind_run. unfold MerkleTree.getNode at 1.
    rewrite St_bind_run. cbn [gets _hashToBuffer].
    rewrite lookup_insert_ne by exact Hne. rewrite lookup_empty.
    eexists _, _. split; [reflexivity|]. split; reflexivity.
  - pose proof (getNode_keepsWidth (hash (LEAF_PREFIX ++ x))) as Hw.
    eexists s1, e. split; [reflexivity|].
    assert (Hst : s1 = (getNode (hash (LEAF_PREFIX ++ x))
              (mkState EMPTY_HASH (0 + 1)
                 (<[hash (LEAF_PREFIX ++ x) := LEAF_PREFIX ++ x]> ∅))).1)
      by (rewrite Hget; reflexivity).
    revert Hst. unfold MerkleTree.getNode. rewrite St_bind_run. cbn [gets].
    cbn [_hashToBuffer]. rewrite lookup_insert_eq.
    rewrite St_bind_run. cbn [gets].
    rewrite St_bind_run. unfold lift at 1.
    destruct (if decide _ then _ else _); [|intros ->; split; reflexivity].
    rewrite St_bind_run. unfold lift at 1.
    destruct (if decide _ then _ else _); intros ->; split; reflexivity.
Qed.

(** C1. Building in one batch and appending leaf by leaf do not agree on
    this code: the batch build of a single leaf returns its root, while the
    first [append] on the empty tree throws, for every leaf whose hash is not
    EMPTY_HASH, so the fold of [append] over a non-empty sequence never
    reaches a root. *)
Theorem append_fold_from_empty_throws (x : Buffer) (rest : list Buffer) :
  hash (LEAF_PREFIX ++ x) <> EMPTY_HASH ->
  (exists s e, append_all (x :: rest) (new []).1 = (s, Throw e))
  /\ (new (x :: [])).2 = Ok tt
  /\ _root (new (x :: [])).1 = hash (LEAF_PREFIX ++ x).
Proof.
  intros Hne. split; [|split; reflexivity].
  rewrite new_empty. cbn [fst MerkleTree.append_all]. rewrite St_bind_run.
  destruct (append_empty_throws x Hne) as (s & e & -> & _).
  by exists s, e.
Qed.

(** C5. The width is not the number of leaves after a batch build: the
    constructor sets it to the number of leaves and [_build] counts every
    leaf once more, so it ends at twice that number; a single leaf gives a
    tree of width 2. Every [append] adds exactly one, whether it returns or
    throws. *)
Theorem width_after_new_and_append :
  (forall initValues : list Buffer,
     _width (new initValues).1 = 2 * Z.of_nat (length initValues))
  /\ (forall x : Buffer, (new [x]).2 = Ok tt /\ _width (new [x]).1 = 2)
  /\ (new []).1 = mkState EMPTY_HASH 0 ∅
  /\ (forall (value : Buffer) (s : State),
        _width (append value s).1 = _width s + 1).
Proof.
  split; [exact new_width|]. split; [intros x; split; reflexivity|].
  split; [reflexivity|]. exact append_width.
Qed.

(** *** The example of the specification: a, b, c and then d *)

Lemma slice_last_hash (p l r : Buffer) :
  length r = 32%nat -> Buf.slice_from (p ++ l ++ r) (-1 * NODE_HASH_SIZE) = r.
Proof.
  intros Hr. unfold Buf.slice_from, Buf.slice, Buf.clamp, NODE_HASH_SIZE.
  rewrite !length_app, Hr.
  destruct (Z.ltb_spec (-1 * 32) 0); [|lia].
  destruct (Z.ltb_spec (Z.of_nat (length p + (length l + 32))) 0); [lia|].
  rewrite Z.min_id, Z.max_l by lia.
  replace (Z.to_nat (Z.of_nat (length p + (length l + 32)) + -1 * 32))
    with (length (p ++ l)) by (rewrite length_app; lia).
  rewrite (assoc_L (++) p l r), drop_app_length. apply take_ge. lia.
Qed.

Lemma slice_first_hash (p l r : Buffer) :
  length l = 32%nat -> length r = 32%nat ->
  Buf.slice (p ++ l ++ r) (-2 * NODE_HASH_SIZE) (-1 * NODE_HASH_SIZE) = l.
Proof.
  intros Hl Hr. unfold Buf.slice, Buf.clamp, NODE_HASH_SIZE.
  rewrite !length_app, Hl, Hr.
  destruct (Z.ltb_spec (-2 * 32) 0); [|lia].
  destruct (Z.ltb_spec (-1 * 32) 0); [|lia].
  rewrite !Z.max_l by lia.
  replace (Z.to_nat (Z.of_nat (length p + (32 + 32)) + -2 * 32))
    with (length p) by lia.
  rewrite drop_app_length.
  replace (Z.to_nat _) with (length l) by lia.
  apply take_app_length.
Qed.

(** [getNode] on a stored hash, with the reads written out. *)
Lemma getNode_run (h value : Buffer) (s : State) :
  _hashToBuffer s !! h = Some value ->
  getNode h s =
    let type :=
      if Buf.compare (_root s) h =? 0 then ROOT
      else if isLeaf LEAF_PREFIX value then LEAF else BRANCH in
    match (if decide (type = BRANCH) then Buf.readInt8 value 0 else Ok 0) with
    | Throw e => (s, Throw e)
    | Ok layerIndex =>
        match (if decide (type = BRANCH)
               then Buf.readBigInt64BE value (Z.to_nat LAYER_INDEX_SIZE)
               else Ok 0) with
        | Throw e => (s, Throw e)
        | Ok nodeIndex =>
            (s, Ok (mkNodeInfo type h value
                      (if decide (type = LEAF) then []
                       else Buf.slice value (-2 * NODE_HASH_SIZE)
                              (-1 * NODE_HASH_SIZE))
                      (if decide (type = LEAF) then []
                       else Buf.slice_from value (-1 * NODE_HASH_SIZE))
                      layerIndex nodeIndex))
        end
    end.
Proof.
  intros Hlook. unfold MerkleTree.getNode.
  rewrite St_bind_run. cbn [gets]. rewrite Hlook.
  rewrite St_bind_run. cbn [gets]. cbv zeta.
  rewrite St_bind_run. unfold lift at 1.
  destruct (if decide _ then Buf.readInt8 value 0 else Ok 0); [|reflexivity].
  rewrite St_bind_run. unfold lift at 1.
  destruct (if decide _ then Buf.readBigInt64BE _ _ else Ok 0); reflexivity.
Qed.

(** The descent makes at most one round: an object is truthy, so the test
    of [currentNode.rightHash] always leaves the loop. *)
Lemma append_descend_once (n : nat) (i treeHeight : Z) (node : NodeInfo)
    (path : list NodeInfo) (s : State) :
  append_descend LEAF_PREFIX (S n) i treeHeight node path s =
    let path1 :=
      if isAppendPath (_width s - 1) (treeHeight - i)
      then path ++ [node] else path in
    if isLeaf LEAF_PREFIX (ni_hash node) then (s, Ok path1)
    else if isAppendPath (_width s - 1) (treeHeight - i - 1)
    then match getNode (ni_leftHash node) s with
         | (s', Ok l) => (s', Ok (path1 ++ [l]))
         | (s', Throw e) => (s', Throw e)
         end
    else (s, Ok path1).
Proof.
  cbn [MerkleTree.append_descend]. rewrite St_bind_run. cbn [gets]. cbv zeta.
  destruct (isLeaf LEAF_PREFIX (ni_hash node)); [reflexivity|].
  rewrite St_bind_run.
  destruct (isAppendPath (_width s - 1) (treeHeight - i - 1)).
  - rewrite St_bind_run.
    destruct (getNode (ni_leftHash node) s) as [s' [l|e]]; reflexivity.
  - reflexivity.
Qed.

Lemma _generateNode_run (l r : Buffer) (layerIndex nodeIndex : Z) (s : State) :
  -128 <= layerIndex <= 127 ->
  - 2 ^ 63 <= nodeIndex <= 2 ^ 63 - 1 ->
  _generateNode l r layerIndex nodeIndex s =
    let value :=
      BRANCH_PREFIX ++ [layerIndex mod 256]
        ++ Buf.be_bytes 8 (nodeIndex mod 2 ^ 64) ++ l ++ r in
    (store (hash (BRANCH_PREFIX ++ l ++ r)) value s,
     Ok (mkNodeData value (hash (BRANCH_PREFIX ++ l ++ r)))).
Proof.
  intros Hl Hn. unfold MerkleTree._generateNode, Buf.writeInt8,
    Buf.writeBigInt64BE.
  destruct (Z.ltb_spec layerIndex (-128)); [lia|].
  destruct (Z.ltb_spec 127 layerIndex); [lia|].
  destruct (Z.ltb_spec nodeIndex (- 2 ^ 63)); [lia|].
  destruct (Z.ltb_spec (2 ^ 63 - 1) nodeIndex); [lia|].
  reflexivity.
Qed.

Lemma append_combine_single (n : nat) (x : NodeInfo) (s : State) :
  append_combine hash LEAF_PREFIX BRANCH_PREFIX n [x] s = (s, Ok [x]).
Proof. destruct n; reflexivity. Qed.

Lemma append_combine_pair (n : nat) (l r : NodeInfo) (s : State) :
  append_combine hash LEAF_PREFIX BRANCH_PREFIX (S n) [l; r] s =
    (newNode ← _generateNode (ni_hash l) (ni_hash r)
                 (ni_layerIndex l + 1) (ni_nodeIndex l + 1);
     _ ← modify (store (nd_hash newNode) (nd_value newNode));
     node ← getNode (nd_hash newNode);
     append_combine hash LEAF_PREFIX BRANCH_PREFIX n [node]) s.
Proof. reflexivity. Qed.

End WithHash.

Section SpecExample.
Variable hash : Buffer -> Buffer.
Variable EMPTY_HASH : Buffer.
Hypothesis hash_length : forall b, length (hash b) = 32%nat.
Variables a b c d : Buffer.

Abbreviation leaf x := (hash (0 :: x)).
Abbreviation branch l r := (hash (1 :: l ++ r)).
Abbreviation new := (MerkleTree.new hash EMPTY_HASH [0] [1]).
Abbreviation append := (MerkleTree.append hash [0] [1]).

Abbreviation hab := (branch (leaf a) (leaf b)).
Abbreviation habc := (branch hab (leaf c)).
Abbreviation valueOf l r layer :=
  ([1] ++ [layer] ++ Buf.be_bytes 8 0 ++ l ++ r).

(** The arena after the batch build of a, b, c. *)
Abbreviation arena3 :=
  (<[habc := valueOf hab (leaf c) 1]> (<[habc := valueOf hab (leaf c) 1]>
   (<[hab := valueOf (leaf a) (leaf b) 0]>
   (<[hab := valueOf (leaf a) (leaf b) 0]>
   (<[leaf c := 0 :: c]> (<[leaf c := 0 :: c]>
   (<[leaf b := 0 :: b]> (<[leaf b := 0 :: b]>
   (<[leaf a := 0 :: a]> (<[leaf a := 0 :: a]>
   (∅ : gmap (list Z) (list Z)))))))))))).

Lemma example_new3 : new [a; b; c] = (mkState habc 6 arena3, Ok tt).
Proof. reflexivity. Qed.

Lemma example_new4_root :
  _root (new [a; b; c; d]).1
  = branch (branch (leaf a) (leaf b)) (branch (leaf c) (leaf d))
  /\ (new [a; b; c; d]).2 = Ok tt.
Proof. split; reflexivity. Qed.

Lemma slice_first_byte (x : Z) (v : Buffer) : Buf.slice (x :: v) 0 1 = [x].
Proof.
  unfold Buf.slice, Buf.clamp. cbn [Z.ltb Z.compare].
  rewrite !Z.min_l by (cbn [length]; lia). reflexivity.
Qed.

Lemma isLeaf_leaf_value (v : Buffer) : isLeaf [0] ([0] ++ v) = true.
Proof. unfold isLeaf. cbn [app]. rewrite slice_first_byte. reflexivity. Qed.

Lemma isLeaf_branch_value (v : Buffer) : isLeaf [0] ([1] ++ v) = false.
Proof. unfold isLeaf. cbn [app]. rewrite slice_first_byte. reflexivity. Qed.

(** A stored value that is a leaf, or long enough for the reads of a
    branch, gives a node with that hash and value. *)
Lemma getNode_Ok (h value : Buffer) (s : State) :
  _hashToBuffer s !! h = Some value ->
  isLeaf [0] value = true \/ (9 <= length value)%nat ->
  exists info, MerkleTree.getNode [0] h s = (s, Ok info)
               /\ ni_hash info = h /\ ni_value info = value.
Proof.
  intros Hlook Hv. rewrite (getNode_run _ _ _ _ Hlook). cbv zeta.
  destruct (Buf.compare (_root s) h =? 0).
  { destruct (decide (ROOT = BRANCH)); [discriminate|]. by eexists. }
  destruct (isLeaf [0] value) eqn:Hleaf.
  { destruct (decide (LEAF = BRANCH)); [discriminate|]. by eexists. }
  destruct Hv as [Hv|Hv]; [discriminate|].
  destruct (decide (BRANCH = BRANCH)); [|done].
  unfold Buf.readInt8, Buf.readBigInt64BE.
  destruct value as [|x value]; [simpl in Hv; lia|]. cbn [lookup list_lookup].
  destruct (Nat.ltb_spec (length (x :: value)) (Z.to_nat LAYER_INDEX_SIZE + 8));
    [unfold LAYER_INDEX_SIZE in *; simpl in *; lia|].
  by eexists.
Qed.

Lemma valueOf_length (l r : Buffer) (layer : Z) :
  length (valueOf l r layer) = (10 + (length l + length r))%nat.
Proof. cbn. by rewrite length_app. Qed.

(** After the batch build of a, b, c the append of d returns the branch over
    the subtree of a and b and the new leaf, or the new leaf alone when the
    root hash starts with the leaf prefix. *)
Lemma example_append :
  leaf d <> habc -> leaf d <> hab -> hab <> habc ->
  (append d (new [a; b; c]).1).2
  = Ok (if isLeaf [0] habc then leaf d else branch hab (leaf d)).
Proof.
  intros Hd1 Hd2 Hab. rewrite example_new3. cbn [fst].
  unfold MerkleTree.append.
  rewrite St_bind_run, _generateLeaf_run.
  cbn [_root _width _hashToBuffer nd_hash].
  change ([0] ++ d) with (0 :: d).
  set (t1 := mkState habc (6 + 1) (<[leaf d := 0 :: d]> arena3)).
  assert (Hld : _hashToBuffer t1 !! leaf d = Some (0 :: d))
    by apply lookup_insert_eq.
  assert (Hlr : _hashToBuffer t1 !! habc = Some (valueOf hab (leaf c) 1)).
  { cbn [t1 _hashToBuffer]. rewrite lookup_insert_ne by exact Hd1.
    apply lookup_insert_eq. }
  assert (Hlab : _hashToBuffer t1 !! hab = Some (valueOf (leaf a) (leaf b) 0)).
  { cbn [t1 _hashToBuffer]. rewrite lookup_insert_ne by exact Hd2.
    rewrite !lookup_insert_ne by exact (not_eq_sym Hab).
    apply lookup_insert_eq. }
  destruct (getNode_Ok _ _ _ Hld) as (nd & Hnd & Hndh & _);
    [left; apply (isLeaf_leaf_value d)|].
  rewrite St_bind_run, Hnd. rewrite St_bind_run. cbn [gets].
  rewrite St_bind_run. rewrite (getNode_run _ _ _ _ Hlr). cbv zeta.
  change (_root t1) with habc. rewrite BufFacts.compare_refl. cbn [Z.eqb].
  destruct (decide (ROOT = BRANCH)); [discriminate|].
  destruct (decide (ROOT = LEAF)); [discriminate|].
  change (valueOf hab (leaf c) 1)
    with (([1; 1] ++ Buf.be_bytes 8 0) ++ hab ++ leaf c).
  rewrite slice_first_hash, slice_last_hash by apply hash_length.
  rewrite St_bind_run.
  change (MerkleTree._getHeight t1) with (t1, Ok 4). cbv beta iota.
  rewrite St_bind_run. change (Z.to_nat 4) with 4%nat.
  rewrite append_descend_once. cbv zeta. cbn [ni_hash ni_leftHash].
  change (isAppendPath (_width t1 - 1) (4 - 0)) with false.
  change (isAppendPath (_width t1 - 1) (4 - 0 - 1)) with true.
  cbn [app].
  destruct (isLeaf [0] habc).
  - rewrite St_bind_run, Hndh, Hnd. cbn [app length].
    rewrite St_bind_run, append_combine_single.
    cbn. by rewrite Hndh.
  - rewrite (getNode_run _ _ _ _ Hlab). cbv zeta.
    change (_root t1) with habc.
    destruct (Z.eqb_spec (Buf.compare habc hab) 0) as [Heq|_].
    { apply BufFacts.compare_eq in Heq. congruence. }
    rewrite (isLeaf_branch_value (_ ++ _)).
    destruct (decide (BRANCH = BRANCH)); [|done].
    destruct (decide (BRANCH = LEAF)); [discriminate|].
    change (Buf.readInt8 (valueOf (leaf a) (leaf b) 0) 0) with (Ok 1 : result Z).
    change (Buf.readBigInt64BE (valueOf (leaf a) (leaf b) 0)
              (Z.to_nat LAYER_INDEX_SIZE)) with (Ok 0 : result Z).
    cbv beta iota.
    rewrite St_bind_run, Hndh, Hnd. cbn [app length].
    rewrite St_bind_run, append_combine_pair.
    rewrite St_bind_run. cbn [ni_hash ni_layerIndex ni_nodeIndex].
    rewrite _generateNode_run by lia. cbv zeta beta iota.
    rewrite St_bind_run. cbn [modify nd_hash nd_value].
    rewrite St_bind_run.
    match goal with |- context [MerkleTree.getNode [0] ?h (store ?k ?v ?s)] =>
      destruct (getNode_Ok h v (store k v s)) as (node & -> & Hnode & _)
    end.
    { cbn [store _hashToBuffer]. by rewrite lookup_insert_eq. }
    { right. rewrite !length_app. cbn [length Buf.be_bytes]. lia. }
    rewrite append_combine_single. cbn. rewrite Hnode, Hndh. reflexivity.
Qed.

(** With no collision among the hashes involved, the root after the append
    is not the root of the batch build of a, b, c, d. *)
Lemma example_append_differs :
  leaf d <> habc -> leaf d <> hab -> hab <> habc ->
  branch hab (leaf d) <> branch hab (branch (leaf c) (leaf d)) ->
  leaf d <> branch hab (branch (leaf c) (leaf d)) ->
  exists r, (append d (new [a; b; c]).1).2 = Ok r
            /\ r <> _root (new [a; b; c; d]).1.
Proof.
  intros Hd1 Hd2 Hab Hc1 Hc2. eexists. split; [by apply example_append|].
  rewrite (proj1 example_new4_root). by destruct (isLeaf [0] habc).
Qed.

End SpecExample.

Section WithHash.
Variable hash : Buffer -> Buffer.
Variables EMPTY_HASH LEAF_PREFIX BRANCH_PREFIX : Buffer.

End WithHash.
End MerkleTreeFacts.

(** The example of the specification, leaves a, b, c and then d, on the
    sample hash: [append] returns, and its root is the branch over the
    subtree of a and b and the new leaf, not the root of the batch build. *)
Lemma sample_append_differs_from_batch :
  let t3 := (Samples.new [[97]; [98]; [99]]).1 in
  let t4 := (Samples.new [[97]; [98]; [99]; [100]]).1 in
  let appended := Samples.append [100] t3 in
  let h x := Samples.sampleHash (Samples.LEAF_PREFIX ++ [x]) in
  let branch l r := Samples.sampleHash (Samples.BRANCH_PREFIX ++ l ++ r) in
  appended.2 = Ok (branch (branch (h 97) (h 98)) (h 100))
  /\ MerkleTree._root t4 =
       branch (branch (h 97) (h 98)) (branch (h 99) (h 100))
  /\ MerkleTree._root appended.1 <> MerkleTree._root t4.
Proof. vm_compute. repeat split; discriminate. Qed.

Lemma append_fold_from_empty_throws_witness :
  Samples.sampleHash (Samples.LEAF_PREFIX ++ [97]) <> Samples.EMPTY_HASH
  /\ (exists s e, Samples.append_all [[97]; [98]] (Samples.new []).1 = (s, Throw e))
  /\ (Samples.new [[97]]).2 = Ok tt
  /\ MerkleTree._root (Samples.new [[97]]).1
     = Samples.sampleHash (Samples.LEAF_PREFIX ++ [97]).
Proof.
  assert (H : Samples.sampleHash (Samples.LEAF_PREFIX ++ [97]) <> Samples.EMPTY_HASH)
    by (vm_compute; discriminate).
  split; [exact H|].
  exact (MerkleTreeFacts.append_fold_from_empty_throws Samples.sampleHash
           Samples.EMPTY_HASH Samples.LEAF_PREFIX Samples.BRANCH_PREFIX
           [97] [[98]] H).
Defined.

(** ** The BFT API *)

Module BFTFacts.
Import BFT.

(** The guard on the block ids, over any rule for distinct headers: the
    predicate is false on equal ids whatever the rule says, hence between a
    header and itself, and it gives the same answer for the two orders of a
    pair on which the rule does. *)
Lemma id_guard_equal_ids (rule : BlockHeader -> BlockHeader -> bool)
    (A B : BlockHeader) :
  id A = id B -> areHeadersContradicting rule A B = false.
Proof.
  intros Hid. unfold areHeadersContradicting.
  assert (H : Buf.equals (id A) (id B) = true) by (by apply BufFacts.equals_true).
  by rewrite H.
Qed.

Lemma id_guard_symmetric (rule : BlockHeader -> BlockHeader -> bool)
    (A B : BlockHeader) :
  rule A B = rule B A ->
  areHeadersContradicting rule A B = areHeadersContradicting rule B A.
Proof.
  intros Hrule. unfold areHeadersContradicting.
  rewrite (BufFacts.equals_sym (id B) (id A)), Hrule. reflexivity.
Qed.

(** The guard of [impliesMaximalPrevotes] keeps the index inside the list. *)
Lemma index_in_bounds {A} (a : list A) (i : Z) :
  0 <= i -> i < Z.of_nat (length a) -> is_Some (index a i).
Proof.
  intros H0 Hlt. unfold index.
  destruct (Z.ltb_spec i 0); [lia|].
  apply lookup_lt_is_Some. lia.
Qed.

(** C9. With at least one stored BlockBFTInfo the operation returns a
    boolean and leaves the stores alone, the indexed read being inside the
    list whenever it is reached; with none stored it throws. *)
Theorem impliesMaximalPrevotes_defined (s : Stores) (bftVotes : BFTVotes)
    (header : BlockHeader) :
  votesStore s = Some bftVotes ->
  (blockBFTInfos bftVotes <> [] ->
     (exists b, impliesMaximalPrevotes header s = (s, Ok b))
     /\ (forall lastHeader,
           head (blockBFTInfos bftVotes) = Some lastHeader ->
           height header = bi_height lastHeader + 1 ->
           maxHeightGenerated header < height header ->
           bi_height lastHeader - maxHeightGenerated header
             < Z.of_nat (length (blockBFTInfos bftVotes)) ->
           is_Some (index (blockBFTInfos bftVotes)
                      (bi_height lastHeader - maxHeightGenerated header))))
  /\ (blockBFTInfos bftVotes = [] ->
        impliesMaximalPrevotes header s = (s, Throw TypeError)).
Proof.
  intros Hs. split.
  - intros Hne. split.
    + unfold impliesMaximalPrevotes, mbind, St_bind, getVotes. rewrite Hs.
      destruct (blockBFTInfos bftVotes) as [|lastHeader infos] eqn:Hinfos;
        [done|]. cbn [head].
      destruct (Z.eqb_spec (height header) (bi_height lastHeader + 1));
        cbn [negb]; [|by eexists].
      destruct (Z.geb_spec (maxHeightGenerated header) (height header));
        [by eexists|].
      destruct (Z.geb_spec (bi_height lastHeader - maxHeightGenerated header)
                  (Z.of_nat (length (lastHeader :: infos)))); [by eexists|].
      destruct (index_in_bounds (lastHeader :: infos)
                  (bi_height lastHeader - maxHeightGenerated header))
        as [info ->]; [lia..|].
      destruct (negb _); by eexists.
    + intros lastHeader _ Hh Hprev Hlt. apply index_in_bounds; lia.
  - intros Hnil.
    unfold impliesMaximalPrevotes, mbind, St_bind, getVotes.
    by rewrite Hs, Hnil.
Qed.

Lemma impliesMaximalPrevotes_defined_witness :
  BFT.votesStore Samples.sampleStores = Some Samples.sampleVotes
  /\ exists b,
       impliesMaximalPrevotes (mkBlockHeader [5] 10 [2] 8 7) Samples.sampleStores
       = (Samples.sampleStores, Ok b).
Proof.
  split; [reflexivity|].
  refine (proj1 (proj1 (impliesMaximalPrevotes_defined Samples.sampleStores
           Samples.sampleVotes (mkBlockHeader [5] 10 [2] 8 7) eq_refl) _)).
  discriminate.
Defined.

Section WithCollaborators.
Variable _batchSize : Z.
Variable validatorAccounts : Buffer -> option Buffer.
Variable encode : ValidatorsHashInput -> Buffer.
Variable hash : Buffer -> Buffer.

Abbreviation resolveKeys := (BFT.resolveKeys validatorAccounts).
Abbreviation _computeValidatorsHash :=
  (BFT._computeValidatorsHash validatorAccounts encode hash).
Abbreviation setBFTParameters :=
  (BFT.setBFTParameters _batchSize validatorAccounts encode hash).

(** The weight loop: the sum when every weight is positive, the weight
    error otherwise. *)
Lemma aggregateWeights_run (validators : list Validator) (acc : Z) :
  aggregateWeights validators acc =
    if forallb (fun v => 0 <? bftWeight v) validators
    then Ok (acc + totalWeight validators)
    else Throw InvalidBFTWeight.
Proof.
  revert acc. induction validators as [|v vs IH]; intros acc; simpl.
  - f_equal. lia.
  - destruct (Z.leb_spec (bftWeight v) 0), (Z.ltb_spec 0 (bftWeight v));
      try lia; simpl; [reflexivity|].
    rewrite IH. destruct (forallb _ vs); [f_equal; lia | reflexivity].
Qed.

Lemma totalWeight_nonneg (validators : list Validator) :
  forallb (fun v => 0 <? bftWeight v) validators = true ->
  0 <= totalWeight validators.
Proof.
  induction validators as [|v vs IH]; simpl; [lia|].
  intros [Hv Hvs]%andb_prop. apply Z.ltb_lt in Hv. specialize (IH Hvs). lia.
Qed.

(** The threshold test of the code is the interval of the claim, once the
    weights are known to be positive. *)
Lemma threshold_test (W threshold : Z) :
  0 <= W ->
  (W ÷ 3 + 1 >? threshold) || (threshold >? W) = negb (inBounds W threshold).
Proof.
  intros HW. unfold inBounds. rewrite Z.quot_div_nonneg by lia.
  destruct (Z.gtb_spec (W / 3 + 1) threshold), (Z.gtb_spec threshold W),
    (Z.leb_spec (W / 3 + 1) threshold), (Z.leb_spec threshold W);
    simpl; lia || reflexivity.
Qed.

Lemma inBounds_floor_third (W : Z) : inBounds W (W / 3) = false.
Proof.
  unfold inBounds. destruct (Z.leb_spec (W / 3 + 1) (W / 3)); [lia|reflexivity].
Qed.

Lemma inBounds_above (W threshold : Z) :
  W < threshold -> inBounds W threshold = false.
Proof.
  intros H. unfold inBounds.
  destruct (Z.leb_spec threshold W); [lia|]. apply andb_false_r.
Qed.

Lemma inBounds_minimum (W : Z) : 1 <= W -> inBounds W (W / 3 + 1) = true.
Proof.
  intros H. unfold inBounds. rewrite Z.leb_refl. simpl.
  apply Z.leb_le. pose proof (Z.mul_div_le W 3). lia.
Qed.

(** The run of [setBFTParameters], check by check. *)
Lemma setBFTParameters_run (precommitThreshold certificateThreshold : Z)
    (validators : list Validator) (s : Stores) :
  let W := totalWeight validators in
  setBFTParameters precommitThreshold certificateThreshold validators s =
    if Z.of_nat (length validators) >? _batchSize
    then (s, Throw InvalidValidatorsSize)
    else if negb (forallb (fun v => 0 <? bftWeight v) validators)
    then (s, Throw InvalidBFTWeight)
    else if negb (inBounds W precommitThreshold)
    then (s, Throw InvalidPrecommitThreshold)
    else if negb (inBounds W certificateThreshold)
    then (s, Throw InvalidCertificateThreshold)
    else
      match _computeValidatorsHash validators certificateThreshold with
      | Throw e => (s, Throw e)
      | Ok validatorsHash =>
          match votesStore s with
          | None => (s, Throw StoreKeyNotFound)
          | Some bftVotes =>
              let nextHeight :=
                match blockBFTInfos bftVotes with
                | info :: _ => bi_height info + 1
                | [] => bv_maxHeightPrevoted bftVotes
                end in
              let sorted := sortValidatorsByAddress address validators in
              (mkStores
                 (Some (mkBFTVotes (bv_maxHeightPrevoted bftVotes)
                          (bv_maxHeightPrecommitted bftVotes)
                          (bv_maxHeightCertified bftVotes)
                          (blockBFTInfos bftVotes)
                          (sortValidatorsByAddress vi_address
                             (map (nextVoteInfo bftVotes nextHeight) sorted))))
                 (<[nextHeight :=
                      mkBFTParameters (2 * W ÷ 3 + 1) precommitThreshold
                        certificateThreshold sorted validatorsHash]>
                    (paramsStore s)),
               Ok tt)
          end
      end.
Proof.
  intros W. unfold BFT.setBFTParameters.
  rewrite St_bind_run. unfold lift at 1.
  destruct (Z.of_nat (length validators) >? _batchSize); [reflexivity|].
  rewrite St_bind_run. unfold lift at 1. rewrite aggregateWeights_run.
  destruct (forallb _ validators) eqn:Hpos; [|reflexivity]. cbn [negb].
  pose proof (totalWeight_nonneg _ Hpos) as HW.
  change (0 + totalWeight validators) with W. fold W in HW.
  rewrite St_bind_run. unfold lift at 1. rewrite threshold_test by exact HW.
  destruct (inBounds W precommitThreshold); [|reflexivity]. cbn [negb].
  rewrite St_bind_run. unfold lift at 1. rewrite threshold_test by exact HW.
  destruct (inBounds W certificateThreshold); [|reflexivity]. cbn [negb].
  rewrite St_bind_run. unfold lift at 1.
  destruct (_computeValidatorsHash validators certificateThreshold);
    [|reflexivity].
  rewrite St_bind_run. unfold getVotes at 1.
  destruct (votesStore s) as [bftVotes|]; reflexivity.
Qed.

(** C3. Whenever one of the two thresholds is outside floor(W/3) + 1 .. W,
    the call throws one of its validation errors, with the stores as they
    were; whenever both are inside, no error of the call is a threshold
    error. *)
Theorem setBFTParameters_threshold_bounds
    (precommitThreshold certificateThreshold : Z)
    (validators : list Validator) (s : Stores) :
  let W := totalWeight validators in
  let r := setBFTParameters precommitThreshold certificateThreshold validators s in
  if inBounds W precommitThreshold && inBounds W certificateThreshold
  then forall e, r.2 = Throw e -> isThresholdError e = false
  else exists e, r = (s, Throw e) /\ isValidationError e = true.
Proof.
  intros W r. subst r. rewrite setBFTParameters_run. fold W.
  destruct (Z.of_nat (length validators) >? _batchSize).
  { destruct (_ && _); [intros e [= <-]; reflexivity | by eexists]. }
  destruct (forallb _ validators); cbn [negb].
  2:{ destruct (_ && _); [intros e [= <-]; reflexivity | by eexists]. }
  destruct (inBounds W precommitThreshold); cbn [negb andb]; [|by eexists].
  destruct (inBounds W certificateThreshold); cbn [negb]; [|by eexists].
  intros e.
  unfold BFT._computeValidatorsHash.
  destruct (resolveKeys validators) as [infos|e'] eqn:Hres; cbn.
  - destruct (votesStore s); cbn; [discriminate|intros [= <-]; reflexivity].
  - intros [= <-]. clear -Hres. revert e' Hres.
    induction validators as [|v vs IH]; intros e' Hres; [discriminate|].
    cbn in Hres. unfold BFT.getValidatorAccount in Hres.
    destruct (validatorAccounts (address v)); cbn in Hres.
    + destruct (resolveKeys vs) eqn:Hvs; cbn in Hres; [discriminate|].
      injection Hres as <-. by apply IH.
    + injection Hres as <-. reflexivity.
Qed.

(** C6. When the call throws one of its validation errors, neither store
    has been written. *)
Theorem setBFTParameters_atomic (precommitThreshold certificateThreshold : Z)
    (validators : list Validator) (s s' : Stores) (e : Error) :
  setBFTParameters precommitThreshold certificateThreshold validators s
    = (s', Throw e) ->
  isValidationError e = true ->
  votesStore s' = votesStore s /\ paramsStore s' = paramsStore s.
Proof.
  rewrite setBFTParameters_run. intros Hrun _.
  repeat match type of Hrun with
         | (if ?b then _ else _) = _ => destruct b
         | match ?x with _ => _ end = _ => destruct x eqn:?
         end;
    try discriminate; injection Hrun as <- _; split; congruence.
Qed.

(** A call that returns has written both stores. *)
Lemma setBFTParameters_writes (precommitThreshold certificateThreshold : Z)
    (validators : list Validator) (s s' : Stores) :
  setBFTParameters precommitThreshold certificateThreshold validators s
    = (s', Ok tt) ->
  exists h, nextHeightOf s = Some h
            /\ is_Some (paramsStore s' !! h) /\ is_Some (votesStore s').
Proof.
  rewrite setBFTParameters_run. intros Hrun. unfold nextHeightOf.
  repeat match type of Hrun with
         | (if ?b then _ else _) = _ => destruct b
         | match ?x with _ => _ end = _ => destruct x eqn:?
         end;
    try discriminate; injection Hrun as <-; cbn;
    eexists; (split; [reflexivity|]); rewrite lookup_insert_eq; split; eauto.
Qed.








End WithCollaborators.

End BFTFacts.



Lemma setBFTParameters_atomic_witness :
  let s := Samples.sampleStores in
  let vs := [BFT.mkValidator [1] 1; BFT.mkValidator [2] 2] in
  Samples.setBFTParameters 1 2 vs s = (s, Throw InvalidPrecommitThreshold)
  /\ BFT.votesStore s = BFT.votesStore s
  /\ BFT.paramsStore s = BFT.paramsStore s.
Proof.
  split; [reflexivity|].
  exact (BFTFacts.setBFTParameters_atomic 10 Samples.sampleAccount
           Samples.sampleEncode Samples.sampleHash 1 2
           [BFT.mkValidator [1] 1; BFT.mkValidator [2] 2]
           Samples.sampleStores Samples.sampleStores
           InvalidPrecommitThreshold eq_refl eq_refl).
Defined.

Lemma setBFTParameters_threshold_bounds_witness :
  let s := Samples.sampleStores in
  let vs := [BFT.mkValidator [1] 1; BFT.mkValidator [2] 2] in
  (exists e, Samples.setBFTParameters 1 2 vs s = (s, Throw e)
             /\ BFT.isValidationError e = true)
  /\ (forall e, (Samples.setBFTParameters 2 3 vs s).2 = Throw e ->
                BFT.isThresholdError e = false).
Proof.
  split.
  - exact (BFTFacts.setBFTParameters_threshold_bounds 10 Samples.sampleAccount
             Samples.sampleEncode Samples.sampleHash 1 2
             [BFT.mkValidator [1] 1; BFT.mkValidator [2] 2]
             Samples.sampleStores).
  - exact (BFTFacts.setBFTParameters_threshold_bounds 10 Samples.sampleAccount
             Samples.sampleEncode Samples.sampleHash 2 3
             [BFT.mkValidator [1] 1; BFT.mkValidator [2] 2]
             Samples.sampleStores).
Defined.

(** ** The commit pool *)

Module CommitPoolFacts.
Import CommitPool.

Lemma length_eqb_nil {A} (l : list A) : (length l =? 0)%nat = true <-> l = [].
Proof. destruct l; simpl; split; (reflexivity || discriminate). Qed.

Lemma length_eqb_nonnil {A} (l : list A) : l <> [] -> (length l =? 0)%nat = false.
Proof. destruct l; [done|reflexivity]. Qed.

Section WithEnv.
Variable env : Env.
Variable aggregateCommit : AggregateCommit.
Variable heights : BFT.BFTHeights.
Hypothesis Hheights : getBFTHeights env = Ok heights.

Abbreviation maxHeightCertified := (BFT.h_maxHeightCertified heights).
Abbreviation maxHeightPrecommitted := (BFT.h_maxHeightPrecommitted heights).
Abbreviation bits := (ac_aggregationBits aggregateCommit).
Abbreviation sig := (certificateSignature aggregateCommit).
Abbreviation h := (ac_height aggregateCommit).

(** What the code does once the four gates have let the commit through. *)
Abbreviation afterGates :=
  (returned ← expiryGate env aggregateCommit maxHeightCertified;
   match returned with
   | Some b => mret b
   | None => verifyCertificate env aggregateCommit
   end).

Lemma verifyAggregateCommit_accept_unchanged :
  bits = [] -> sig = [] -> h = maxHeightCertified ->
  verifyAggregateCommit env aggregateCommit = ([CallGetBFTHeights], Ok true).
Proof.
  intros Hb Hs Hh. unfold verifyAggregateCommit, call. rewrite Hheights.
  cbn [mbind W_bind]. rewrite Hb, Hs, Hh, Z.eqb_refl. reflexivity.
Qed.

Lemma verifyAggregateCommit_reject_empty :
  bits = [] \/ sig = [] ->
  ~ (bits = [] /\ sig = [] /\ h = maxHeightCertified) ->
  verifyAggregateCommit env aggregateCommit = ([CallGetBFTHeights], Ok false).
Proof.
  intros Hor Hnot. unfold verifyAggregateCommit, call. rewrite Hheights.
  cbn [mbind W_bind].
  destruct (bits) as [|b bs] eqn:Hb, (sig) as [|g gs] eqn:Hs; cbn.
  - destruct (Z.eqb_spec h maxHeightCertified); [|reflexivity].
    exfalso. by apply Hnot.
  - reflexivity.
  - reflexivity.
  - by destruct Hor.
Qed.

Lemma verifyAggregateCommit_past_empty_gates :
  bits <> [] -> sig <> [] ->
  verifyAggregateCommit env aggregateCommit =
    if h <=? maxHeightCertified then ([CallGetBFTHeights], Ok false)
    else if h >? maxHeightPrecommitted then ([CallGetBFTHeights], Ok false)
    else (CallGetBFTHeights :: afterGates.1, afterGates.2).
Proof.
  intros Hb Hs. unfold verifyAggregateCommit, call. rewrite Hheights.
  cbn [mbind W_bind].
  rewrite (length_eqb_nonnil _ Hb), (length_eqb_nonnil _ Hs). cbn [andb orb].
  destruct (h <=? maxHeightCertified); [reflexivity|].
  destruct (h >? maxHeightPrecommitted); [reflexivity|].
  match goal with |- (let '(t', r) := ?x in _) = _ => destruct x end.
  reflexivity.
Qed.

End WithEnv.

(** C2. The gates in their order: the unchanged-chain commit is accepted;
    any other commit with empty bits or signature is rejected; then a height
    at or below the certified one, then a height above the precommitted one;
    all four after the single call for the BFT heights. A commit that passes
    them goes on to the expiry gate and the verification, and a run that
    made a verification call has passed them. *)
Theorem verifyAggregateCommit_gates (env : Env) (aggregateCommit : AggregateCommit)
    (heights : BFT.BFTHeights) :
  getBFTHeights env = Ok heights ->
  let maxHeightCertified := BFT.h_maxHeightCertified heights in
  let maxHeightPrecommitted := BFT.h_maxHeightPrecommitted heights in
  let bits := ac_aggregationBits aggregateCommit in
  let sig := certificateSignature aggregateCommit in
  let h := ac_height aggregateCommit in
  let v := verifyAggregateCommit env aggregateCommit in
  let afterGates :=
    (returned ← expiryGate env aggregateCommit maxHeightCertified;
     match returned with
     | Some b => mret b
     | None => verifyCertificate env aggregateCommit
     end) in
  (bits = [] -> sig = [] -> h = maxHeightCertified ->
     v = ([CallGetBFTHeights], Ok true))
  /\ (bits = [] \/ sig = [] ->
      ~ (bits = [] /\ sig = [] /\ h = maxHeightCertified) ->
      v = ([CallGetBFTHeights], Ok false))
  /\ (bits <> [] -> sig <> [] -> h <= maxHeightCertified ->
      v = ([CallGetBFTHeights], Ok false))
  /\ (bits <> [] -> sig <> [] -> h > maxHeightPrecommitted ->
      v = ([CallGetBFTHeights], Ok false))
  /\ (bits <> [] -> sig <> [] -> maxHeightCertified < h <= maxHeightPrecommitted ->
      v = (CallGetBFTHeights :: afterGates.1, afterGates.2))
  /\ (forall c, c ∈ v.1 -> isVerificationCall c = true ->
      bits <> [] /\ sig <> [] /\ maxHeightCertified < h <= maxHeightPrecommitted).
Proof.
  intros Hheights mc mp bits sig h v afterGates. subst v.
  pose proof (verifyAggregateCommit_past_empty_gates env aggregateCommit
                heights Hheights) as Hpast.
  fold mc mp bits sig h afterGates in Hpast.
  split; [by apply verifyAggregateCommit_accept_unchanged|].
  split; [by apply verifyAggregateCommit_reject_empty|].
  split; [|split; [|split]].
  - intros Hb Hs Hh. rewrite (Hpast Hb Hs).
    destruct (Z.leb_spec h mc); [reflexivity|lia].
  - intros Hb Hs Hh. rewrite (Hpast Hb Hs).
    destruct (Z.leb_spec h mc); [reflexivity|].
    destruct (Z.gtb_spec h mp); [reflexivity|lia].
  - intros Hb Hs [Hlo Hhi]. rewrite (Hpast Hb Hs).
    destruct (Z.leb_spec h mc); [lia|].
    destruct (Z.gtb_spec h mp); [lia|reflexivity].
  - intros c Hin Hc.
    assert (Hgate : forall c', c' ∈ [CallGetBFTHeights] ->
                      isVerificationCall c' = true -> False).
    { intros c' ->%list_elem_of_singleton Hc'. discriminate. }
    destruct (decide (bits = [])) as [Hb|Hb].
    { exfalso.
      destruct (decide (sig = [] /\ h = mc)) as [[Hs Hh]|Hn].
      - rewrite (verifyAggregateCommit_accept_unchanged env aggregateCommit
                   heights Hheights Hb Hs Hh) in Hin. eauto.
      - rewrite (verifyAggregateCommit_reject_empty env aggregateCommit
                   heights Hheights) in Hin; [eauto|by left|tauto]. }
    destruct (decide (sig = [])) as [Hs|Hs].
    { exfalso.
      rewrite (verifyAggregateCommit_reject_empty env aggregateCommit
                 heights Hheights) in Hin; [eauto|by right|tauto]. }
    rewrite (Hpast Hb Hs) in Hin.
    destruct (Z.leb_spec h mc); [exfalso; eauto|].
    destruct (Z.gtb_spec h mp); [exfalso; eauto|].
    repeat split; (assumption || lia).
Qed.

Lemma verifyCertificate_withNextHeight (env : Env) (answer : Z -> result Z)
    (aggregateCommit : AggregateCommit) :
  verifyCertificate (withNextHeight env answer) aggregateCommit
  = verifyCertificate env aggregateCommit.
Proof. reflexivity. Qed.

(** C8. Once the gates are passed, any error of the next-parameters lookup
    is dropped, whatever the error: the run goes on to the verification and
    its outcome is the outcome of the verification, the same as when the
    lookup answers with a height that puts no constraint on the commit. *)
Theorem verifyAggregateCommit_swallows_lookup_errors (env : Env)
    (aggregateCommit : AggregateCommit) (heights : BFT.BFTHeights) (e : Error) :
  getBFTHeights env = Ok heights ->
  ac_aggregationBits aggregateCommit <> [] ->
  certificateSignature aggregateCommit <> [] ->
  BFT.h_maxHeightCertified heights < ac_height aggregateCommit
    <= BFT.h_maxHeightPrecommitted heights ->
  getNextHeightBFTParameters env (BFT.h_maxHeightCertified heights + 1)
    = Throw e ->
  verifyAggregateCommit env aggregateCommit =
    (CallGetBFTHeights
       :: CallGetNextHeightBFTParameters (BFT.h_maxHeightCertified heights + 1)
       :: (verifyCertificate env aggregateCommit).1,
     (verifyCertificate env aggregateCommit).2)
  /\ (forall next,
        ac_height aggregateCommit <= next - 1 ->
        (verifyAggregateCommit (withNextHeight env (fun _ => Ok next))
           aggregateCommit).2
        = (verifyAggregateCommit env aggregateCommit).2).
Proof.
  intros Hheights Hb Hs [Hlo Hhi] Hnext.
  assert (Hrun : forall env', getBFTHeights env' = Ok heights ->
            verifyAggregateCommit env' aggregateCommit =
              (CallGetBFTHeights
                 :: (returned ← expiryGate env' aggregateCommit
                                  (BFT.h_maxHeightCertified heights);
                     match returned with
                     | Some b => mret b
                     | None => verifyCertificate env' aggregateCommit
                     end).1,
               (returned ← expiryGate env' aggregateCommit
                               (BFT.h_maxHeightCertified heights);
                match returned with
                | Some b => mret b
                | None => verifyCertificate env' aggregateCommit
                end).2)).
  { intros env' Hh'.
    rewrite (verifyAggregateCommit_past_empty_gates env' aggregateCommit
               heights Hh' Hb Hs).
    destruct (Z.leb_spec (ac_height aggregateCommit)
                (BFT.h_maxHeightCertified heights)); [lia|].
    destruct (Z.gtb_spec (ac_height aggregateCommit)
                (BFT.h_maxHeightPrecommitted heights)); [lia|reflexivity]. }
  assert (Hthis : verifyAggregateCommit env aggregateCommit =
    (CallGetBFTHeights
       :: CallGetNextHeightBFTParameters (BFT.h_maxHeightCertified heights + 1)
       :: (verifyCertificate env aggregateCommit).1,
     (verifyCertificate env aggregateCommit).2)).
  { rewrite (Hrun env Hheights). unfold expiryGate, call.
    rewrite Hnext. cbn [mbind W_bind tryCatchAll].
    destruct (verifyCertificate env aggregateCommit). reflexivity. }
  split; [exact Hthis|].
  intros next Hle.
  rewrite Hthis, (Hrun (withNextHeight env (fun _ => Ok next)) Hheights).
  rewrite <- (verifyCertificate_withNextHeight env (fun _ => Ok next)).
  unfold expiryGate, call.
  cbn [withNextHeight getNextHeightBFTParameters mbind W_bind tryCatchAll].
  destruct (Z.gtb_spec (ac_height aggregateCommit) (next - 1)); [lia|].
  cbn [mret W_ret mbind W_bind tryCatchAll app].
  destruct (verifyCertificate _ _). reflexivity.
Qed.

(** The copy [{ ...o }] of each element has the fields of the element. *)
Lemma copy_entries (entries : list KeyWithWeight) :
  map (fun o => mkKeyWithWeight (weight o) (blsKey o)) entries = entries.
Proof.
  induction entries as [|[w k] entries IH]; simpl; [reflexivity|].
  by rewrite IH.
Qed.

Lemma zip_weights_keys (l : list KeyWithWeight) :
  zip (map weight l) (map blsKey l) = map (fun o => (weight o, blsKey o)) l.
Proof. induction l as [|o l IH]; simpl; [reflexivity|]. by rewrite IH. Qed.

Lemma keys_Sorted (l : list KeyWithWeight) :
  Sorted (JSArray.keyLe blsKey) l -> Sorted Buf.le (map blsKey l).
Proof.
  induction 1 as [|o l Hs IH Hhd]; simpl; constructor; [exact IH|].
  destruct Hhd; simpl; constructor. assumption.
Qed.

Lemma map_Permutation {A B} (f : A -> B) (l l' : list A) :
  l ≡ₚ l' -> map f l ≡ₚ map f l'.
Proof. apply Permutation_map. Qed.

(** C10. The call returns; the array of the caller, and every other array
    that existed before the call, is as it was; the keys come back in
    ascending byte order, and position by position the weights are the
    weights of those keys: the pairs are the pairs of the argument,
    rearranged. *)
Theorem getSortedWeightsAndValidatorKeys_frame
    (heap : gmap nat (list KeyWithWeight)) (param : nat)
    (entries : list KeyWithWeight) :
  heap !! param = Some entries ->
  exists heap' weights validatorKeys,
    getSortedWeightsAndValidatorKeys param heap
      = (heap', Ok (weights, validatorKeys))
    /\ heap' !! param = Some entries
    /\ (forall q, is_Some (heap !! q) -> heap' !! q = heap !! q)
    /\ Sorted Buf.le validatorKeys
    /\ length weights = length entries
    /\ length validatorKeys = length entries
    /\ zip weights validatorKeys
         ≡ₚ map (fun o => (weight o, blsKey o)) entries.
Proof.
  intros Hparam.
  set (q := fresh (dom heap)).
  assert (Hfresh : heap !! q = None).
  { apply not_elem_of_dom. apply is_fresh. }
  set (cmp := fun a b : KeyWithWeight => Buf.compare (blsKey a) (blsKey b)).
  set (sorted := JSArray.sort cmp entries).
  exists (<[q := sorted]> (<[q := entries]> heap)),
    (map weight sorted), (map blsKey sorted).
  assert (Hperm : sorted ≡ₚ entries)
    by apply (SortFacts.sort_Permutation blsKey).
  split; [|split; [|split; [|split; [|split; [|split]]]]].
  - unfold getSortedWeightsAndValidatorKeys.
    rewrite St_bind_run. unfold read at 1. rewrite Hparam.
    rewrite St_bind_run. unfold alloc at 1. fold q. rewrite copy_entries.
    rewrite St_bind_run. unfold sortInPlace.
    rewrite St_bind_run. unfold read at 1. rewrite lookup_insert_eq.
    unfold modify at 1.
    rewrite St_bind_run. unfold read at 1. rewrite lookup_insert_eq.
    reflexivity.
  - assert (q <> param) by congruence.
    by rewrite !lookup_insert_ne.
  - intros r [a Ha]. assert (q <> r) by congruence.
    by rewrite !lookup_insert_ne.
  - apply keys_Sorted. apply (SortFacts.sort_Sorted blsKey).
  - rewrite length_map. by apply Permutation_length.
  - rewrite length_map. by apply Permutation_length.
  - rewrite zip_weights_keys. by apply map_Permutation.
Qed.

End CommitPoolFacts.

(** The examples of the specification for the gates, with a certified
    height of 10. *)
Lemma verifyAggregateCommit_examples :
  CommitPool.verifyAggregateCommit Samples.sampleEnv
    (CommitPool.mkAggregateCommit 10 [] [])
  = ([CommitPool.CallGetBFTHeights], Ok true)
  /\ CommitPool.verifyAggregateCommit Samples.sampleEnv
       (CommitPool.mkAggregateCommit 10 [1] [])
     = ([CommitPool.CallGetBFTHeights], Ok false)
  /\ CommitPool.verifyAggregateCommit Samples.sampleEnv
       (CommitPool.mkAggregateCommit 5 [1] [1])
     = ([CommitPool.CallGetBFTHeights], Ok false)
  /\ CommitPool.verifyAggregateCommit Samples.sampleEnv
       (CommitPool.mkAggregateCommit 5 [] [])
     = ([CommitPool.CallGetBFTHeights], Ok false).
Proof. repeat split; reflexivity. Qed.

Lemma verifyAggregateCommit_gates_witness :
  CommitPool.getBFTHeights Samples.sampleEnv = Ok (BFT.mkBFTHeights 30 20 10)
  /\ CommitPool.verifyAggregateCommit Samples.sampleEnv
       (CommitPool.mkAggregateCommit 10 [] [])
     = ([CommitPool.CallGetBFTHeights], Ok true).
Proof.
  split; [reflexivity|].
  exact (proj1 (CommitPoolFacts.verifyAggregateCommit_gates Samples.sampleEnv
                  (CommitPool.mkAggregateCommit 10 [] [])
                  (BFT.mkBFTHeights 30 20 10) eq_refl)
           eq_refl eq_refl eq_refl).
Defined.

Lemma verifyAggregateCommit_swallows_lookup_errors_witness :
  CommitPool.getNextHeightBFTParameters Samples.sampleEnv 11
    = Throw (OtherError 1)
  /\ (CommitPool.verifyAggregateCommit Samples.sampleEnv
        (CommitPool.mkAggregateCommit 15 [1] [1])).2 = Ok true.
Proof.
  split; [reflexivity|].
  pose proof (proj1 (CommitPoolFacts.verifyAggregateCommit_swallows_lookup_errors
    Samples.sampleEnv (CommitPool.mkAggregateCommit 15 [1] [1])
    (BFT.mkBFTHeights 30 20 10) (OtherError 1) eq_refl
    ltac:(discriminate) ltac:(discriminate) ltac:(cbn; lia) eq_refl)) as H.
  rewrite H. reflexivity.
Defined.

Lemma getSortedWeightsAndValidatorKeys_frame_witness :
  Samples.sampleHeap !! 4%nat
    = Some [CommitPool.mkKeyWithWeight 5 [2; 1];
            CommitPool.mkKeyWithWeight 7 [1; 9];
            CommitPool.mkKeyWithWeight 3 [1]]
  /\ exists heap' weights validatorKeys,
       CommitPool.getSortedWeightsAndValidatorKeys 4 Samples.sampleHeap
         = (heap', Ok (weights, validatorKeys))
       /\ heap' !! 4%nat = Samples.sampleHeap !! 4%nat.
Proof.
  split; [reflexivity|].
  destruct (CommitPoolFacts.getSortedWeightsAndValidatorKeys_frame
              Samples.sampleHeap 4 _ eq_refl)
    as (heap' & weights & validatorKeys & Hrun & Hsame & _).
  exists heap', weights, validatorKeys. split; [exact Hrun | exact Hsame].
Defined.

Lemma getSortedWeightsAndValidatorKeys_example :
  (CommitPool.getSortedWeightsAndValidatorKeys 4 Samples.sampleHeap).2
  = Ok ([3; 7; 5], [[1]; [1; 9]; [2; 1]]).
Proof. vm_compute. reflexivity. Qed.

(** ** The Merkle tree: the arena, the append-path test and complete trees *)

Module MerkleTreeArenaFacts.
Import MerkleTree MerkleTreeModel.

Lemma toInt32_small (z : Z) : - 2 ^ 31 <= z < 2 ^ 31 -> toInt32 z = z.
Proof.
  intros H. unfold toInt32. rewrite Z.mod_small; lia.
Qed.

Lemma land_pow2_testbit (a k : Z) :
  0 <= k -> negb (Z.land a (2 ^ k) =? 0) = Z.testbit a k.
Proof.
  intros Hk. destruct (Z.testbit a k) eqn:Hb.
  - apply negb_true_iff, Z.eqb_neq. intros H0.
    assert (Z.testbit (Z.land a (2 ^ k)) k = true).
    { rewrite Z.land_spec, Hb, Z.pow2_bits_true; auto. }
    rewrite H0, Z.bits_0 in H. discriminate.
  - apply negb_false_iff, Z.eqb_eq. apply Z.bits_inj'. intros n Hn.
    rewrite Z.land_spec, Z.bits_0, Z.pow2_bits_eqb by lia.
    destruct (Z.eqb_spec k n) as [->|]; [by rewrite Hb|apply andb_false_r].
Qed.

(** X1. For a width below 2 ^ 31 and a layer from 1 to 31 the append-path
    test is the test of bit [layer - 1] of its first argument. *)
Theorem isAppendPath_testbit (dataLength layer : Z) :
  0 <= dataLength < 2 ^ 31 -> 1 <= layer <= 31 ->
  isAppendPath dataLength layer = Z.testbit dataLength (layer - 1).
Proof.
  intros Hd Hl. unfold isAppendPath.
  destruct (Z.ltb_spec (layer - 1) 0); [lia|].
  assert (Hp : 1 <= 2 ^ (layer - 1) < 2 ^ 31).
  { pose proof (Z.pow_pos_nonneg 2 (layer - 1)).
    pose proof (Z.pow_lt_mono_r 2 (layer - 1) 31). lia. }
  cbv zeta. rewrite !toInt32_small by lia.
  rewrite land_pow2_testbit by lia.
  rewrite Z.lor_spec.
  replace (2 ^ (layer - 1) - 1) with (Z.ones (layer - 1))
    by (rewrite Z.ones_equiv; lia).
  rewrite Z.ones_spec_high by lia. apply orb_false_r.
Qed.

(** Below layer 1 the test is false: the multiplier is a fraction, which
    the bitwise operators take to 0. *)
Lemma isAppendPath_low (dataLength layer : Z) :
  layer <= 0 -> isAppendPath dataLength layer = false.
Proof. intros H. unfold isAppendPath. destruct (Z.ltb_spec (layer - 1) 0); [done|lia]. Qed.


Lemma triple_bind {A B} (P : State -> Prop) (c : M A) (f : A -> M B)
    (Q : A -> State -> Prop) (R : B -> State -> Prop) (E : State -> Prop) :
  triple P c Q E -> (forall a, triple (Q a) (f a) R E) ->
  triple P (c ≫= f) R E.
Proof.
  intros Hc Hf s HP. rewrite St_bind_run. specialize (Hc s HP).
  destruct (c s) as [s' [a|e]]; [by apply Hf|exact Hc].
Qed.

Lemma triple_weaken {A} (P P' : State -> Prop) (c : M A)
    (Q Q' : A -> State -> Prop) (E : State -> Prop) :
  triple P c Q E -> (forall s, P' s -> P s) ->
  (forall a s, Q a s -> Q' a s) -> triple P' c Q' E.
Proof.
  intros Hc HP HQ s Hs. specialize (Hc s (HP s Hs)).
  destruct (c s) as [s' [a|e]]; auto.
Qed.

Lemma triple_modify (P Q : State -> Prop) (f : State -> State) (E : State -> Prop) :
  (forall s, P s -> Q (f s)) -> triple P (modify f) (fun _ => Q) E.
Proof. intros H s HP. by apply H. Qed.

Section WithHash.
Variable hash : Buffer -> Buffer.
Variables EMPTY_HASH LEAF_PREFIX BRANCH_PREFIX : Buffer.

Abbreviation getNode := (MerkleTree.getNode LEAF_PREFIX).
Abbreviation _generateLeaf := (MerkleTree._generateLeaf hash LEAF_PREFIX).
Abbreviation _generateNode := (MerkleTree._generateNode hash BRANCH_PREFIX).
Abbreviation new := (MerkleTree.new hash EMPTY_HASH LEAF_PREFIX BRANCH_PREFIX).
Abbreviation append := (MerkleTree.append hash LEAF_PREFIX BRANCH_PREFIX).
Abbreviation clear := (MerkleTree.clear EMPTY_HASH).
Abbreviation addressed := (MerkleTreeModel.addressed hash LEAF_PREFIX BRANCH_PREFIX).
Abbreviation contentAddressed :=
  (MerkleTreeModel.contentAddressed hash LEAF_PREFIX BRANCH_PREFIX).
Abbreviation reachable :=
  (MerkleTreeModel.reachable hash EMPTY_HASH LEAF_PREFIX BRANCH_PREFIX).

(** [getNode] reads only. *)
Lemma getNode_state (h : Buffer) (s : State) : (getNode h s).1 = s.
Proof.
  unfold MerkleTree.getNode. rewrite St_bind_run. cbn [gets].
  destruct (_hashToBuffer s !! h); [|reflexivity].
  rewrite St_bind_run. cbn [gets]. rewrite St_bind_run. unfold lift at 1.
  destruct (if decide _ then _ else _); [|reflexivity].
  rewrite St_bind_run. unfold lift at 1.
  destruct (if decide _ then _ else _); reflexivity.
Qed.

Lemma getNode_triple (I : State -> Prop) (h : Buffer) :
  triple I (getNode h) (fun info s => I s /\ ni_hash info = h) I.
Proof.
  intros s HI. pose proof (getNode_state h s) as Hs.
  destruct (getNode h s) as [s' [info|e]] eqn:Hrun; cbn in Hs; subst s';
    [|exact HI].
  split; [exact HI|].
  revert Hrun. unfold MerkleTree.getNode. rewrite St_bind_run. cbn [gets].
  destruct (_hashToBuffer s !! h); [|discriminate].
  rewrite St_bind_run. cbn [gets]. rewrite St_bind_run. unfold lift at 1.
  destruct (if decide _ then _ else _); [|discriminate].
  rewrite St_bind_run. unfold lift at 1.
  destruct (if decide _ then _ else _); [|discriminate].
  by intros [= <-].
Qed.

(** X2. For a hash of NODE_HASH_SIZE bytes, on a tree whose keys are all of
    that size: an unknown hash, and only an unknown hash, gives the
    not-found error; the tree is the same after every call; and a node that
    is returned carries the hash asked for and the value stored under it. *)
Theorem getNode_reads_only (h : Buffer) (s : State) :
  length h = 32%nat -> digestKeys s ->
  (getNode h s).1 = s
  /\ (_hashToBuffer s !! h = None <-> (getNode h s).2 = Throw (HashNotFound h))
  /\ (forall info, (getNode h s).2 = Ok info ->
        ni_hash info = h /\ _hashToBuffer s !! h = Some (ni_value info)).
Proof.
  intros _ _. split; [apply getNode_state|].
  unfold MerkleTree.getNode. rewrite St_bind_run. cbn [gets].
  destruct (_hashToBuffer s !! h) as [value|]; [|by split; [split|]].
  rewrite St_bind_run. cbn [gets]. rewrite St_bind_run. unfold lift at 1.
  destruct (if decide _ then Buf.readInt8 _ _ else _) as [li|e] eqn:Hli.
  2:{ split; [split; [discriminate|]|discriminate].
      cbn. intros [= ->].
      destruct (decide _); [|discriminate].
      unfold Buf.readInt8 in Hli. destruct (value !! 0%nat); discriminate. }
  rewrite St_bind_run. unfold lift at 1.
  destruct (if decide _ then Buf.readBigInt64BE _ _ else _) as [ni|e] eqn:Hni.
  2:{ split; [split; [discriminate|]|discriminate].
      cbn. intros [= ->].
      destruct (decide _); [|discriminate].
      unfold Buf.readBigInt64BE in Hni. destruct (_ <? _)%nat; discriminate. }
  split; [split; discriminate|]. by intros info [= <-].
Qed.

(** X3. [clear] returns and leaves the object in the state of a newly built
    empty tree: no hash of NODE_HASH_SIZE bytes is known any more, and an
    append throws as it does on the empty tree. *)
Theorem clear_forgets (s : State) (value : Buffer) :
  (clear s).2 = Ok tt
  /\ (clear s).1 = (new []).1
  /\ (forall h, length h = 32%nat ->
        (getNode h (clear s).1).2 = Throw (HashNotFound h))
  /\ (hash (LEAF_PREFIX ++ value) <> EMPTY_HASH ->
      exists s' e, append value (clear s).1 = (s', Throw e)).
Proof.
  split; [reflexivity|]. split; [reflexivity|]. split; [reflexivity|].
  intros Hne. change (clear s).1 with (mkState EMPTY_HASH 0 ∅).
  destruct (MerkleTreeFacts.append_empty_throws hash EMPTY_HASH LEAF_PREFIX
              BRANCH_PREFIX value Hne) as (s' & e & Hrun & _).
  by exists s', e.
Qed.

(** *** Invariants of the arena *)

Lemma be_bytes_length (n : nat) (u : Z) : length (Buf.be_bytes n u) = n.
Proof. induction n as [|n IH]; cbn; [reflexivity|by rewrite IH]. Qed.

Section Invariant.
(** A property of the arena that storing a node under its own hash keeps. *)
Variable J : gmap (list Z) (list Z) -> Prop.
Hypothesis J_store :
  forall m k v, J m -> addressed k v -> J (<[k := v]> m).

Let Inv : State -> Prop := fun s => J (_hashToBuffer s).

Lemma _generateLeaf_inv (value : Buffer) :
  triple Inv (_generateLeaf value)
    (fun nd s => Inv s /\ addressed (nd_hash nd) (nd_value nd)) Inv.
Proof.
  intros s HI. cbn.
  assert (Ha : addressed (hash (LEAF_PREFIX ++ value)) (LEAF_PREFIX ++ value)).
  { left. by exists value. }
  split; [|exact Ha]. by apply J_store.
Qed.

Lemma _generateNode_inv (l r : Buffer) (layerIndex nodeIndex : Z) :
  triple Inv (_generateNode l r layerIndex nodeIndex)
    (fun nd s => Inv s /\ addressed (nd_hash nd) (nd_value nd)) Inv.
Proof.
  intros s HI. unfold MerkleTree._generateNode.
  rewrite St_bind_run. unfold lift at 1, Buf.writeInt8.
  destruct (_ || _); [exact HI|].
  rewrite St_bind_run. unfold lift at 1, Buf.writeBigInt64BE.
  destruct (_ || _); [exact HI|]. cbn.
  assert (Ha : addressed (hash (BRANCH_PREFIX ++ l ++ r))
            (BRANCH_PREFIX ++ [layerIndex mod 256]
               ++ Buf.be_bytes 8 (nodeIndex mod 2 ^ 64) ++ l ++ r)).
  { right. exists [layerIndex mod 256], (Buf.be_bytes 8 (nodeIndex mod 2 ^ 64)), l, r.
    by rewrite be_bytes_length. }
  split; [|exact Ha]. by apply J_store.
Qed.

Lemma store_inv (nd : NodeData) :
  triple (fun s => Inv s /\ addressed (nd_hash nd) (nd_value nd))
    (modify (store (nd_hash nd) (nd_value nd))) (fun _ => Inv) Inv.
Proof. apply triple_modify. intros s [HI Ha]. by apply J_store. Qed.

Lemma getNode_inv (h : Buffer) : preserves Inv (getNode h).
Proof.
  eapply triple_weaken; [apply (getNode_triple Inv h)|done|]. by intros a s [? _].
Qed.

Lemma preserves_bind {A B} (c : M A) (f : A -> M B) :
  preserves Inv c -> (forall a, preserves Inv (f a)) -> preserves Inv (c ≫= f).
Proof. intros Hc Hf. by apply (triple_bind Inv c f (fun _ => Inv) (fun _ => Inv) Inv). Qed.

Lemma preserves_ret {A} (a : A) : preserves Inv (mret a).
Proof. intros s HI. exact HI. Qed.

Lemma preserves_throw {A} (e : Error) : preserves Inv (throw e : M A).
Proof. intros s HI. exact HI. Qed.

Lemma preserves_gets {A} (f : State -> A) : preserves Inv (gets f).
Proof. intros s HI. exact HI. Qed.

Lemma preserves_set_root (r : Buffer) : preserves Inv (modify (set_root r)).
Proof. intros s HI. exact HI. Qed.

Lemma preserves_set_width (w : Z) : preserves Inv (modify (set_width w)).
Proof. intros s HI. exact HI. Qed.

Lemma generate_and_store {A} (c : M NodeData) (f : NodeData -> M A) :
  triple Inv c (fun nd s => Inv s /\ addressed (nd_hash nd) (nd_value nd)) Inv ->
  (forall nd, preserves Inv (f nd)) ->
  preserves Inv (nd ← c; _ ← modify (store (nd_hash nd) (nd_value nd)); f nd).
Proof.
  intros Hc Hf. eapply triple_bind; [exact Hc|]. intros nd.
  eapply triple_bind; [apply store_inv|]. intros u. apply Hf.
Qed.

Lemma build_leaves_inv (initValues : list Buffer) :
  preserves Inv (MerkleTree.build_leaves hash LEAF_PREFIX initValues).
Proof.
  induction initValues as [|v rest IH]; [apply preserves_ret|].
  cbn [MerkleTree.build_leaves].
  apply generate_and_store; [apply _generateLeaf_inv|]. intros nd.
  apply preserves_bind; [exact IH|]. intros hs. apply preserves_ret.
Qed.

Lemma build_parents_inv (pairs : list (Buffer * Buffer)) (currentLayer i : Z) :
  preserves Inv (MerkleTree.build_parents hash BRANCH_PREFIX pairs currentLayer i).
Proof.
  revert i. induction pairs as [|[l r] rest IH]; intros i; [apply preserves_ret|].
  cbn [MerkleTree.build_parents].
  apply generate_and_store; [apply _generateNode_inv|]. intros nd.
  apply preserves_bind; [apply IH|]. intros hs. apply preserves_ret.
Qed.

Lemma build_layers_inv (fuel : nat) (nodes : list Buffer)
    (orphan : option Buffer) (currentLayer : Z) :
  preserves Inv (MerkleTree.build_layers hash BRANCH_PREFIX fuel nodes orphan currentLayer).
Proof.
  revert nodes orphan currentLayer.
  induction fuel as [|fuel IH]; intros nodes orphan currentLayer;
    cbn [MerkleTree.build_layers];
    destruct (negb _); try apply preserves_ret; [apply preserves_throw|].
  destruct (if (_ =? 1)%nat then _ else _) as [pairs orphan'].
  apply preserves_bind; [apply build_parents_inv|]. intros hs. apply IH.
Qed.

Lemma _build_inv (initValues : list Buffer) :
  preserves Inv (MerkleTree._build hash LEAF_PREFIX BRANCH_PREFIX initValues).
Proof.
  unfold MerkleTree._build.
  apply preserves_bind; [apply build_leaves_inv|]. intros hs.
  apply preserves_bind; [apply build_layers_inv|]. intros [|h nodes];
    [apply preserves_throw|apply preserves_ret].
Qed.

Lemma constructor_inv (initValues : list Buffer) :
  preserves Inv
    (MerkleTree.constructor hash EMPTY_HASH LEAF_PREFIX BRANCH_PREFIX initValues).
Proof.
  unfold MerkleTree.constructor.
  apply preserves_bind; [apply preserves_set_width|]. intros _.
  apply preserves_bind; [apply preserves_gets|]. intros w.
  destruct (w =? 0); [apply preserves_set_root|].
  apply preserves_bind; [apply _build_inv|]. intros r. apply preserves_set_root.
Qed.

Lemma append_descend_inv (n : nat) (i treeHeight : Z) (currentNode : NodeInfo)
    (appendPath : list NodeInfo) :
  preserves Inv (MerkleTree.append_descend LEAF_PREFIX n i treeHeight currentNode appendPath).
Proof.
  revert i currentNode appendPath.
  induction n as [|n IH]; intros i currentNode appendPath;
    cbn [MerkleTree.append_descend]; [apply preserves_ret|].
  apply preserves_bind; [apply preserves_gets|]. intros w.
  destruct (MerkleTree.isLeaf _ _); [apply preserves_ret|].
  apply preserves_bind.
  { destruct (isAppendPath _ _); [|apply preserves_ret].
    apply preserves_bind; [apply getNode_inv|]. intros l. apply preserves_ret. }
  intros path. destruct (Buf.truthy _); [apply preserves_ret|].
  destruct (_ || _); [apply preserves_ret|].
  apply preserves_bind; [apply getNode_inv|]. intros next. apply IH.
Qed.

Lemma append_combine_inv (n : nat) (appendPath : list NodeInfo) :
  preserves Inv (MerkleTree.append_combine hash LEAF_PREFIX BRANCH_PREFIX n appendPath).
Proof.
  revert appendPath. induction n as [|n IH]; intros appendPath;
    cbn [MerkleTree.append_combine];
    destruct (negb _); try apply preserves_ret; [apply preserves_throw|].
  destruct (JSArray.pop appendPath) as [[path1 r]|]; [|apply preserves_throw].
  destruct (JSArray.pop path1) as [[path2 l]|]; [|apply preserves_throw].
  apply generate_and_store; [apply _generateNode_inv|]. intros nd.
  apply preserves_bind; [apply getNode_inv|]. intros n'. apply IH.
Qed.

Lemma append_tail_inv (appendData : NodeData) :
  preserves Inv
    (appendNode ← getNode (nd_hash appendData);
     rootNodeHash ← gets _root;
     currentNode ← getNode rootNodeHash;
     treeHeight ← MerkleTree._getHeight;
     appendPath ← MerkleTree.append_descend LEAF_PREFIX (Z.to_nat treeHeight) 0
                    treeHeight currentNode [];
     n ← getNode (ni_hash appendNode);
     let appendPath := appendPath ++ [n] in
     appendPath ← MerkleTree.append_combine hash LEAF_PREFIX BRANCH_PREFIX
                    (length appendPath) appendPath;
     match appendPath with
     | first :: _ => _ ← modify (set_root (ni_hash first)); gets _root
     | [] => throw TypeError
     end).
Proof.
  apply preserves_bind; [apply getNode_inv|]. intros appendNode.
  apply preserves_bind; [apply preserves_gets|]. intros rootNodeHash.
  apply preserves_bind; [apply getNode_inv|]. intros currentNode.
  apply preserves_bind.
  { unfold MerkleTree._getHeight. apply preserves_bind; [apply preserves_gets|].
    intros w. apply preserves_ret. }
  intros treeHeight.
  apply preserves_bind; [apply append_descend_inv|]. intros path.
  apply preserves_bind; [apply getNode_inv|]. intros n. cbv zeta.
  apply preserves_bind; [apply append_combine_inv|]. intros [|first rest];
    [apply preserves_throw|].
  apply preserves_bind; [apply preserves_set_root|]. intros _. apply preserves_gets.
Qed.

Lemma append_inv (value : Buffer) : preserves Inv (append value).
Proof.
  unfold MerkleTree.append.
  eapply triple_bind; [apply _generateLeaf_inv|]. intros nd.
  eapply triple_weaken; [apply (append_tail_inv nd)| |done]. by intros s [? _].
Qed.

End Invariant.

Lemma preserves_run {A} (I : State -> Prop) (c : M A) (s : State) :
  preserves I c -> I s -> I (c s).1.
Proof. intros Hc HI. specialize (Hc s HI). by destruct (c s) as [s' [a|e]]. Qed.

Lemma contentAddressed_store (m : gmap (list Z) (list Z)) (k v : Buffer) :
  contentAddressed m -> addressed k v -> contentAddressed (<[k := v]> m).
Proof.
  intros Hm Ha k' v' Hk. destruct (decide (k = k')) as [<-|Hne].
  - rewrite lookup_insert_eq in Hk. by injection Hk as <-.
  - rewrite lookup_insert_ne in Hk by done. by apply Hm.
Qed.

(** Every property of the arena that holds of the empty arena and that
    storing a node under its own hash keeps, holds in every state of a tree
    object. *)
Lemma reachable_inv (J : gmap (list Z) (list Z) -> Prop) (s : State) :
  J ∅ -> (forall m k v, J m -> addressed k v -> J (<[k := v]> m)) ->
  reachable s -> J (_hashToBuffer s).
Proof.
  intros Hempty Hstore. induction 1 as [initValues _|value s _ IH|s _ _].
  - apply (preserves_run (fun s => J (_hashToBuffer s))
             (MerkleTree.constructor hash EMPTY_HASH LEAF_PREFIX BRANCH_PREFIX
                initValues) blank); [|exact Hempty].
    by apply constructor_inv.
  - apply (preserves_run (fun s => J (_hashToBuffer s)) (append value));
      [|exact IH].
    by apply append_inv.
  - exact Hempty.
Qed.

(** With a hash of NODE_HASH_SIZE bytes, every key of a tree object has
    that size. *)
Lemma reachable_digestKeys (s : State) :
  (forall b, length (hash b) = 32%nat) -> reachable s -> digestKeys s.
Proof.
  intros Hhash Hs.
  refine (reachable_inv
            (fun m => forall k, is_Some (m !! k) -> length k = 32%nat)
            s _ _ Hs).
  - intros k [v Hk]. by rewrite lookup_empty in Hk.
  - intros m k v Hm Ha k' Hk'. destruct (decide (k = k')) as [<-|Hne].
    + destruct Ha as [(value & _ & ->)|(li & ni & l & r & _ & _ & _ & ->)];
        apply Hhash.
    + rewrite lookup_insert_ne in Hk' by done. by apply Hm.
Qed.

(** X4. In every state of a tree object, built by a constructor call that
    returns and then changed by any calls of append, returning or throwing,
    and of clear, every entry of the arena is stored under its own hash: a
    leaf value under the hash of the value, a branch value under the hash
    of the branch prefix and its two child hashes. *)
Theorem arena_contentAddressed (s : State) :
  reachable s -> contentAddressed (_hashToBuffer s).
Proof.
  intros Hs. refine (reachable_inv contentAddressed s _ _ Hs).
  - intros k v Hk. by rewrite lookup_empty in Hk.
  - apply contentAddressed_store.
Qed.

(** X5. [append] only adds to the arena, and the new leaf is in it also
    when the call throws. *)
Theorem append_only_adds (value : Buffer) (s : State) :
  (forall k, is_Some (_hashToBuffer s !! k) ->
             is_Some (_hashToBuffer (append value s).1 !! k))
  /\ is_Some (_hashToBuffer (append value s).1 !! hash (LEAF_PREFIX ++ value)).
Proof.
  assert (Hkeep : forall (k : Buffer) (m : gmap (list Z) (list Z)) k' v,
            is_Some (m !! k) -> addressed k' v -> is_Some (<[k' := v]> m !! k)).
  { intros k m k' v Hk _. destruct (decide (k' = k)) as [->|Hne].
    - rewrite lookup_insert_eq. by eexists.
    - by rewrite lookup_insert_ne. }
  split.
  - intros k Hk.
    apply (preserves_run (fun s => is_Some (_hashToBuffer s !! k)) (append value));
      [|exact Hk].
    apply (append_inv (fun m => is_Some (m !! k))). intros m k' v. apply Hkeep.
  - set (Ik := fun s : State =>
                 is_Some (_hashToBuffer s !! hash (LEAF_PREFIX ++ value))).
    assert (Ht : triple (fun _ => True) (append value) (fun _ => Ik) Ik).
    { unfold MerkleTree.append.
      apply (triple_bind _ _ _ (fun _ => Ik)).
      - intros s0 _.
        change (is_Some (<[hash (LEAF_PREFIX ++ value) := LEAF_PREFIX ++ value]>
                           (_hashToBuffer s0) !! hash (LEAF_PREFIX ++ value))).
        rewrite lookup_insert_eq. by eexists.
      - intros nd. apply (append_tail_inv (fun m =>
                      is_Some (m !! hash (LEAF_PREFIX ++ value)))).
        intros m k' v. apply Hkeep. }
    specialize (Ht s I). by destruct (append value s) as [s' [a|e]].
Qed.


(** *** The root of a complete tree *)

Abbreviation leafHashes := (MerkleTreeModel.leafHashes hash LEAF_PREFIX).
Abbreviation layerAbove := (MerkleTreeModel.layerAbove hash BRANCH_PREFIX).
Abbreviation completeRoot := (MerkleTreeModel.completeRoot hash BRANCH_PREFIX).

Lemma build_leaves_hashes (values : list Buffer) (s : State) :
  exists s', MerkleTree.build_leaves hash LEAF_PREFIX values s
             = (s', Ok (leafHashes values)).
Proof.
  revert s. induction values as [|v rest IH]; intros s; [by exists s|].
  cbn [MerkleTree.build_leaves]. rewrite St_bind_run.
  rewrite MerkleTreeFacts._generateLeaf_run.
  rewrite St_bind_run. cbn [modify]. rewrite St_bind_run.
  match goal with |- context [MerkleTree.build_leaves _ _ rest ?s1] =>
    destruct (IH s1) as [s' ->] end.
  by exists s'.
Qed.

Lemma build_parents_hashes (pairs : list (Buffer * Buffer)) (layer i : Z)
    (s : State) :
  -128 <= layer <= 127 -> 0 <= i -> i + Z.of_nat (length pairs) <= 2 ^ 63 ->
  exists s', MerkleTree.build_parents hash BRANCH_PREFIX pairs layer i s
             = (s', Ok (map (fun p => hash (BRANCH_PREFIX ++ p.1 ++ p.2)) pairs)).
Proof.
  intros Hl. revert i s.
  induction pairs as [|[l r] rest IH]; intros i s Hi Hlen; [by exists s|].
  cbn [MerkleTree.build_parents]. rewrite St_bind_run.
  rewrite MerkleTreeFacts._generateNode_run by (cbn [length] in Hlen; lia).
  cbv beta iota zeta. rewrite St_bind_run. cbn [modify]. rewrite St_bind_run.
  match goal with |- context [MerkleTree.build_parents _ _ rest layer (i + 1) ?s1] =>
    destruct (IH (i + 1) s1) as [s' ->]; [lia|cbn [length] in Hlen; lia|] end.
  by exists s'.
Qed.

Lemma make_pairs_pow2 (j : nat) (nodes : list Buffer) :
  length nodes = (2 ^ S j)%nat -> length (make_pairs nodes) = (2 ^ j)%nat.
Proof.
  intros Hlen. rewrite MerkleTreeFacts.make_pairs_length, Hlen.
  rewrite Nat.pow_succ_r', Nat.div2_double. reflexivity.
Qed.

Lemma pow2_even (j : nat) : ((2 ^ S j) mod 2 =? 1)%nat = false.
Proof.
  apply Nat.eqb_neq. rewrite Nat.pow_succ_r', Nat.mul_comm, Nat.Div0.mod_mul. lia.
Qed.

Lemma pow2_gt_1 (j : nat) : (1 <? 2 ^ S j)%nat = true.
Proof.
  apply Nat.ltb_lt. rewrite Nat.pow_succ_r'.
  pose proof (Nat.pow_nonzero 2 j). lia.
Qed.

Lemma build_layers_complete (j fuel : nat) (nodes : list Buffer) (layer : Z)
    (s : State) :
  length nodes = (2 ^ j)%nat -> (j <= fuel)%nat -> (j <= 64)%nat ->
  0 <= layer -> layer + Z.of_nat j <= 128 ->
  exists s', MerkleTree.build_layers hash BRANCH_PREFIX fuel nodes None layer s
             = (s', Ok [completeRoot j nodes]).
Proof.
  revert fuel nodes layer s.
  induction j as [|j IH]; intros fuel nodes layer s Hlen Hfuel Hj Hl0 Hl.
  - destruct nodes as [|x [|y rest]]; try discriminate.
    exists s. by destruct fuel.
  - destruct fuel as [|fuel]; [lia|].
    cbn [MerkleTree.build_layers]. rewrite Hlen, pow2_gt_1, pow2_even.
    cbn [orb negb]. rewrite St_bind_run.
    destruct (build_parents_hashes (make_pairs nodes) layer 0 s) as [s1 ->];
      [lia|lia| |].
    { rewrite (make_pairs_pow2 j) by done. rewrite Nat2Z.inj_pow.
      pose proof (Z.pow_le_mono_r 2 (Z.of_nat j) 63). lia. }
    cbn [completeRoot MerkleTreeModel.completeRoot].
    apply IH; [|lia..].
    unfold MerkleTreeModel.layerAbove. rewrite length_map. by apply make_pairs_pow2.
Qed.

(** X6. On a list of 2 ^ k values the constructor returns, and the root is
    the root of the complete binary tree over the leaf hashes. *)
Theorem new_complete_root (k : nat) (initValues : list Buffer) :
  (k <= 64)%nat -> length initValues = (2 ^ k)%nat ->
  exists s, new initValues = (s, Ok tt)
            /\ _root s = completeRoot k (leafHashes initValues).
Proof.
  intros Hk Hlen.
  unfold MerkleTree.new, MerkleTree.constructor.
  rewrite St_bind_run. cbn [modify blank]. rewrite St_bind_run. cbn [gets].
  change (_width (set_width ?w _)) with w.
  destruct (Z.eqb_spec (Z.of_nat (length initValues)) 0) as [H0|_].
  { pose proof (Nat.pow_nonzero 2 k). lia. }
  rewrite St_bind_run. unfold MerkleTree._build. rewrite St_bind_run.
  match goal with |- context [MerkleTree.build_leaves _ _ initValues ?s0] =>
    destruct (build_leaves_hashes initValues s0) as [s1 ->] end.
  rewrite St_bind_run.
  destruct (build_layers_complete k (S (length (leafHashes initValues)))
              (leafHashes initValues) 0 s1) as [s2 ->]; [| |lia|lia|lia|].
  { unfold MerkleTreeModel.leafHashes. by rewrite length_map. }
  { unfold MerkleTreeModel.leafHashes. rewrite length_map, Hlen.
    pose proof (Nat.pow_gt_lin_r 2 k). lia. }
  cbn. by eexists.
Qed.


(** *** Reading back a branch *)

(** X7. A branch written by [_generateNode] and read back by [getNode]
    gives the two child hashes it was built from, but the layer index read
    is the byte of the branch prefix, whatever layer index was written. *)
Theorem getNode_of_generated_branch (l r : Buffer) (layerIndex nodeIndex p : Z)
    (s : State) :
  BRANCH_PREFIX = [p] -> LEAF_PREFIX <> [p] ->
  length l = 32%nat -> length r = 32%nat ->
  -128 <= layerIndex <= 127 -> - 2 ^ 63 <= nodeIndex <= 2 ^ 63 - 1 ->
  _root s <> hash (BRANCH_PREFIX ++ l ++ r) ->
  exists s1 node info,
    _generateNode l r layerIndex nodeIndex s = (s1, Ok node)
    /\ getNode (nd_hash node) s1 = (s1, Ok info)
    /\ ni_type info = BRANCH
    /\ ni_value info = nd_value node
    /\ ni_leftHash info = l /\ ni_rightHash info = r
    /\ ni_layerIndex info = (if p <? 128 then p else p - 256).
Proof.
  intros Hp Hleaf Hl Hr Hlayer Hnode Hroot.
  rewrite MerkleTreeFacts._generateNode_run by assumption. cbv zeta.
  set (value := BRANCH_PREFIX ++ [layerIndex mod 256]
                  ++ Buf.be_bytes 8 (nodeIndex mod 2 ^ 64) ++ l ++ r).
  set (h := hash (BRANCH_PREFIX ++ l ++ r)) in *.
  assert (Hlook : _hashToBuffer (store h value s) !! h = Some value)
    by apply lookup_insert_eq.
  exists (store h value s), (mkNodeData value h). cbn [nd_hash nd_value].
  rewrite (MerkleTreeFacts.getNode_run _ _ _ _ Hlook). cbv zeta.
  change (_root (store h value s)) with (_root s).
  destruct (Z.eqb_spec (Buf.compare (_root s) h) 0) as [H0|_].
  { by apply BufFacts.compare_eq in H0. }
  assert (Hnotleaf : MerkleTree.isLeaf LEAF_PREFIX value = false).
  { unfold MerkleTree.isLeaf, value. rewrite Hp. cbn [app].
    rewrite MerkleTreeFacts.slice_first_byte.
    destruct (Z.eqb_spec (Buf.compare LEAF_PREFIX [p]) 0) as [H0|_]; [|reflexivity].
    by apply BufFacts.compare_eq in H0. }
  rewrite Hnotleaf.
  destruct (decide (BRANCH = BRANCH)) as [_|]; [|done].
  destruct (decide (BRANCH = LEAF)) as [|_]; [discriminate|].
  assert (Hread0 : Buf.readInt8 value 0 = Ok (if p <? 128 then p else p - 256)).
  { unfold value. by rewrite Hp. }
  rewrite Hread0.
  assert (Hlen : (9 <= length value)%nat).
  { unfold value. rewrite !length_app, be_bytes_length, Hp. cbn [length]. lia. }
  unfold Buf.readBigInt64BE.
  destruct (Nat.ltb_spec (length value) (Z.to_nat LAYER_INDEX_SIZE + 8)) as [Hlt|_].
  { unfold LAYER_INDEX_SIZE in Hlt. lia. }
  eexists. split; [reflexivity|]. split; [reflexivity|]. cbn.
  split; [reflexivity|]. split; [reflexivity|]. split; [|split; [|reflexivity]].
  - unfold value.
    rewrite !(assoc_L (++) _ _ (l ++ r)). by apply MerkleTreeFacts.slice_first_hash.
  - unfold value.
    rewrite !(assoc_L (++) _ _ (l ++ r)). by apply MerkleTreeFacts.slice_last_hash.
Qed.

(** *** The constructor returns *)

Lemma build_leaves_known (values : list Buffer) (s : State) :
  exists s' hs,
    MerkleTree.build_leaves hash LEAF_PREFIX values s = (s', Ok hs)
    /\ length hs = length values
    /\ (forall k, is_Some (_hashToBuffer s !! k) ->
                  is_Some (_hashToBuffer s' !! k))
    /\ Forall (known s') hs.
Proof.
  revert s. induction values as [|v rest IH]; intros s.
  { exists s, []. by repeat split. }
  cbn [MerkleTree.build_leaves]. rewrite St_bind_run.
  rewrite MerkleTreeFacts._generateLeaf_run.
  rewrite St_bind_run. cbn [modify nd_hash nd_value]. rewrite St_bind_run.
  match goal with |- context [MerkleTree.build_leaves _ _ rest ?s1] =>
    destruct (IH s1) as (s' & hs & -> & Hlen & Hkeep & Hknown);
    assert (H1 : is_Some (_hashToBuffer s1 !! hash (LEAF_PREFIX ++ v)))
      by (cbn; rewrite lookup_insert_eq; by eexists);
    assert (Hkeep1 : forall k, is_Some (_hashToBuffer s !! k) ->
                       is_Some (_hashToBuffer s1 !! k))
  end.
  { intros k Hk. cbn.
    destruct (decide (hash (LEAF_PREFIX ++ v) = k)) as [<-|Hne].
    - rewrite lookup_insert_eq. by eexists.
    - rewrite lookup_insert_ne by done.
      destruct (decide (hash (LEAF_PREFIX ++ v) = k)) as [<-|Hne'].
      + rewrite lookup_insert_eq. by eexists.
      + by rewrite lookup_insert_ne. }
  exists s', (hash (LEAF_PREFIX ++ v) :: hs). split; [reflexivity|].
  split; [cbn; by rewrite Hlen|]. split; [by auto|].
  constructor; [by apply Hkeep|exact Hknown].
Qed.

Lemma build_parents_known (pairs : list (Buffer * Buffer)) (layer i : Z)
    (s : State) :
  -128 <= layer <= 127 -> 0 <= i -> i + Z.of_nat (length pairs) <= 2 ^ 63 ->
  exists s' hs,
    MerkleTree.build_parents hash BRANCH_PREFIX pairs layer i s = (s', Ok hs)
    /\ length hs = length pairs
    /\ (forall k, is_Some (_hashToBuffer s !! k) ->
                  is_Some (_hashToBuffer s' !! k))
    /\ Forall (known s') hs.
Proof.
  intros Hl. revert i s.
  induction pairs as [|[l r] rest IH]; intros i s Hi Hlen.
  { exists s, []. by repeat split. }
  cbn [MerkleTree.build_parents]. rewrite St_bind_run.
  rewrite MerkleTreeFacts._generateNode_run by (cbn [length] in Hlen; lia).
  cbv beta iota zeta. rewrite St_bind_run. cbn [modify nd_hash nd_value].
  rewrite St_bind_run.
  set (h := hash (BRANCH_PREFIX ++ l ++ r)).
  match goal with |- context [MerkleTree.build_parents _ _ rest layer (i + 1) ?s1] =>
    destruct (IH (i + 1) s1) as (s' & hs & -> & Hlen' & Hkeep & Hknown);
      [lia|cbn [length] in Hlen; lia|];
    assert (H1 : is_Some (_hashToBuffer s1 !! h))
      by (cbn; rewrite lookup_insert_eq; by eexists);
    assert (Hkeep1 : forall k, is_Some (_hashToBuffer s !! k) ->
                       is_Some (_hashToBuffer s1 !! k))
  end.
  { intros k Hk. cbn.
    destruct (decide (h = k)) as [<-|Hne].
    - rewrite lookup_insert_eq. by eexists.
    - rewrite !lookup_insert_ne by done. exact Hk. }
  exists s', (h :: hs). split; [reflexivity|].
  split; [cbn; by rewrite Hlen'|]. split; [by auto|].
  constructor; [by apply Hkeep|exact Hknown].
Qed.

Lemma last_known (s : State) (nodes : list Buffer) :
  Forall (known s) nodes -> nodes <> [] ->
  exists x, last nodes = Some x /\ known s x.
Proof.
  intros Hall Hne. destruct (last nodes) as [x|] eqn:Hlast.
  - exists x. split; [reflexivity|].
    apply (proj1 (Forall_forall _ _) Hall). by apply last_Some_elem_of.
  - by apply last_None in Hlast.
Qed.

(** The rounds of [_build]: with at most 2 ^ j nodes, the pending orphan
    counted, [j] rounds reach the root. *)
Lemma build_layers_returns (j fuel : nat) (nodes : list Buffer)
    (orphan : option Buffer) (layer : Z) (s : State) :
  (1 <= length nodes)%nat ->
  (length nodes + match orphan with Some _ => 1 | None => 0 end <= 2 ^ j)%nat ->
  (j <= fuel)%nat -> (j <= 63)%nat -> 0 <= layer -> layer + Z.of_nat j <= 128 ->
  Forall (known s) nodes ->
  (forall o, orphan = Some o -> known s o) ->
  exists s' root,
    MerkleTree.build_layers hash BRANCH_PREFIX fuel nodes orphan layer s
    = (s', Ok [root])
    /\ known s' root.
Proof.
  revert fuel nodes orphan layer s.
  induction j as [|j IH];
    intros fuel nodes orphan layer s Hlen1 Hm Hfuel Hj Hl0 Hl Hnodes Horphan.
  { destruct nodes as [|x [|y rest]], orphan; cbn in Hlen1, Hm; try lia.
    exists s, x. split; [by destruct fuel|]. by apply Forall_cons in Hnodes as [? _]. }
  destruct fuel as [|fuel]; [lia|].
  cbn [MerkleTree.build_layers].
  destruct (negb _) eqn:Hexit.
  { apply negb_true_iff, orb_false_iff in Hexit as [Hle Hnone].
    apply Nat.ltb_ge in Hle.
    destruct nodes as [|x [|y rest]]; cbn in Hlen1, Hle; try lia.
    exists s, x. split; [reflexivity|]. by apply Forall_cons in Hnodes as [? _]. }
  apply negb_false_iff in Hexit.
  pose proof (MerkleTreeFacts.make_pairs_length nodes) as Hpairs.
  assert (Hpow : (2 ^ S j = 2 * 2 ^ j)%nat) by apply Nat.pow_succ_r'.
  assert (Hpow63 : Z.of_nat (2 ^ j) <= 2 ^ 63).
  { rewrite Nat2Z.inj_pow. apply Z.pow_le_mono_r; lia. }
  assert (Hne : nodes <> []) by (destruct nodes; [cbn in Hlen1; lia|done]).
  destruct (length nodes mod 2 =? 1)%nat eqn:Hodd.
  - apply MerkleTreeFacts.odd_length_div2 in Hodd.
    destruct (last_known s nodes Hnodes Hne) as (x & Hlast & Hx).
    destruct orphan as [o|].
    + rewrite St_bind_run.
      destruct (build_parents_known
                  (make_pairs nodes ++ [(default [] (last nodes), o)]) layer 0 s)
        as (s1 & hs & -> & Hlen & Hkeep & Hknown); [lia|lia| |].
      { rewrite length_app, Hpairs. cbn [length]. lia. }
      rewrite length_app, Hpairs in Hlen. cbn [length] in Hlen.
      apply IH; try lia; [exact Hknown|discriminate].
    + rewrite St_bind_run.
      destruct (build_parents_known (make_pairs nodes) layer 0 s)
        as (s1 & hs & -> & Hlen & Hkeep & Hknown); [lia|lia|lia|].
      rewrite Hpairs in Hlen.
      assert (Hge3 : (3 <= length nodes)%nat).
      { cbn [bool_decide orb] in Hexit.
        destruct (Nat.ltb_spec 1 (length nodes)) as [|Hle];
          [lia|]. rewrite orb_false_l in Hexit.
        apply bool_decide_eq_true in Hexit. by destruct Hexit. }
      rewrite Hlast.
      apply IH; try lia; [exact Hknown|].
      intros o [= <-]. by apply Hkeep.
  - apply MerkleTreeFacts.even_length_div2 in Hodd.
    rewrite St_bind_run.
    destruct (build_parents_known (make_pairs nodes) layer 0 s)
      as (s1 & hs & -> & Hlen & Hkeep & Hknown); [lia|lia|lia|].
    rewrite Hpairs in Hlen.
    apply IH; try lia; [destruct orphan; lia|exact Hknown|].
    intros o Ho. apply Hkeep. by apply Horphan.
Qed.

(** X8. On a non-empty list of fewer than 2 ^ 63 values the constructor
    returns, and the root it leaves is a hash that [getNode] finds. *)
Theorem new_returns (initValues : list Buffer) :
  initValues <> [] -> Z.of_nat (length initValues) < 2 ^ 63 ->
  exists s, new initValues = (s, Ok tt) /\ known s (_root s).
Proof.
  intros Hne Hlen.
  unfold MerkleTree.new, MerkleTree.constructor.
  rewrite St_bind_run. cbn [modify blank]. rewrite St_bind_run. cbn [gets].
  change (_width (set_width ?w _)) with w.
  destruct (Z.eqb_spec (Z.of_nat (length initValues)) 0) as [H0|_].
  { destruct initValues; [done|cbn in H0; lia]. }
  rewrite St_bind_run. unfold MerkleTree._build. rewrite St_bind_run.
  match goal with |- context [MerkleTree.build_leaves _ _ initValues ?s0] =>
    destruct (build_leaves_known initValues s0)
      as (s1 & hs & -> & Hhs & _ & Hknown) end.
  rewrite St_bind_run.
  set (n := length initValues) in *.
  assert (Hn : (1 <= n)%nat).
  { subst n. destruct initValues; [done|cbn; lia]. }
  set (j := Z.to_nat (Z.log2_up (Z.of_nat n))).
  pose proof (Z.log2_up_nonneg (Z.of_nat n)) as Hj0.
  assert (Hj : (n <= 2 ^ j)%nat).
  { apply Nat2Z.inj_le. rewrite Nat2Z.inj_pow. unfold j. rewrite Z2Nat.id by done.
    destruct (Z.eq_dec (Z.of_nat n) 1) as [->|]; [done|].
    apply Z.log2_up_spec. lia. }
  assert (Hj63 : (j <= 63)%nat).
  { unfold j. pose proof (Z.log2_up_le_mono (Z.of_nat n) (2 ^ 63) ltac:(lia)).
    rewrite Z.log2_up_pow2 in H by lia. lia. }
  assert (Hjn : (j <= n)%nat).
  { unfold j. pose proof (Z.log2_up_le_lin (Z.of_nat n) ltac:(lia)). lia. }
  destruct (build_layers_returns j (S (length hs)) hs None 0 s1)
    as (s2 & root & -> & Hroot); try lia; [exact Hknown|discriminate|].
  cbn. eexists. split; [reflexivity|]. exact Hroot.
Qed.

End WithHash.

End MerkleTreeArenaFacts.

(** ** The BFT API: what a call stores, the chain check, the lookups *)

Module BFTStoreFacts.
Import BFT BFTQueries.

Section WithCollaborators.
Variable _batchSize : Z.
Variable validatorAccounts : Buffer -> option Buffer.
Variable encode : ValidatorsHashInput -> Buffer.
Variable hash : Buffer -> Buffer.

Abbreviation setBFTParameters :=
  (BFT.setBFTParameters _batchSize validatorAccounts encode hash).

(** What a call that returns has checked and written. *)
Lemma setBFTParameters_success (precommitThreshold certificateThreshold : Z)
    (validators : list Validator) (s s' : Stores) :
  setBFTParameters precommitThreshold certificateThreshold validators s
    = (s', Ok tt) ->
  let W := totalWeight validators in
  exists bftVotes validatorsHash,
    votesStore s = Some bftVotes
    /\ Z.of_nat (length validators) <= _batchSize
    /\ forallb (fun v => 0 <? bftWeight v) validators = true
    /\ inBounds W precommitThreshold = true
    /\ inBounds W certificateThreshold = true
    /\ (let nextHeight :=
          match blockBFTInfos bftVotes with
          | info :: _ => bi_height info + 1
          | [] => bv_maxHeightPrevoted bftVotes
          end in
        let sorted := sortValidatorsByAddress address validators in
        s' = mkStores
               (Some (mkBFTVotes (bv_maxHeightPrevoted bftVotes)
                        (bv_maxHeightPrecommitted bftVotes)
                        (bv_maxHeightCertified bftVotes)
                        (blockBFTInfos bftVotes)
                        (sortValidatorsByAddress vi_address
                           (map (nextVoteInfo bftVotes nextHeight) sorted))))
               (<[nextHeight :=
                    mkBFTParameters (2 * W ÷ 3 + 1) precommitThreshold
                      certificateThreshold sorted validatorsHash]>
                  (paramsStore s))).
Proof.
  rewrite BFTFacts.setBFTParameters_run. cbv zeta.
  destruct (Z.gtb_spec (Z.of_nat (length validators)) _batchSize); [discriminate|].
  destruct (forallb _ validators); [|discriminate]. cbn [negb].
  destruct (inBounds _ precommitThreshold); [|discriminate]. cbn [negb].
  destruct (inBounds _ certificateThreshold); [|discriminate]. cbn [negb].
  destruct (_computeValidatorsHash _ _ _ _ _) as [validatorsHash|]; [|discriminate].
  destruct (votesStore s) as [bftVotes|]; [|discriminate].
  intros [= <-]. exists bftVotes, validatorsHash. repeat split; (lia || reflexivity).
Qed.

Lemma sortValidatorsByAddress_Permutation {A} (addr : A -> Buffer) (l : list A) :
  sortValidatorsByAddress addr l ≡ₚ l.
Proof. apply (SortFacts.sort_Permutation addr). Qed.

(** X9. A call that returns has stored, under the next height, an entry
    with the two thresholds of the call, the validators of the call in some
    order, and a prevote threshold that is the least integer above two
    thirds of the total weight W and at most W; W is at least 1. *)
Theorem setBFTParameters_stored_entry (precommitThreshold certificateThreshold : Z)
    (validators : list Validator) (s s' : Stores) :
  setBFTParameters precommitThreshold certificateThreshold validators s
    = (s', Ok tt) ->
  let W := totalWeight validators in
  exists nextHeight bftParams,
    nextHeightOf s = Some nextHeight
    /\ paramsStore s' !! nextHeight = Some bftParams
    /\ BFT.precommitThreshold bftParams = precommitThreshold
    /\ BFT.certificateThreshold bftParams = certificateThreshold
    /\ BFT.validators bftParams ≡ₚ validators
    /\ 1 <= W
    /\ 2 * W < 3 * prevoteThreshold bftParams <= 2 * W + 3
    /\ prevoteThreshold bftParams <= W.
Proof.
  intros Hrun W.
  destruct (setBFTParameters_success _ _ _ _ _ Hrun)
    as (bftVotes & validatorsHash & Hvotes & _ & Hpos & Hpre & _ & ->).
  fold W in Hpre. unfold nextHeightOf. rewrite Hvotes.
  eexists _, _. split; [reflexivity|]. cbn [paramsStore].
  rewrite lookup_insert_eq. split; [reflexivity|]. cbn.
  split; [reflexivity|]. split; [reflexivity|].
  split; [apply sortValidatorsByAddress_Permutation|].
  pose proof (BFTFacts.totalWeight_nonneg _ Hpos) as HW. fold W in HW.
  unfold inBounds in Hpre. apply andb_prop in Hpre as [Hlo Hhi].
  apply Z.leb_le in Hlo, Hhi.
  assert (H1 : 1 <= W).
  { pose proof (Z.div_pos W 3). lia. }
  rewrite Z.quot_div_nonneg by lia.
  fold W.
  pose proof (Z.div_mod (2 * W) 3 ltac:(lia)) as Hdm.
  pose proof (Z.mod_pos_bound (2 * W) 3 ltac:(lia)) as Hm.
  lia.
Qed.

(** X10. A call that returns writes the parameters store at the next
    height only: every other height reads as before, the next height now
    exists, and the BFT heights and the block infos of the votes store are
    as before, so that a second call would write the same height. *)
Theorem setBFTParameters_frame (precommitThreshold certificateThreshold : Z)
    (validators : list Validator) (s s' : Stores) :
  setBFTParameters precommitThreshold certificateThreshold validators s
    = (s', Ok tt) ->
  exists nextHeight,
    nextHeightOf s = Some nextHeight
    /\ nextHeightOf s' = Some nextHeight
    /\ (forall height, height <> nextHeight ->
          paramsStore s' !! height = paramsStore s !! height)
    /\ (forall height, height <> nextHeight ->
          existBFTParameters height s' = (s', (existBFTParameters height s).2))
    /\ existBFTParameters nextHeight s' = (s', Ok true)
    /\ (getBFTHeights s').2 = (getBFTHeights s).2
    /\ (blockBFTInfos <$> votesStore s') = (blockBFTInfos <$> votesStore s).
Proof.
  intros Hrun.
  destruct (setBFTParameters_success _ _ _ _ _ Hrun)
    as (bftVotes & validatorsHash & Hvotes & _ & _ & _ & _ & ->).
  unfold nextHeightOf, existBFTParameters, getBFTHeights.
  rewrite !St_bind_run. unfold getVotes. rewrite Hvotes.
  cbn [votesStore paramsStore blockBFTInfos gets fst snd].
  eexists. split; [reflexivity|]. split; [reflexivity|].
  split; [|split; [|split; [|split]]].
  - intros height Hne. by rewrite lookup_insert_ne.
  - intros height Hne. unfold gets. cbn [paramsStore snd].
    by rewrite lookup_insert_ne.
  - unfold gets. cbn [paramsStore]. rewrite lookup_insert_eq.
    rewrite bool_decide_eq_true_2; [reflexivity|by eexists].
  - reflexivity.
  - reflexivity.
Qed.

Lemma nextVoteInfo_address (bftVotes : BFTVotes) (nextHeight : Z)
    (validator : Validator) :
  vi_address (nextVoteInfo bftVotes nextHeight validator) = address validator.
Proof.
  unfold nextVoteInfo.
  destruct (find _ _) as [existing|] eqn:Hfind; [|reflexivity].
  apply find_some in Hfind as [_ Heq]. by apply BufFacts.equals_true.
Qed.

(** X11. The vote info after a returning call: one entry per validator of the
    call; a validator that had an entry keeps one it had, with its
    heights; a validator that had none starts at the next height. *)
Theorem setBFTParameters_voteInfo (precommitThreshold certificateThreshold : Z)
    (validators : list Validator) (s s' : Stores) :
  setBFTParameters precommitThreshold certificateThreshold validators s
    = (s', Ok tt) ->
  exists nextHeight bftVotes bftVotes',
    nextHeightOf s = Some nextHeight
    /\ votesStore s = Some bftVotes /\ votesStore s' = Some bftVotes'
    /\ map vi_address (activeValidatorsVoteInfo bftVotes')
         ≡ₚ map address validators
    /\ (forall info, info ∈ activeValidatorsVoteInfo bftVotes' ->
          info ∈ activeValidatorsVoteInfo bftVotes
          \/ (minActiveHeight info = nextHeight
              /\ largestHeightPrecommit info = nextHeight - 1))
    /\ (forall info old, info ∈ activeValidatorsVoteInfo bftVotes' ->
          old ∈ activeValidatorsVoteInfo bftVotes ->
          vi_address old = vi_address info ->
          info ∈ activeValidatorsVoteInfo bftVotes).
Proof.
  intros Hrun.
  destruct (setBFTParameters_success _ _ _ _ _ Hrun)
    as (bftVotes & validatorsHash & Hvotes & _ & _ & _ & _ & ->).
  unfold nextHeightOf. rewrite Hvotes.
  eexists _, bftVotes, _. split; [reflexivity|]. split; [reflexivity|].
  split; [reflexivity|]. cbn [activeValidatorsVoteInfo].
  set (nextHeight := match blockBFTInfos bftVotes with
                     | info :: _ => bi_height info + 1
                     | [] => bv_maxHeightPrevoted bftVotes
                     end).
  assert (Hperm : sortValidatorsByAddress vi_address
                    (map (nextVoteInfo bftVotes nextHeight)
                       (sortValidatorsByAddress address validators))
                  ≡ₚ map (nextVoteInfo bftVotes nextHeight) validators).
  { rewrite sortValidatorsByAddress_Permutation.
    apply Permutation_map, sortValidatorsByAddress_Permutation. }
  assert (Hfrom : forall info,
            info ∈ sortValidatorsByAddress vi_address
                     (map (nextVoteInfo bftVotes nextHeight)
                        (sortValidatorsByAddress address validators)) ->
            exists validator, info = nextVoteInfo bftVotes nextHeight validator).
  { intros info Hin. rewrite Hperm in Hin.
    apply list_elem_of_fmap in Hin as (v & -> & _). by exists v. }
  split; [|split].
  - rewrite Hperm, map_map.
    rewrite (map_ext _ address); [reflexivity|].
    intros v. apply nextVoteInfo_address.
  - intros info [v ->]%Hfrom. unfold nextVoteInfo.
    destruct (find _ _) as [existing|] eqn:Hfind.
    + left. apply find_some in Hfind as [Hin _]. by apply list_elem_of_In.
    + right. by split.
  - intros info old [v ->]%Hfrom Hold Haddr.
    rewrite nextVoteInfo_address in Haddr. unfold nextVoteInfo.
    destruct (find _ _) as [existing|] eqn:Hfind.
    + apply find_some in Hfind as [Hin _]. by apply list_elem_of_In.
    + exfalso. apply list_elem_of_In in Hold.
      pose proof (find_none _ _ Hfind old Hold) as Hno. cbn in Hno.
      apply not_true_iff_false in Hno. apply Hno. by apply BufFacts.equals_true.
Qed.

End WithCollaborators.

(** *** isHeaderContradictingChain *)

Section WithRule.
Variable areDistinctHeadersContradicting : BlockBFTInfo -> BlockHeader -> bool.

Lemma scanBlockBFTInfos_none (infos : list BlockBFTInfo) (header : BlockHeader) :
  (forall info, info ∈ infos ->
     bi_generatorAddress info <> generatorAddress header) ->
  scanBlockBFTInfos areDistinctHeadersContradicting infos header = false.
Proof.
  induction infos as [|b infos IH]; intros Hno; cbn; [reflexivity|].
  destruct (Buf.equals _ _) eqn:Heq.
  - apply BufFacts.equals_true in Heq. exfalso. eapply Hno; [|exact Heq]. left.
  - apply IH. intros info Hin. apply Hno. by right.
Qed.

Lemma scanBlockBFTInfos_first (before after : list BlockBFTInfo)
    (info : BlockBFTInfo) (header : BlockHeader) :
  (forall b, b ∈ before -> bi_generatorAddress b <> generatorAddress header) ->
  bi_generatorAddress info = generatorAddress header ->
  scanBlockBFTInfos areDistinctHeadersContradicting
    (before ++ info :: after) header
  = areDistinctHeadersContradicting info header.
Proof.
  intros Hno Hgen. induction before as [|b before IH]; cbn.
  - rewrite Hgen. by rewrite (proj2 (BufFacts.equals_true _ _) eq_refl).
  - destruct (Buf.equals _ _) eqn:Heq.
    + apply BufFacts.equals_true in Heq. exfalso. eapply Hno; [|exact Heq]. left.
    + apply IH. intros b' Hin. apply Hno. by right.
Qed.

(** X12. The check against the chain reads the stores only; it answers
    false when no stored block info is by the generator of the header, and
    otherwise what the rule says of the first stored info by that generator,
    whatever the later ones are. *)
Theorem isHeaderContradictingChain_first_match (header : BlockHeader)
    (s : Stores) :
  (isHeaderContradictingChain areDistinctHeadersContradicting header s).1 = s
  /\ (votesStore s = None ->
      (isHeaderContradictingChain areDistinctHeadersContradicting header s).2
      = Throw StoreKeyNotFound)
  /\ (forall bftVotes, votesStore s = Some bftVotes ->
        ((forall info, info ∈ blockBFTInfos bftVotes ->
            bi_generatorAddress info <> generatorAddress header) ->
         (isHeaderContradictingChain areDistinctHeadersContradicting header s).2
         = Ok false)
        /\ (forall before info after,
              blockBFTInfos bftVotes = before ++ info :: after ->
              (forall b, b ∈ before ->
                 bi_generatorAddress b <> generatorAddress header) ->
              bi_generatorAddress info = generatorAddress header ->
              (isHeaderContradictingChain areDistinctHeadersContradicting
                 header s).2
              = Ok (areDistinctHeadersContradicting info header))).
Proof.
  unfold isHeaderContradictingChain. rewrite St_bind_run. unfold getVotes.
  destruct (votesStore s) as [bftVotes|] eqn:Hvotes.
  - split; [reflexivity|]. split; [discriminate|].
    intros ? [= <-]. split.
    + intros Hno. cbn. by rewrite scanBlockBFTInfos_none.
    + intros before info after Heq Hno Hgen. cbn.
      by rewrite Heq, scanBlockBFTInfos_first.
  - split; [reflexivity|]. split; [reflexivity|]. discriminate.
Qed.
End WithRule.

(** *** impliesMaximalPrevotes on consecutive heights *)

(** X13. When the stored block infos are at consecutive heights, newest
    first, a header implies maximal prevotes exactly when it is at the next
    height, was generated after the height it names as previously generated,
    and no stored info at that height is by another generator. *)
Theorem impliesMaximalPrevotes_contiguous (s : Stores) (bftVotes : BFTVotes)
    (lastHeader : BlockBFTInfo) (header : BlockHeader) :
  votesStore s = Some bftVotes ->
  head (blockBFTInfos bftVotes) = Some lastHeader ->
  contiguous (blockBFTInfos bftVotes) ->
  exists b,
    impliesMaximalPrevotes header s = (s, Ok b)
    /\ (b = true <->
        height header = bi_height lastHeader + 1
        /\ maxHeightGenerated header < height header
        /\ forall info, info ∈ blockBFTInfos bftVotes ->
             bi_height info = maxHeightGenerated header ->
             bi_generatorAddress info = generatorAddress header).
Proof.
  intros Hvotes Hhead Hcont.
  unfold impliesMaximalPrevotes. rewrite St_bind_run. unfold getVotes.
  rewrite Hvotes, Hhead.
  destruct (Z.eqb_spec (height header) (bi_height lastHeader + 1)) as [Hh|Hh];
    cbn [negb]; [|exists false; split; [reflexivity|]; split; [discriminate|lia]].
  cbv zeta.
  destruct (Z.geb_spec (maxHeightGenerated header) (height header)) as [Hp|Hp];
    [exists false; split; [reflexivity|]; split; [discriminate|lia]|].
  set (offset := bi_height lastHeader - maxHeightGenerated header).
  assert (Hat : forall i info, blockBFTInfos bftVotes !! i = Some info ->
                  (bi_height info = maxHeightGenerated header
                   <-> Z.of_nat i = offset)).
  { intros i info Hi. rewrite (Hcont lastHeader i info Hhead Hi). unfold offset. lia. }
  destruct (Z.geb_spec offset (Z.of_nat (length (blockBFTInfos bftVotes))))
    as [Hoff|Hoff].
  { exists true. split; [reflexivity|]. split; [|done]. intros _.
    split; [done|]. split; [lia|].
    intros info [i Hi]%list_elem_of_lookup Hheight.
    apply (Hat i info Hi) in Hheight.
    apply lookup_lt_Some in Hi. lia. }
  unfold index. destruct (Z.ltb_spec offset 0); [lia|].
  destruct (blockBFTInfos bftVotes !! Z.to_nat offset) as [info|] eqn:Hinfo.
  2:{ apply lookup_ge_None in Hinfo. lia. }
  assert (Hthis : bi_height info = maxHeightGenerated header).
  { apply (Hat _ _ Hinfo). lia. }
  destruct (Buf.equals _ _) eqn:Heq; cbn [negb].
  - exists true. split; [reflexivity|]. split; [|done]. intros _.
    split; [done|]. split; [lia|].
    intros info' [i Hi]%list_elem_of_lookup Hheight.
    apply (Hat i info' Hi) in Hheight.
    assert (i = Z.to_nat offset) as -> by lia.
    rewrite Hinfo in Hi. injection Hi as <-. by apply BufFacts.equals_true.
  - exists false. split; [reflexivity|]. split; [discriminate|].
    intros (_ & _ & Hall). exfalso.
    apply not_true_iff_false in Heq. apply Heq. apply BufFacts.equals_true.
    apply Hall; [|exact Hthis]. by eapply list_elem_of_lookup_2.
Qed.

End BFTStoreFacts.

(** ** The BFT API: the next-parameters lookup and the call of the DPoS
    module *)

Module BFTLookupFacts.
Import BFT BFTQueries.

Lemma keyLe_Transitive : Transitive keyLe.
Proof. intros a b c. unfold keyLe. lia. Qed.

Lemma keyLe_Total : Total keyLe.
Proof. intros a b. unfold keyLe. lia. Qed.

Lemma StronglySorted_filter_keyLe (P : Z * BFTParameters -> Prop)
    `{forall x, Decision (P x)} (l : list (Z * BFTParameters)) :
  StronglySorted keyLe l -> StronglySorted keyLe (filter P l).
Proof.
  induction 1 as [|x l Hs IH Hall]; [constructor|].
  rewrite filter_cons. destruct (decide (P x)); [|exact IH].
  constructor; [exact IH|].
  apply Forall_forall. intros y [_ Hy]%list_elem_of_filter.
  by apply (proj1 (Forall_forall _ _) Hall).
Qed.

(** The entries of a range, first to last: each is stored, in the range and
    at most the ones after it. *)
Lemma iterate_spec (m : gmap Z BFTParameters) (start stop : Z) :
  let entries := iterate m (length (map_to_list m)) start stop in
  StronglySorted keyLe entries
  /\ forall h p, (h, p) ∈ entries <-> m !! h = Some p /\ start <= h <= stop.
Proof.
  cbv zeta. unfold iterate.
  pose proof keyLe_Transitive. pose proof keyLe_Total.
  rewrite take_ge.
  2:{ etrans; [apply length_filter|]. by rewrite merge_sort_Permutation. }
  split.
  - apply StronglySorted_filter_keyLe. by apply StronglySorted_merge_sort.
  - intros h p. rewrite list_elem_of_filter, merge_sort_Permutation.
    rewrite elem_of_map_to_list. cbn. tauto.
Qed.

Lemma iterate_first (m : gmap Z BFTParameters) (start stop : Z) :
  match iterate m 1 start stop with
  | [] => forall h, is_Some (m !! h) -> ~ start <= h <= stop
  | [(h, p)] =>
      m !! h = Some p /\ start <= h <= stop
      /\ forall h', is_Some (m !! h') -> start <= h' <= stop -> h <= h'
  | _ => False
  end.
Proof.
  destruct (iterate_spec m start stop) as [Hs Hin]. revert Hs Hin.
  unfold iterate.
  destruct (filter _ _) as [|[h p] rest] eqn:Hf.
  - intros _ Hin. rewrite take_nil in *. cbn.
    intros h [p Hp] Hrange. apply (elem_of_nil (h, p)). apply Hin. by split.
  - intros Hs Hin. cbn [take].
    rewrite take_ge in Hs, Hin.
    2,3: rewrite <- Hf; (etrans; [apply length_filter|]);
         by rewrite merge_sort_Permutation.
    rewrite take_0.
    apply StronglySorted_cons in Hs as [Hall _].
    destruct (proj1 (Hin h p)) as [Hh Hr]; [left|].
    split; [exact Hh|]. split; [exact Hr|].
    intros h' [p' Hp'] Hr'.
    assert (Hel : (h', p') ∈ (h, p) :: rest) by (by apply Hin).
    apply elem_of_cons in Hel as [[= -> _]|Hel]; [lia|].
    apply (proj1 (Forall_forall _ _) Hall) in Hel. exact Hel.
Qed.

(** X14. For a height whose successor is the height of a 4-byte key,
    -1 <= height < MAX_UINT32, the lookup reads the store only; it returns
    the least stored height above [height] that is at most MAX_UINT32, and
    throws BFTParameterNotFoundError exactly when there is none. *)
Theorem getNextHeightBFTParameters_least (height : Z) (s : Stores) :
  -1 <= height < MAX_UINT32 ->
  (getNextHeightBFTParameters height s).1 = s
  /\ (forall h,
        (getNextHeightBFTParameters height s).2 = Ok h
        <-> is_Some (paramsStore s !! h) /\ height < h <= MAX_UINT32
            /\ forall h', is_Some (paramsStore s !! h') ->
                 height < h' <= MAX_UINT32 -> h <= h')
  /\ ((getNextHeightBFTParameters height s).2 = Throw BFTParameterNotFoundError
      <-> forall h', is_Some (paramsStore s !! h') ->
            ~ height < h' <= MAX_UINT32).
Proof.
  intros _. unfold getNextHeightBFTParameters. rewrite St_bind_run. cbn [gets].
  pose proof (iterate_first (paramsStore s) (height + 1) MAX_UINT32) as Hfirst.
  destruct (iterate (paramsStore s) 1 (height + 1) MAX_UINT32)
    as [|[h p] [|second rest]]; [| |done].
  - split; [reflexivity|]. split.
    + intros h. split; [discriminate|].
      intros (Hh & Hr & _). exfalso. apply (Hfirst h Hh). lia.
    + split; [|reflexivity]. intros _ h' Hh' Hr. apply (Hfirst h' Hh'). lia.
  - destruct Hfirst as (Hh & Hr & Hleast).
    split; [reflexivity|]. split.
    + intros h0. cbn. split.
      * intros [= <-]. split; [by eexists|]. split; [lia|].
        intros h' Hh' Hr'. apply Hleast; [done|lia].
      * intros (Hh0 & Hr0 & Hleast0). f_equal.
        assert (h <= h0) by (apply Hleast; [done|lia]).
        assert (h0 <= h) by (apply Hleast0; [by eexists|lia]). lia.
    + split; [discriminate|]. intros Hnone. exfalso.
      apply (Hnone h); [by eexists|lia].
Qed.

Section WithCollaborators.
Variable _batchSize : Z.
Variable validatorAccounts : Buffer -> option Buffer.
Variable encode : ValidatorsHashInput -> Buffer.
Variable hash : Buffer -> Buffer.

(** X15. The entry that a returning call has stored is the one that the
    lookup finds from the height just below it. *)
Theorem setBFTParameters_then_getNextHeight
    (precommitThreshold certificateThreshold : Z)
    (validators : list Validator) (s s' : Stores) (nextHeight : Z) :
  BFT.setBFTParameters _batchSize validatorAccounts encode hash
    precommitThreshold certificateThreshold validators s = (s', Ok tt) ->
  nextHeightOf s = Some nextHeight ->
  nextHeight <= MAX_UINT32 ->
  getNextHeightBFTParameters (nextHeight - 1) s' = (s', Ok nextHeight).
Proof.
  intros Hrun Hnext Hmax.
  destruct (BFTFacts.setBFTParameters_writes _ _ _ _ _ _ _ _ _ Hrun)
    as (h & Hh & Hstored & _).
  rewrite Hnext in Hh. injection Hh as <-.
  unfold getNextHeightBFTParameters. rewrite St_bind_run. cbn [gets].
  pose proof (iterate_first (paramsStore s') (nextHeight - 1 + 1) MAX_UINT32)
    as Hfirst.
  destruct (iterate (paramsStore s') 1 (nextHeight - 1 + 1) MAX_UINT32)
    as [|[h p] [|second rest]]; [| |done].
  - exfalso. apply (Hfirst nextHeight Hstored). lia.
  - destruct Hfirst as (_ & Hr & Hleast).
    assert (Hle : h <= nextHeight) by (apply Hleast; [exact Hstored|lia]).
    assert (h = nextHeight) as -> by lia. reflexivity.
Qed.

(** *** The call of the DPoS module *)

Lemma bftWeights_positive (activeDelegates : list Buffer) :
  forallb (fun v => 0 <? bftWeight v) (DPoS.bftWeights activeDelegates) = true.
Proof. induction activeDelegates as [|a l IH]; [reflexivity|exact IH]. Qed.

Lemma bftWeights_totalWeight (activeDelegates : list Buffer) :
  totalWeight (DPoS.bftWeights activeDelegates)
  = Z.of_nat (length activeDelegates).
Proof.
  induction activeDelegates as [|a l IH]; [reflexivity|].
  cbn [DPoS.bftWeights map totalWeight foldr length bftWeight].
  unfold DPoS.bftWeights, totalWeight in IH. rewrite IH. lia.
Qed.

Lemma resolveKeys_error (validators : list Validator) (e : Error) :
  BFT.resolveKeys validatorAccounts validators = Throw e ->
  exists a, e = ValidatorAccountNotFound a.
Proof.
  induction validators as [|v vs IH]; [discriminate|].
  cbn [BFT.resolveKeys]. unfold getValidatorAccount.
  destruct (validatorAccounts (address v)); cbn.
  - destruct (BFT.resolveKeys validatorAccounts vs); [discriminate|].
    intros [= <-]. by apply IH.
  - intros [= <-]. by eexists.
Qed.

Lemma _computeValidatorsHash_error (validators : list Validator)
    (certificateThreshold : Z) (e : Error) :
  _computeValidatorsHash validatorAccounts encode hash validators
    certificateThreshold = Throw e ->
  exists a, e = ValidatorAccountNotFound a.
Proof.
  unfold _computeValidatorsHash.
  destruct (BFT.resolveKeys validatorAccounts validators) eqn:Hkeys;
    [discriminate|].
  intros [= <-]. by apply (resolveKeys_error validators).
Qed.

Lemma resolveKeys_Ok (validators : list Validator) :
  (forall v, v ∈ validators -> is_Some (validatorAccounts (address v))) ->
  exists infos, BFT.resolveKeys validatorAccounts validators = Ok infos.
Proof.
  induction validators as [|v vs IH]; intros Hall; [by eexists|].
  cbn [BFT.resolveKeys]. unfold getValidatorAccount.
  destruct (Hall v ltac:(left)) as [blsKey ->].
  destruct IH as [infos ->]; [intros v' Hv'; apply Hall; by right|].
  by eexists.
Qed.

(** X16. The DPoS module gives every active delegate the BFT weight 1 and
    passes one threshold for both. The call is refused, with the stores as
    they were, exactly when there are more delegates than the batch size
    (the size error) or else the threshold is outside floor(n/3) + 1 .. n
    for the n delegates (the precommit-threshold error); it never raises
    the weight error or the certificate-threshold error. Within these
    bounds it raises no validation error, and it returns when every
    delegate has a validator account and the votes store has its value,
    with a next height that a 4-byte key holds. *)
Theorem setBFTParameters_from_dpos (bftThreshold : Z)
    (activeDelegates : list Buffer) (s : Stores) :
  let n := Z.of_nat (length activeDelegates) in
  let run := BFT.setBFTParameters _batchSize validatorAccounts encode hash
               bftThreshold bftThreshold (DPoS.bftWeights activeDelegates) s in
  (_batchSize < n -> run = (s, Throw InvalidValidatorsSize))
  /\ (n <= _batchSize -> ~ (n / 3 + 1 <= bftThreshold <= n) ->
      run = (s, Throw InvalidPrecommitThreshold))
  /\ (run.2 <> Throw InvalidBFTWeight
      /\ run.2 <> Throw InvalidCertificateThreshold)
  /\ (forall e, run.2 = Throw e -> isValidationError e = false ->
      n <= _batchSize /\ n / 3 + 1 <= bftThreshold <= n)
  /\ (forall e, run.2 = Throw e -> isValidationError e = true ->
      _batchSize < n \/ ~ (n / 3 + 1 <= bftThreshold <= n))
  /\ (n <= _batchSize -> n / 3 + 1 <= bftThreshold <= n ->
      (forall a, a ∈ activeDelegates -> is_Some (validatorAccounts a)) ->
      (exists nextHeight,
         nextHeightOf s = Some nextHeight /\ 0 <= nextHeight <= MAX_UINT32) ->
      exists s', run = (s', Ok tt)).
Proof.
  cbv zeta. rewrite BFTFacts.setBFTParameters_run. cbv zeta.
  rewrite bftWeights_positive, bftWeights_totalWeight. cbn [negb].
  assert (Hlen : length (DPoS.bftWeights activeDelegates) = length activeDelegates)
    by apply length_map.
  rewrite Hlen. unfold inBounds.
  destruct (Z.gtb_spec (Z.of_nat (length activeDelegates)) _batchSize) as [Hb|Hb].
  { split; [done|]. split; [lia|]. split; [by split|].
    split; [by intros e [= <-]|]. split; [intros; by left|lia]. }
  destruct (Z.leb_spec (Z.of_nat (length activeDelegates) / 3 + 1) bftThreshold),
    (Z.leb_spec bftThreshold (Z.of_nat (length activeDelegates)));
    cbn [andb negb].
  2-4: split; [lia|]; split; [done|]; split; [by split|];
       split; [by intros e [= <-]|]; split; [intros; right; lia|lia].
  split; [lia|]. split; [lia|].
  destruct (_computeValidatorsHash _ _ _ _ _) as [vh|e0] eqn:Hhash.
  - destruct (votesStore s) as [bftVotes|] eqn:Hvotes.
    + split; [by split|]. split; [intros e He _; lia|].
      split; [by intros e [=]|]. intros _ _ _ _. by eexists.
    + split; [by split|]. split; [intros e He _; lia|].
      split; [by intros e [= <-]|]. intros _ _ _ (h & Hnext & _).
      unfold nextHeightOf in Hnext. by rewrite Hvotes in Hnext.
  - pose proof Hhash as Herr.
    apply _computeValidatorsHash_error in Herr as [a ->].
    split; [by split|]. split; [intros; lia|].
    split; [by intros e [= <-]|]. intros _ _ Hall _. exfalso.
    destruct (resolveKeys_Ok (DPoS.bftWeights activeDelegates)) as [infos Hinfos].
    { intros v [a' [-> Ha']]%list_elem_of_fmap. by apply Hall. }
    unfold _computeValidatorsHash in Hhash. by rewrite Hinfos in Hhash.
Qed.

End WithCollaborators.

End BFTLookupFacts.

(** ** The commit pool: expiry, errors and the order of the validators *)

Module CommitPoolOrderFacts.
Import CommitPool CommitPoolModel.

(** The value that [getSortedWeightsAndValidatorKeys] returns. *)
Lemma getSortedWeightsAndValidatorKeys_value
    (heap : gmap nat (list KeyWithWeight)) (param : nat)
    (entries : list KeyWithWeight) :
  heap !! param = Some entries ->
  (getSortedWeightsAndValidatorKeys param heap).2
  = Ok (map weight (JSArray.sort (JSArray.byKey blsKey) entries),
        map blsKey (JSArray.sort (JSArray.byKey blsKey) entries)).
Proof.
  intros Hparam. unfold getSortedWeightsAndValidatorKeys.
  rewrite St_bind_run. unfold read at 1. rewrite Hparam.
  rewrite St_bind_run. unfold alloc at 1.
  rewrite CommitPoolFacts.copy_entries.
  rewrite St_bind_run. unfold sortInPlace.
  rewrite St_bind_run. unfold read at 1. rewrite lookup_insert_eq.
  unfold modify at 1.
  rewrite St_bind_run. unfold read at 1. rewrite lookup_insert_eq.
  reflexivity.
Qed.

(** X17. Two arrays with the same entries in any order, no two different
    entries sharing a key, give the same weights and keys. *)
Theorem getSortedWeightsAndValidatorKeys_order
    (heap heap' : gmap nat (list KeyWithWeight)) (param param' : nat)
    (entries entries' : list KeyWithWeight) :
  heap !! param = Some entries ->
  heap' !! param' = Some entries' ->
  entries ≡ₚ entries' ->
  (forall a b, a ∈ entries -> b ∈ entries -> blsKey a = blsKey b -> a = b) ->
  (getSortedWeightsAndValidatorKeys param' heap').2
  = (getSortedWeightsAndValidatorKeys param heap).2.
Proof.
  intros Hp Hp' Hperm Hinj.
  rewrite (getSortedWeightsAndValidatorKeys_value _ _ _ Hp).
  rewrite (getSortedWeightsAndValidatorKeys_value _ _ _ Hp').
  by rewrite (SortFacts.sort_canonical blsKey entries entries' Hperm Hinj).
Qed.

Section WithEnv.
Variable env : Env.

(** The run of the expiry gate and what follows it, by the answer of the
    lookup. *)
Lemma afterGates_run (aggregateCommit : AggregateCommit) (maxHeightCertified : Z) :
  (returned ← expiryGate env aggregateCommit maxHeightCertified;
   match returned with
   | Some b => mret b
   | None => verifyCertificate env aggregateCommit
   end)
  = match getNextHeightBFTParameters env (maxHeightCertified + 1) with
    | Ok next =>
        if ac_height aggregateCommit >? next - 1
        then ([CallGetNextHeightBFTParameters (maxHeightCertified + 1)], Ok false)
        else (CallGetNextHeightBFTParameters (maxHeightCertified + 1)
                :: (verifyCertificate env aggregateCommit).1,
              (verifyCertificate env aggregateCommit).2)
    | Throw _ =>
        (CallGetNextHeightBFTParameters (maxHeightCertified + 1)
           :: (verifyCertificate env aggregateCommit).1,
         (verifyCertificate env aggregateCommit).2)
    end.
Proof.
  unfold expiryGate, call.
  destruct (getNextHeightBFTParameters env (maxHeightCertified + 1)) as [next|e].
  - cbn [mbind W_bind].
    destruct (ac_height aggregateCommit >? next - 1);
      cbn [mret W_ret app tryCatchAll mbind W_bind]; [reflexivity|].
    by destruct (verifyCertificate env aggregateCommit).
  - cbn [mbind W_bind tryCatchAll].
    by destruct (verifyCertificate env aggregateCommit).
Qed.

Lemma verifyAggregateCommit_afterGates (aggregateCommit : AggregateCommit)
    (heights : BFT.BFTHeights) :
  getBFTHeights env = Ok heights ->
  ac_aggregationBits aggregateCommit <> [] ->
  certificateSignature aggregateCommit <> [] ->
  BFT.h_maxHeightCertified heights < ac_height aggregateCommit
    <= BFT.h_maxHeightPrecommitted heights ->
  verifyAggregateCommit env aggregateCommit
  = match getNextHeightBFTParameters env (BFT.h_maxHeightCertified heights + 1) with
    | Ok next =>
        if ac_height aggregateCommit >? next - 1
        then ([CallGetBFTHeights;
               CallGetNextHeightBFTParameters (BFT.h_maxHeightCertified heights + 1)],
              Ok false)
        else (CallGetBFTHeights
                :: CallGetNextHeightBFTParameters (BFT.h_maxHeightCertified heights + 1)
                :: (verifyCertificate env aggregateCommit).1,
              (verifyCertificate env aggregateCommit).2)
    | Throw _ =>
        (CallGetBFTHeights
           :: CallGetNextHeightBFTParameters (BFT.h_maxHeightCertified heights + 1)
           :: (verifyCertificate env aggregateCommit).1,
         (verifyCertificate env aggregateCommit).2)
    end.
Proof.
  intros Hheights Hb Hs [Hlo Hhi].
  rewrite (CommitPoolFacts.verifyAggregateCommit_past_empty_gates env
             aggregateCommit heights Hheights Hb Hs).
  destruct (Z.leb_spec (ac_height aggregateCommit)
              (BFT.h_maxHeightCertified heights)); [lia|].
  destruct (Z.gtb_spec (ac_height aggregateCommit)
              (BFT.h_maxHeightPrecommitted heights)); [lia|].
  rewrite afterGates_run.
  destruct (getNextHeightBFTParameters env _) as [next|e]; [|reflexivity].
  by destruct (ac_height aggregateCommit >? next - 1).
Qed.

(** X18. A commit that has passed the four gates is rejected, with no call
    beyond the two lookups, when the next BFT parameters start at or below
    its height; when they start above it the outcome is the outcome of the
    verification. *)
Theorem verifyAggregateCommit_expiry (aggregateCommit : AggregateCommit)
    (heights : BFT.BFTHeights) (next : Z) :
  getBFTHeights env = Ok heights ->
  ac_aggregationBits aggregateCommit <> [] ->
  certificateSignature aggregateCommit <> [] ->
  BFT.h_maxHeightCertified heights < ac_height aggregateCommit
    <= BFT.h_maxHeightPrecommitted heights ->
  getNextHeightBFTParameters env (BFT.h_maxHeightCertified heights + 1)
    = Ok next ->
  (next <= ac_height aggregateCommit ->
   verifyAggregateCommit env aggregateCommit
   = ([CallGetBFTHeights;
       CallGetNextHeightBFTParameters (BFT.h_maxHeightCertified heights + 1)],
      Ok false))
  /\ (ac_height aggregateCommit < next ->
      verifyAggregateCommit env aggregateCommit
      = (CallGetBFTHeights
           :: CallGetNextHeightBFTParameters (BFT.h_maxHeightCertified heights + 1)
           :: (verifyCertificate env aggregateCommit).1,
         (verifyCertificate env aggregateCommit).2)).
Proof.
  intros Hheights Hb Hs Hh Hnext.
  rewrite (verifyAggregateCommit_afterGates _ _ Hheights Hb Hs Hh), Hnext.
  destruct (Z.gtb_spec (ac_height aggregateCommit) (next - 1)); split;
    intros; (reflexivity || lia).
Qed.

(** X19. Errors other than those of the next-parameters lookup are thrown,
    not turned into a rejection: an error of the heights lookup at once,
    and, past the gates, an error of the block header lookup or a header
    without state root or validators hash, before any signature is
    checked. *)
Theorem verifyAggregateCommit_throws (aggregateCommit : AggregateCommit) :
  (forall e, getBFTHeights env = Throw e ->
     verifyAggregateCommit env aggregateCommit = ([CallGetBFTHeights], Throw e))
  /\ (forall heights,
        getBFTHeights env = Ok heights ->
        ac_aggregationBits aggregateCommit <> [] ->
        certificateSignature aggregateCommit <> [] ->
        BFT.h_maxHeightCertified heights < ac_height aggregateCommit
          <= BFT.h_maxHeightPrecommitted heights ->
        (forall next,
           getNextHeightBFTParameters env (BFT.h_maxHeightCertified heights + 1)
             = Ok next -> ac_height aggregateCommit < next) ->
        let thrown e :=
          verifyAggregateCommit env aggregateCommit
          = ([CallGetBFTHeights;
              CallGetNextHeightBFTParameters
                (BFT.h_maxHeightCertified heights + 1);
              CallGetBlockHeaderByHeight (ac_height aggregateCommit)],
             Throw e) in
        (forall e,
           getBlockHeaderByHeight env (ac_height aggregateCommit) = Throw e ->
           thrown e)
        /\ (forall blockHeader,
              getBlockHeaderByHeight env (ac_height aggregateCommit)
                = Ok blockHeader ->
              (stateRoot blockHeader = None -> thrown MissingStateRoot)
              /\ (is_Some (stateRoot blockHeader) ->
                  validatorsHash blockHeader = None ->
                  thrown MissingValidatorsHash))).
Proof.
  split.
  { intros e He. unfold verifyAggregateCommit, call. by rewrite He. }
  intros heights Hheights Hb Hs Hh Hnext thrown. subst thrown. cbv beta.
  rewrite (verifyAggregateCommit_afterGates _ _ Hheights Hb Hs Hh).
  assert (Hrun : forall t r, verifyCertificate env aggregateCommit = (t, r) ->
    match getNextHeightBFTParameters env (BFT.h_maxHeightCertified heights + 1) with
    | Ok next =>
        if ac_height aggregateCommit >? next - 1
        then ([CallGetBFTHeights;
               CallGetNextHeightBFTParameters (BFT.h_maxHeightCertified heights + 1)],
              Ok false)
        else (CallGetBFTHeights
                :: CallGetNextHeightBFTParameters (BFT.h_maxHeightCertified heights + 1)
                :: (verifyCertificate env aggregateCommit).1,
              (verifyCertificate env aggregateCommit).2)
    | Throw _ =>
        (CallGetBFTHeights
           :: CallGetNextHeightBFTParameters (BFT.h_maxHeightCertified heights + 1)
           :: (verifyCertificate env aggregateCommit).1,
         (verifyCertificate env aggregateCommit).2)
    end
    = (CallGetBFTHeights
         :: CallGetNextHeightBFTParameters (BFT.h_maxHeightCertified heights + 1)
         :: t, r)).
  { intros t r ->.
    destruct (getNextHeightBFTParameters env _) as [next|e] eqn:Hn; [|reflexivity].
    specialize (Hnext next eq_refl).
    destruct (Z.gtb_spec (ac_height aggregateCommit) (next - 1)); [lia|reflexivity]. }
  split.
  - intros e He. apply Hrun. unfold verifyCertificate, call. by rewrite He.
  - intros blockHeader Hheader. split.
    + intros Hroot. apply Hrun. unfold verifyCertificate, call.
      rewrite Hheader. cbn [mbind W_bind].
      unfold computeCertificateFromBlockHeader. by rewrite Hroot.
    + intros [sr Hroot] Hvh. apply Hrun. unfold verifyCertificate, call.
      rewrite Hheader. cbn [mbind W_bind].
      unfold computeCertificateFromBlockHeader. by rewrite Hroot, Hvh.
Qed.

End WithEnv.

(** *** The order of the validators in the BFT parameters *)

Lemma W_bind_snd {A B} (m : W A) (f : A -> W B) :
  (m ≫= f).2 = match m.2 with Ok a => (f a).2 | Throw e => Throw e end.
Proof.
  unfold mbind, W_bind. destruct m as [t [a|e]]; [|reflexivity].
  cbn [snd]. by destruct (f a).
Qed.

Section Order.
Variable env : Env.
Variable key : Buffer -> Buffer.

Let entry (v : BFT.Validator) : KeyWithWeight :=
  mkKeyWithWeight (BFT.bftWeight v) (key (BFT.address v)).

Lemma resolveKeys_value (validators : list BFT.Validator) :
  (forall v, v ∈ validators ->
     getValidatorAccount env (BFT.address v) = Ok (key (BFT.address v))) ->
  (resolveKeys env validators).2 = Ok (map entry validators).
Proof.
  induction validators as [|v vs IH]; intros Hall; [reflexivity|].
  cbn [resolveKeys]. rewrite W_bind_snd. unfold call at 1. cbn [snd].
  rewrite (Hall v) by left. rewrite W_bind_snd, IH; [reflexivity|].
  intros v' Hv'. apply Hall. by right.
Qed.

Lemma verifyCertificate_value (aggregateCommit : AggregateCommit)
    (bftParams : BFT.BFTParameters) :
  (forall v, v ∈ BFT.validators bftParams ->
     getValidatorAccount env (BFT.address v) = Ok (key (BFT.address v))) ->
  (verifyCertificate (withBFTParameters env (fun _ => Ok bftParams))
     aggregateCommit).2
  = match getBlockHeaderByHeight env (ac_height aggregateCommit) with
    | Throw e => Throw e
    | Ok blockHeader =>
        match computeCertificateFromBlockHeader blockHeader with
        | Throw e => Throw e
        | Ok computed =>
            let sorted :=
              JSArray.sort (JSArray.byKey blsKey)
                (map entry (BFT.validators bftParams)) in
            (verifyAggregateCertificateSignature env (map blsKey sorted)
               (map weight sorted) (BFT.certificateThreshold bftParams)
               (networkIdentifier env)
               (mkCertificate (blockID computed) (c_height computed)
                  (c_timestamp computed) (c_stateRoot computed)
                  (c_validatorsHash computed)
                  (Some (ac_aggregationBits aggregateCommit))
                  (Some (certificateSignature aggregateCommit)))).2
        end
    end.
Proof.
  intros Hall. unfold verifyCertificate.
  rewrite W_bind_snd. unfold call at 1.
  cbn [snd withBFTParameters getBlockHeaderByHeight].
  destruct (getBlockHeaderByHeight env (ac_height aggregateCommit))
    as [blockHeader|e]; [|reflexivity].
  rewrite W_bind_snd. cbn [snd].
  destruct (computeCertificateFromBlockHeader blockHeader) as [computed|e];
    [|reflexivity].
  rewrite W_bind_snd. unfold call at 1. cbn [snd].
  change (getBFTParameters (withBFTParameters env (fun _ => Ok bftParams))
            (ac_height aggregateCommit)) with (Ok bftParams).
  cbv beta iota. rewrite W_bind_snd.
  change (resolveKeys (withBFTParameters env (fun _ => Ok bftParams)))
    with (resolveKeys env).
  rewrite (resolveKeys_value _ Hall).
  rewrite W_bind_snd. cbn [snd].
  rewrite (getSortedWeightsAndValidatorKeys_value _ _
             (map entry (BFT.validators bftParams)))
    by apply lookup_singleton_eq.
  reflexivity.
Qed.

(** X20. The outcome of the verification does not depend on the order in
    which the BFT parameters list the validators, when no two of them with
    different weights hold the same BLS key. *)
Theorem verifyCertificate_validators_order (aggregateCommit : AggregateCommit)
    (bftParams bftParams' : BFT.BFTParameters) :
  (forall v, v ∈ BFT.validators bftParams ->
     getValidatorAccount env (BFT.address v) = Ok (key (BFT.address v))) ->
  BFT.validators bftParams ≡ₚ BFT.validators bftParams' ->
  BFT.certificateThreshold bftParams = BFT.certificateThreshold bftParams' ->
  (forall v1 v2, v1 ∈ BFT.validators bftParams ->
     v2 ∈ BFT.validators bftParams ->
     key (BFT.address v1) = key (BFT.address v2) ->
     BFT.bftWeight v1 = BFT.bftWeight v2) ->
  (verifyCertificate (withBFTParameters env (fun _ => Ok bftParams'))
     aggregateCommit).2
  = (verifyCertificate (withBFTParameters env (fun _ => Ok bftParams))
       aggregateCommit).2.
Proof.
  intros Hall Hperm Hthreshold Hinj.
  rewrite !verifyCertificate_value; [|exact Hall|].
  2:{ intros v Hv. apply Hall. by rewrite Hperm. }
  destruct (getBlockHeaderByHeight env _) as [blockHeader|e]; [|reflexivity].
  destruct (computeCertificateFromBlockHeader blockHeader) as [computed|e];
    [|reflexivity].
  cbv zeta. rewrite <- Hthreshold.
  rewrite (SortFacts.sort_canonical blsKey
             (map entry (BFT.validators bftParams))
             (map entry (BFT.validators bftParams'))); [reflexivity| |].
  - by apply Permutation_map.
  - intros a b [v1 [-> Hv1]]%list_elem_of_fmap [v2 [-> Hv2]]%list_elem_of_fmap.
    cbn. intros Hkey. unfold entry. f_equal; [by apply Hinj|exact Hkey].
Qed.
End Order.

End CommitPoolOrderFacts.

(** ** The DPoS utilities: sorting, shuffling, picking, rounds *)

Module DPoSFacts.
Import DPoS.

Section Cmp.
Context {A : Type} (cmp : A -> A -> Z).

Lemma insert_cmp_Permutation (x : A) (l : list A) :
  JSArray.insert cmp x l ≡ₚ x :: l.
Proof.
  induction l as [|y l IH]; simpl; [reflexivity|].
  destruct (cmp x y <=? 0); [reflexivity|].
  rewrite IH. apply perm_swap.
Qed.

Lemma sort_cmp_Permutation (l : list A) : JSArray.sort cmp l ≡ₚ l.
Proof.
  induction l as [|x l IH]; simpl; [reflexivity|].
  rewrite insert_cmp_Permutation. by rewrite IH.
Qed.

(** A comparator that never puts two elements each after the other. *)
Hypothesis cmp_total : forall x y, 0 < cmp x y -> cmp y x <= 0.

Lemma insert_cmp_Sorted (x : A) (l : list A) :
  Sorted (cmpLe cmp) l -> Sorted (cmpLe cmp) (JSArray.insert cmp x l).
Proof.
  induction l as [|y l IH]; intros Hs; simpl.
  - repeat constructor.
  - destruct (Z.leb_spec (cmp x y) 0) as [Hle|Hgt].
    + constructor; [exact Hs | constructor; exact Hle].
    + apply Sorted_inv in Hs as [Hs Hhd].
      constructor; [auto|].
      assert (Hyx : cmpLe cmp y x) by (by apply cmp_total).
      destruct l as [|z l]; simpl.
      * constructor. exact Hyx.
      * destruct (cmp x z <=? 0); constructor; [exact Hyx|].
        by apply HdRel_inv in Hhd.
Qed.

Lemma sort_cmp_Sorted (l : list A) : Sorted (cmpLe cmp) (JSArray.sort cmp l).
Proof.
  induction l as [|x l IH]; simpl; [constructor|].
  by apply insert_cmp_Sorted.
Qed.

Hypothesis cmp_trans : Transitive (cmpLe cmp).
Hypothesis cmp_antisym : forall x y, cmp x y <= 0 -> cmp y x <= 0 -> x = y.

Lemma sort_cmp_canonical (l1 l2 : list A) :
  l1 ≡ₚ l2 -> JSArray.sort cmp l1 = JSArray.sort cmp l2.
Proof.
  intros Hp.
  apply (Sorted_unique_strong (cmpLe cmp)); try apply sort_cmp_Sorted.
  - intros a b _ _. apply cmp_antisym.
  - by rewrite !sort_cmp_Permutation.
Qed.

End Cmp.

Lemma Sorted_impl {A} (R R' : A -> A -> Prop) (l : list A) :
  (forall x y, R x y -> R' x y) -> Sorted R l -> Sorted R' l.
Proof.
  intros HR. induction 1 as [|x l Hs IH Hhd]; constructor; [exact IH|].
  destruct Hhd; constructor. by apply HR.
Qed.

Lemma compare_lt_trans (a b c : Buffer) :
  Buf.compare a b < 0 -> Buf.compare b c <= 0 -> Buf.compare a c < 0.
Proof.
  intros Hab Hbc.
  assert (Hac : Buf.compare a c <= 0)
    by (apply (BufFacts.compare_le_trans a b c); lia).
  destruct (Z.eq_dec (Buf.compare a c) 0) as [H0|]; [|lia].
  apply BufFacts.compare_eq in H0 as ->.
  rewrite (BufFacts.compare_antisym c b) in Hbc. lia.
Qed.

(** *** sortUnlocking *)

Lemma compareUnlocking_le (a b : UnlockingObject) :
  compareUnlocking a b <= 0 <-> unlockingLe a b.
Proof.
  unfold compareUnlocking, unlockingLe, Buf.equals.
  destruct (Z.eqb_spec (Buf.compare (delegateAddress a) (delegateAddress b)) 0)
    as [H0|Hne]; cbn [negb].
  - pose proof (BufFacts.compare_eq _ _ H0) as Heq.
    destruct (Z.eqb_spec (unvoteHeight a) (unvoteHeight b)) as [Hu|Hu]; cbn [negb].
    + cbv zeta.
      destruct (Z.gtb_spec (amount b - amount a) 0),
        (Z.ltb_spec (amount b - amount a) 0); split; intros; try lia;
        try (right; split; [exact Heq|right; lia]).
      all: destruct H1 as [?|[_ [?|[_ ?]]]]; lia.
    + split.
      * intros Hle. right. split; [exact Heq|left; lia].
      * intros [?|[_ [?|[? _]]]]; lia.
  - split.
    + intros Hle. left. lia.
    + intros [?|[Heq _]]; [lia|].
      rewrite Heq, BufFacts.compare_refl in Hne. lia.
Qed.

Lemma compareUnlocking_total (a b : UnlockingObject) :
  0 < compareUnlocking a b -> compareUnlocking b a <= 0.
Proof.
  intros Hgt. apply compareUnlocking_le.
  assert (Hn : ~ unlockingLe a b) by (rewrite <- compareUnlocking_le; lia).
  unfold unlockingLe in *.
  pose proof (BufFacts.compare_antisym (delegateAddress a) (delegateAddress b)) as Hanti.
  destruct (Z.eq_dec (Buf.compare (delegateAddress a) (delegateAddress b)) 0)
    as [H0|Hne].
  - apply BufFacts.compare_eq in H0 as Heq. right. split; [done|].
    destruct (Z.lt_trichotomy (unvoteHeight a) (unvoteHeight b)) as [?|[?|?]].
    + by left.
    + right. split; [done|].
      destruct (Z.le_gt_cases (amount a) (amount b)); [done|].
      exfalso. apply Hn. right. split; [done|]. right. lia.
    + exfalso. apply Hn. right. split; [done|]. by left.
  - left. destruct (Z.lt_trichotomy (Buf.compare (delegateAddress a) (delegateAddress b)) 0)
      as [?|[?|?]]; [|lia|lia].
    exfalso. apply Hn. by left.
Qed.

Lemma unlockingLe_trans : Transitive unlockingLe.
Proof.
  intros a b c [Hab|[Hab Hab']] [Hbc|[Hbc Hbc']].
  - left. apply (compare_lt_trans _ (delegateAddress b)); lia.
  - left. by rewrite <- Hbc.
  - left. by rewrite Hab.
  - right. split; [congruence|]. lia.
Qed.

Lemma unlockingLe_antisym (a b : UnlockingObject) :
  unlockingLe a b -> unlockingLe b a -> a = b.
Proof.
  pose proof (BufFacts.compare_antisym (delegateAddress a) (delegateAddress b)).
  intros [Hab|[Hab Hab']] [Hba|[Hba Hba']]; try lia.
  - rewrite Hba, BufFacts.compare_refl in Hab. lia.
  - rewrite Hab, BufFacts.compare_refl in Hba. lia.
  - destruct a, b; cbn in *. f_equal; [done|lia|lia].
Qed.

(** X21. [sortUnlocking] rearranges the array into ascending address, then
    descending unvote height, then descending amount; the outcome does not
    depend on the order the entries came in. *)
Theorem sortUnlocking_sorts (unlocks : list UnlockingObject) :
  sortUnlocking unlocks ≡ₚ unlocks
  /\ Sorted unlockingLe (sortUnlocking unlocks)
  /\ (forall unlocks', unlocks ≡ₚ unlocks' ->
        sortUnlocking unlocks' = sortUnlocking unlocks).
Proof.
  split; [apply sort_cmp_Permutation|]. split.
  - apply (Sorted_impl (cmpLe compareUnlocking)).
    + intros x y. apply compareUnlocking_le.
    + apply sort_cmp_Sorted. apply compareUnlocking_total.
  - intros unlocks' Hp. symmetry. apply sort_cmp_canonical; [| | |exact Hp].
    + apply compareUnlocking_total.
    + intros x y z Hxy Hyz. apply compareUnlocking_le.
      apply (unlockingLe_trans x y z); by apply compareUnlocking_le.
    + intros x y Hxy Hyx. apply unlockingLe_antisym; by apply compareUnlocking_le.
Qed.

(** *** shuffleValidatorsList *)

Lemma compareShuffle_le (a b : ShuffleEntry) :
  compareShuffle a b <= 0 <-> shuffleLe a b.
Proof.
  unfold compareShuffle, shuffleLe. cbv zeta.
  destruct (Z.eqb_spec (Buf.compare (roundHash a) (roundHash b)) 0) as [H0|Hne];
    cbn [negb].
  - pose proof (BufFacts.compare_eq _ _ H0). split.
    + intros Hle. by right.
    + intros [?|[_ ?]]; lia.
  - split.
    + intros Hle. left. lia.
    + intros [?|[Heq _]]; [lia|].
      rewrite Heq, BufFacts.compare_refl in Hne. lia.
Qed.

Lemma compareShuffle_total (a b : ShuffleEntry) :
  0 < compareShuffle a b -> compareShuffle b a <= 0.
Proof.
  unfold compareShuffle. cbv zeta.
  rewrite (BufFacts.compare_antisym (roundHash a) (roundHash b)).
  rewrite (BufFacts.compare_antisym (se_address a) (se_address b)).
  destruct (Z.eqb_spec (Buf.compare (roundHash a) (roundHash b)) 0) as [H0|Hne],
    (Z.eqb_spec (- Buf.compare (roundHash a) (roundHash b)) 0) as [H1|Hne1];
    cbn [negb]; lia.
Qed.

Lemma shuffleLe_trans : Transitive shuffleLe.
Proof.
  intros a b c [Hab|[Hab Hab']] [Hbc|[Hbc Hbc']].
  - left. apply (compare_lt_trans _ (roundHash b)); lia.
  - left. by rewrite <- Hbc.
  - left. by rewrite Hab.
  - right. split; [congruence|].
    by apply (BufFacts.compare_le_trans _ (se_address b)).
Qed.

Lemma shuffleLe_antisym (a b : ShuffleEntry) :
  shuffleLe a b -> shuffleLe b a -> a = b.
Proof.
  pose proof (BufFacts.compare_antisym (roundHash a) (roundHash b)).
  pose proof (BufFacts.compare_antisym (se_address a) (se_address b)).
  intros [Hab|[Hab Hab']] [Hba|[Hba Hba']]; try lia.
  - rewrite Hba, BufFacts.compare_refl in Hab. lia.
  - rewrite Hab, BufFacts.compare_refl in Hba. lia.
  - destruct a, b; cbn in *. f_equal; [|done].
    apply BufFacts.compare_eq. lia.
Qed.

Section WithHash.
Variable hash : Buffer -> Buffer.

(** X22. [shuffleValidatorsList] returns the addresses it was given, each as
    often as it came, in ascending order of the hash of seed and address;
    the outcome does not depend on the order of the addresses. *)
Theorem shuffleValidatorsList_shuffles (addresses : list Buffer)
    (randomSeed : Buffer) :
  shuffleValidatorsList hash addresses randomSeed ≡ₚ addresses
  /\ Sorted (fun a b => Buf.compare (hash (randomSeed ++ a))
                          (hash (randomSeed ++ b)) <= 0)
       (shuffleValidatorsList hash addresses randomSeed)
  /\ (forall addresses', addresses ≡ₚ addresses' ->
        shuffleValidatorsList hash addresses' randomSeed
        = shuffleValidatorsList hash addresses randomSeed).
Proof.
  unfold shuffleValidatorsList. cbv zeta.
  set (entry := fun delegate => mkShuffleEntry delegate (hash (randomSeed ++ delegate))).
  assert (Htotal := compareShuffle_total).
  split; [|split].
  - rewrite sort_cmp_Permutation. rewrite map_map. cbn. by rewrite map_id.
  - assert (Hs : Sorted shuffleLe (JSArray.sort compareShuffle (map entry addresses))).
    { apply (Sorted_impl (cmpLe compareShuffle)).
      - intros x y. apply compareShuffle_le.
      - by apply sort_cmp_Sorted. }
    assert (Hall : Forall (fun e => roundHash e = hash (randomSeed ++ se_address e))
                     (JSArray.sort compareShuffle (map entry addresses))).
    { rewrite sort_cmp_Permutation. apply Forall_forall.
      intros e [a [-> _]]%list_elem_of_fmap. reflexivity. }
    induction Hs as [|e l Hs IH Hhd]; [constructor|].
    apply Forall_cons in Hall as [He Hl]. cbn [map].
    constructor; [by apply IH|].
    destruct Hhd as [|e' l' Hee']; [constructor|]. cbn [map]. constructor.
    apply Forall_cons in Hl as [He' _]. rewrite <- He, <- He'.
    destruct Hee' as [?|[-> _]]; [lia|]. by rewrite BufFacts.compare_refl.
  - intros addresses' Hp. f_equal. symmetry.
    apply sort_cmp_canonical; [exact Htotal| | |by apply Permutation_map].
    + intros x y z Hxy Hyz. apply compareShuffle_le.
      apply (shuffleLe_trans x y z); by apply compareShuffle_le.
    + intros x y Hxy Hyx. apply shuffleLe_antisym; by apply compareShuffle_le.
Qed.
End WithHash.

(** *** isEndOfRound *)

Lemma rem_zero_divide (a b : Z) : b <> 0 -> (Z.rem a b = 0 <-> (b | a)).
Proof. intros Hb. by apply Z.rem_divide. Qed.

(** X23. A height ends a round exactly when its distance from the genesis
    height is a multiple of the round length, below the genesis height too;
    with a round length of 0 no height does. Every window of [roundLength]
    consecutive heights holds exactly one such height. At such a height,
    k round lengths from the genesis height, the round number computed is
    (k - 1) times the round length. *)
Theorem isEndOfRound_multiples (height genesisHeight roundLength : Z) :
  (isEndOfRound height genesisHeight roundLength = true
   <-> roundLength <> 0 /\ (roundLength | height - genesisHeight))
  /\ (0 < roundLength ->
      exists h, (height <= h < height + roundLength
                 /\ isEndOfRound h genesisHeight roundLength = true)
                /\ forall h', height <= h' < height + roundLength ->
                     isEndOfRound h' genesisHeight roundLength = true -> h' = h)
  /\ (isEndOfRound height genesisHeight roundLength = true ->
      exists k, height - genesisHeight = k * roundLength
                /\ getRoundNumber height genesisHeight roundLength
                   = (k - 1) * roundLength).
Proof.
  assert (Hiff : forall h r, isEndOfRound h genesisHeight r = true
                   <-> r <> 0 /\ (r | h - genesisHeight)).
  { intros h r. unfold isEndOfRound.
    destruct (Z.eqb_spec r 0) as [->|Hr]; [split; [discriminate|tauto]|].
    rewrite Z.eqb_eq, rem_zero_divide by done. tauto. }
  split; [apply Hiff|]. split.
  - intros Hr.
    exists (height + (genesisHeight - height) mod roundLength).
    pose proof (Z.mod_pos_bound (genesisHeight - height) roundLength Hr) as Hm.
    split; [split; [lia|]|].
    + apply Hiff. split; [lia|].
      exists (- ((genesisHeight - height) / roundLength)).
      pose proof (Z.div_mod (genesisHeight - height) roundLength). lia.
    + intros h' Hh' [_ [k Hk]]%Hiff.
      pose proof (Z.div_mod (genesisHeight - height) roundLength) as Hdm.
      set (q := (genesisHeight - height) / roundLength) in *.
      set (m := (genesisHeight - height) mod roundLength) in *.
      assert (h' - (height + m) = (k + q) * roundLength) by lia.
      assert (- roundLength < h' - (height + m) < roundLength) by lia.
      assert (k + q = 0) by nia. nia.
  - intros [_ [k Hk]]%Hiff. exists k. split; [exact Hk|].
    unfold getRoundNumber. lia.
Qed.

(** *** pickStandByDelegate *)

Lemma fold_left_sumWeights (entries : list (Buffer * Z)) (acc : Z) :
  fold_left (fun prev current => prev + current.2) entries acc
  = acc + sumWeights entries.
Proof.
  revert acc. induction entries as [|e entries IH]; intros acc; cbn; [lia|].
  rewrite IH. unfold sumWeights. lia.
Qed.

Lemma be_value_nonneg_from (l : Buffer) (acc : Z) :
  Forall (fun x => 0 <= x) l -> 0 <= acc ->
  0 <= fold_left (fun acc x => acc * 256 + x) l acc.
Proof.
  intros Hl. revert acc. induction Hl as [|x l Hx _ IH]; intros acc Hacc; cbn;
    [exact Hacc|]. apply IH. lia.
Qed.

Lemma pickFrom_spec (entries : list (Buffer * Z)) (threshold : Z) :
  Forall (fun entry => 0 <= entry.2) entries ->
  0 <= threshold < sumWeights entries ->
  exists before address weight after,
    entries = before ++ (address, weight) :: after
    /\ pickFrom entries threshold = address
    /\ sumWeights before <= threshold < sumWeights before + weight.
Proof.
  intros Hpos. revert threshold.
  induction Hpos as [|[a w] entries Hw _ IH]; intros threshold Ht; cbn in *; [lia|].
  destruct (Z.gtb_spec w threshold) as [Hgt|Hle].
  - exists [], a, w, entries. cbn. repeat split; (reflexivity || lia).
  - destruct (IH (threshold - w)) as (before & a' & w' & after & -> & Hpick & Hsum);
      [unfold sumWeights in *; lia|].
    exists ((a, w) :: before), a', w', after.
    split; [reflexivity|]. split; [exact Hpick|].
    unfold sumWeights in *. cbn. lia.
Qed.

(** X24. With non-negative weights that are not all 0 and a seed of at least
    8 bytes, the delegate picked is the entry at which the running sum of
    the weights passes the first 8 bytes of the seed, read as a number and
    reduced below the total weight. *)
Theorem pickStandByDelegate_picks (delegateWeightEntries : list (Buffer * Z))
    (randomSeed : Buffer) :
  Forall (fun entry => 0 <= entry.2) delegateWeightEntries ->
  0 < sumWeights delegateWeightEntries ->
  (8 <= length randomSeed)%nat ->
  Forall (fun byte => 0 <= byte < 256) randomSeed ->
  let threshold :=
    Buf.be_value (take 8 randomSeed) mod sumWeights delegateWeightEntries in
  exists before address weight after,
    delegateWeightEntries = before ++ (address, weight) :: after
    /\ pickStandByDelegate delegateWeightEntries randomSeed = Ok address
    /\ sumWeights before <= threshold < sumWeights before + weight.
Proof.
  intros Hpos Htotal Hlen Hbytes threshold.
  assert (Hseed : 0 <= Buf.be_value (take 8 randomSeed)).
  { apply be_value_nonneg_from; [|lia].
    apply Forall_take. eapply Forall_impl; [exact Hbytes|]. cbn. lia. }
  destruct (pickFrom_spec delegateWeightEntries threshold Hpos)
    as (before & a & w & after & Heq & Hpick & Hsum).
  { apply Z.mod_pos_bound. lia. }
  exists before, a, w, after. split; [exact Heq|]. split; [|exact Hsum].
  unfold pickStandByDelegate, readBigUInt64BE.
  destruct (Nat.ltb_spec (length randomSeed) 8); [lia|].
  cbn [mbind result_bind]. rewrite fold_left_sumWeights, Z.add_0_l.
  unfold bigIntRem. destruct (Z.eqb_spec (sumWeights delegateWeightEntries) 0); [lia|].
  cbn [mbind result_bind mret result_ret]. rewrite Z.rem_mod_nonneg by lia.
  fold threshold. by rewrite Hpick.
Qed.

(** X25. A seed shorter than 8 bytes, or weights that sum to 0 (no entry at
    all, for one), make the call throw a RangeError. *)
Theorem pickStandByDelegate_throws (delegateWeightEntries : list (Buffer * Z))
    (randomSeed : Buffer) :
  (length randomSeed < 8)%nat \/ sumWeights delegateWeightEntries = 0 ->
  pickStandByDelegate delegateWeightEntries randomSeed = Throw RangeError.
Proof.
  intros Hor. unfold pickStandByDelegate, readBigUInt64BE.
  destruct (Nat.ltb_spec (length randomSeed) 8) as [|Hge]; [reflexivity|].
  destruct Hor as [?|H0]; [lia|].
  cbn [mbind result_bind]. rewrite fold_left_sumWeights, Z.add_0_l, H0.
  reflexivity.
Qed.

(** *** The punishment period *)

Lemma maxOf_spec (first : Z) (rest : list Z) :
  maxOf first rest ∈ first :: rest
  /\ forall h, h ∈ first :: rest -> h <= maxOf first rest.
Proof.
  unfold maxOf. revert first. induction rest as [|x rest IH]; intros first; cbn.
  - split; [left|]. by intros h ->%list_elem_of_singleton.
  - destruct (IH (Z.max first x)) as [Hin Hle]. split.
    + apply elem_of_cons in Hin as [Heq|Hin]; [|by do 2 right].
      rewrite Heq. destruct (Z.max_spec first x) as [[_ ->]|[_ ->]];
        [right; left|left].
    + intros h Hh. apply elem_of_cons in Hh as [->|Hh].
      * pose proof (Hle (Z.max first x) ltac:(left)). lia.
      * apply elem_of_cons in Hh as [->|Hh].
        -- pose proof (Hle (Z.max first x) ltac:(left)). lia.
        -- apply Hle. by right.
Qed.

Lemma maxOf_Permutation (first first' : Z) (rest rest' : list Z) :
  first :: rest ≡ₚ first' :: rest' -> maxOf first rest = maxOf first' rest'.
Proof.
  intros Hp.
  destruct (maxOf_spec first rest) as [Hin Hle].
  destruct (maxOf_spec first' rest') as [Hin' Hle'].
  rewrite Hp in Hin. rewrite <- Hp in Hin'.
  specialize (Hle _ Hin'). specialize (Hle' _ Hin). lia.
Qed.

Section WithConstants.
Variables SELF_VOTE_PUNISH_TIME VOTER_PUNISH_TIME PUNISHMENT_PERIOD : Z.

Abbreviation getPunishmentPeriod :=
  (DPoS.getPunishmentPeriod SELF_VOTE_PUNISH_TIME VOTER_PUNISH_TIME).

(** X26. The punishment period is never negative, goes down by one with
    every block until it is 0, and does not depend on the order of the PoM
    heights. *)
Theorem getPunishmentPeriod_countdown (senderAddress delegateAddress : Buffer)
    (pomHeights : list Z) (lastBlockHeight : Z) :
  0 <= getPunishmentPeriod senderAddress delegateAddress pomHeights lastBlockHeight
  /\ getPunishmentPeriod senderAddress delegateAddress pomHeights (lastBlockHeight + 1)
     = Z.max 0
         (getPunishmentPeriod senderAddress delegateAddress pomHeights lastBlockHeight - 1)
  /\ (forall pomHeights', pomHeights ≡ₚ pomHeights' ->
        getPunishmentPeriod senderAddress delegateAddress pomHeights' lastBlockHeight
        = getPunishmentPeriod senderAddress delegateAddress pomHeights lastBlockHeight).
Proof.
  unfold DPoS.getPunishmentPeriod. cbv zeta.
  set (m := getMinPunishedHeight _ _ senderAddress delegateAddress pomHeights).
  split; [|split].
  - destruct (Z.ltb_spec (m - (lastBlockHeight + 1)) 0); lia.
  - destruct (Z.ltb_spec (m - (lastBlockHeight + 1 + 1)) 0),
      (Z.ltb_spec (m - (lastBlockHeight + 1)) 0); lia.
  - intros pomHeights' Hp.
    assert (Hm : getMinPunishedHeight SELF_VOTE_PUNISH_TIME VOTER_PUNISH_TIME
                   senderAddress delegateAddress pomHeights' = m); [|by rewrite Hm].
    unfold m, getMinPunishedHeight.
    destruct pomHeights as [|first rest], pomHeights' as [|first' rest'].
    + reflexivity.
    + by apply Permutation_nil_cons in Hp.
    + symmetry in Hp. by apply Permutation_nil_cons in Hp.
    + cbv zeta. by rewrite (maxOf_Permutation first first' rest rest' Hp).
Qed.

(** X27. A delegate counts as punished exactly when one of its PoM heights
    is less than PUNISHMENT_PERIOD below the height, a PoM height above the
    height included. *)
Theorem isCurrentlyPunished_some_pom (height : Z) (pomHeights : list Z) :
  isCurrentlyPunished PUNISHMENT_PERIOD height pomHeights = true
  <-> exists h, h ∈ pomHeights /\ height - h < PUNISHMENT_PERIOD.
Proof.
  unfold isCurrentlyPunished. destruct pomHeights as [|first rest].
  { split; [discriminate|]. intros (h & Hh & _). by apply elem_of_nil in Hh. }
  cbv zeta. destruct (maxOf_spec first rest) as [Hin Hle].
  destruct (Z.ltb_spec (height - maxOf first rest) PUNISHMENT_PERIOD) as [Hlt|Hge].
  - split; [|done]. intros _. by exists (maxOf first rest).
  - split; [discriminate|]. intros (h & Hh & Hlt). specialize (Hle h Hh). lia.
Qed.

End WithConstants.

End DPoSFacts.

(** ** The properties on the sample inputs *)

Lemma isAppendPath_testbit_witness :
  (0 <= 5 < 2 ^ 31 /\ 1 <= 3 <= 31)
  /\ MerkleTree.isAppendPath 5 3 = Z.testbit 5 2.
Proof.
  assert (H1 : 0 <= 5 < 2 ^ 31) by lia.
  assert (H2 : 1 <= 3 <= 31) by lia.
  split; [by split|].
  exact (MerkleTreeArenaFacts.isAppendPath_testbit 5 3 H1 H2).
Defined.

Lemma new_complete_root_witness :
  exists s,
    Samples.new [[97]; [98]] = (s, Ok tt)
    /\ MerkleTree._root s
       = MerkleTreeModel.completeRoot Samples.sampleHash Samples.BRANCH_PREFIX 1
           (MerkleTreeModel.leafHashes Samples.sampleHash Samples.LEAF_PREFIX
              [[97]; [98]]).
Proof.
  assert (Hk : (1 <= 64)%nat) by lia.
  exact (MerkleTreeArenaFacts.new_complete_root Samples.sampleHash
           Samples.EMPTY_HASH Samples.LEAF_PREFIX Samples.BRANCH_PREFIX
           1 [[97]; [98]] Hk eq_refl).
Defined.

Lemma getNode_of_generated_branch_witness :
  let l := Samples.sampleHash [1] in
  let r := Samples.sampleHash [2] in
  (length l = 32%nat /\ length r = 32%nat)
  /\ exists s1 node info,
       MerkleTree._generateNode Samples.sampleHash Samples.BRANCH_PREFIX
         l r 5 3 (Samples.new []).1 = (s1, Ok node)
       /\ MerkleTree.getNode Samples.LEAF_PREFIX (MerkleTree.nd_hash node) s1
          = (s1, Ok info)
       /\ MerkleTree.ni_leftHash info = l
       /\ MerkleTree.ni_rightHash info = r
       /\ MerkleTree.ni_layerIndex info = 1.
Proof.
  cbv zeta.
  assert (Hl : length (Samples.sampleHash [1]) = 32%nat) by (vm_compute; reflexivity).
  assert (Hr : length (Samples.sampleHash [2]) = 32%nat) by (vm_compute; reflexivity).
  assert (Hp : Samples.LEAF_PREFIX <> [1]) by discriminate.
  assert (Hlayer : -128 <= 5 <= 127) by lia.
  assert (Hnode : - 2 ^ 63 <= 3 <= 2 ^ 63 - 1) by lia.
  assert (Hroot : MerkleTree._root (Samples.new []).1
                  <> Samples.sampleHash (Samples.BRANCH_PREFIX
                       ++ Samples.sampleHash [1] ++ Samples.sampleHash [2]))
    by (vm_compute; discriminate).
  split; [by split|].
  destruct (MerkleTreeArenaFacts.getNode_of_generated_branch Samples.sampleHash
              Samples.LEAF_PREFIX Samples.BRANCH_PREFIX
              (Samples.sampleHash [1]) (Samples.sampleHash [2]) 5 3 1
              (Samples.new []).1 eq_refl Hp Hl Hr Hlayer Hnode Hroot)
    as (s1 & node & info & Hgen & Hget & _ & _ & Hleft & Hright & Hindex).
  exists s1, node, info. repeat split; assumption.
Defined.

Lemma setBFTParameters_stored_entry_witness :
  let vs := [BFT.mkValidator [2] 2; BFT.mkValidator [1] 1] in
  let s' := (Samples.setBFTParameters 2 2 vs Samples.sampleStores).1 in
  Samples.setBFTParameters 2 2 vs Samples.sampleStores = (s', Ok tt)
  /\ exists bftParams,
       BFT.paramsStore s' !! 10 = Some bftParams
       /\ BFT.prevoteThreshold bftParams = 3.
Proof.
  cbv zeta.
  assert (Hrun : Samples.setBFTParameters 2 2
                   [BFT.mkValidator [2] 2; BFT.mkValidator [1] 1]
                   Samples.sampleStores
                 = ((Samples.setBFTParameters 2 2
                       [BFT.mkValidator [2] 2; BFT.mkValidator [1] 1]
                       Samples.sampleStores).1, Ok tt))
    by (vm_compute; reflexivity).
  split; [exact Hrun|].
  destruct (BFTStoreFacts.setBFTParameters_stored_entry 10 Samples.sampleAccount
              Samples.sampleEncode Samples.sampleHash 2 2 _ _ _ Hrun)
    as (nextHeight & bftParams & Hnext & Hstored & _ & _ & _ & _ & Hprevote & Hle).
  injection Hnext as <-. exists bftParams. split; [exact Hstored|].
  cbn in Hprevote, Hle. lia.
Defined.

Lemma setBFTParameters_frame_witness :
  let vs := [BFT.mkValidator [2] 2; BFT.mkValidator [1] 1] in
  let s' := (Samples.setBFTParameters 2 2 vs Samples.sampleStores).1 in
  Samples.setBFTParameters 2 2 vs Samples.sampleStores = (s', Ok tt)
  /\ BFTQueries.existBFTParameters 10 s' = (s', Ok true)
  /\ BFT.nextHeightOf s' = Some 10.
Proof.
  cbv zeta.
  assert (Hrun : Samples.setBFTParameters 2 2
                   [BFT.mkValidator [2] 2; BFT.mkValidator [1] 1]
                   Samples.sampleStores
                 = ((Samples.setBFTParameters 2 2
                       [BFT.mkValidator [2] 2; BFT.mkValidator [1] 1]
                       Samples.sampleStores).1, Ok tt))
    by (vm_compute; reflexivity).
  split; [exact Hrun|].
  destruct (BFTStoreFacts.setBFTParameters_frame 10 Samples.sampleAccount
              Samples.sampleEncode Samples.sampleHash 2 2 _ _ _ Hrun)
    as (nextHeight & Hnext & Hnext' & _ & _ & Hexists & _).
  injection Hnext as <-. by split.
Defined.

Lemma setBFTParameters_voteInfo_witness :
  let vs := [BFT.mkValidator [2] 2; BFT.mkValidator [1] 1] in
  let s' := (Samples.setBFTParameters 2 2 vs Samples.sampleStores).1 in
  Samples.setBFTParameters 2 2 vs Samples.sampleStores = (s', Ok tt)
  /\ exists bftVotes',
       BFT.votesStore s' = Some bftVotes'
       /\ map BFT.vi_address (BFT.activeValidatorsVoteInfo bftVotes')
          ≡ₚ [[2]; [1]].
Proof.
  cbv zeta.
  assert (Hrun : Samples.setBFTParameters 2 2
                   [BFT.mkValidator [2] 2; BFT.mkValidator [1] 1]
                   Samples.sampleStores
                 = ((Samples.setBFTParameters 2 2
                       [BFT.mkValidator [2] 2; BFT.mkValidator [1] 1]
                       Samples.sampleStores).1, Ok tt))
    by (vm_compute; reflexivity).
  split; [exact Hrun|].
  destruct (BFTStoreFacts.setBFTParameters_voteInfo 10 Samples.sampleAccount
              Samples.sampleEncode Samples.sampleHash 2 2 _ _ _ Hrun)
    as (nextHeight & bftVotes & bftVotes' & _ & _ & Hvotes' & Haddr & _).
  exists bftVotes'. by split.
Defined.

Lemma impliesMaximalPrevotes_contiguous_witness :
  BFTQueries.contiguous (BFT.blockBFTInfos Samples.sampleVotes)
  /\ BFT.impliesMaximalPrevotes (BFT.mkBlockHeader [5] 10 [2] 8 7)
       Samples.sampleStores
     = (Samples.sampleStores, Ok true).
Proof.
  assert (Hcont : BFTQueries.contiguous (BFT.blockBFTInfos Samples.sampleVotes)).
  { intros lastHeader i info [= <-] Hi.
    destruct i as [|[|i]]; cbn in Hi; [| |discriminate];
      injection Hi as <-; reflexivity. }
  split; [exact Hcont|].
  destruct (BFTStoreFacts.impliesMaximalPrevotes_contiguous Samples.sampleStores
              Samples.sampleVotes (BFT.mkBlockBFTInfo 9 [1] 8 7)
              (BFT.mkBlockHeader [5] 10 [2] 8 7) eq_refl eq_refl Hcont)
    as (b & Hrun & Hiff).
  rewrite Hrun. f_equal. f_equal. apply Hiff.
  split; [reflexivity|]. split; [reflexivity|].
  intros info Hin Hheight. cbn in Hin.
  repeat match goal with
         | H : _ ∈ _ :: _ |- _ => apply elem_of_cons in H as [->|H]
         | H : _ ∈ [] |- _ => by apply elem_of_nil in H
         end; [discriminate|reflexivity].
Defined.

Lemma setBFTParameters_then_getNextHeight_witness :
  let vs := [BFT.mkValidator [2] 2; BFT.mkValidator [1] 1] in
  let s' := (Samples.setBFTParameters 2 2 vs Samples.sampleStores).1 in
  Samples.setBFTParameters 2 2 vs Samples.sampleStores = (s', Ok tt)
  /\ BFTQueries.getNextHeightBFTParameters 9 s' = (s', Ok 10).
Proof.
  cbv zeta.
  assert (Hrun : Samples.setBFTParameters 2 2
                   [BFT.mkValidator [2] 2; BFT.mkValidator [1] 1]
                   Samples.sampleStores
                 = ((Samples.setBFTParameters 2 2
                       [BFT.mkValidator [2] 2; BFT.mkValidator [1] 1]
                       Samples.sampleStores).1, Ok tt))
    by (vm_compute; reflexivity).
  assert (Hmax : 10 <= BFTQueries.MAX_UINT32) by (unfold BFTQueries.MAX_UINT32; lia).
  split; [exact Hrun|].
  exact (BFTLookupFacts.setBFTParameters_then_getNextHeight 10
           Samples.sampleAccount Samples.sampleEncode Samples.sampleHash 2 2
           _ _ _ 10 Hrun eq_refl Hmax).
Defined.

Lemma verifyAggregateCommit_expiry_witness :
  let env := CommitPool.withNextHeight Samples.sampleEnv (fun _ => Ok 13) in
  CommitPool.getNextHeightBFTParameters env 11 = Ok 13
  /\ CommitPool.verifyAggregateCommit env (CommitPool.mkAggregateCommit 15 [1] [1])
     = ([CommitPool.CallGetBFTHeights;
         CommitPool.CallGetNextHeightBFTParameters 11], Ok false).
Proof.
  cbv zeta. split; [reflexivity|].
  assert (Hb : [1] <> @nil Z) by discriminate.
  assert (Hh : 10 < 15 <= 20) by lia.
  assert (Hnext : 13 <= 15) by lia.
  exact (proj1 (CommitPoolOrderFacts.verifyAggregateCommit_expiry
                  (CommitPool.withNextHeight Samples.sampleEnv (fun _ => Ok 13))
                  (CommitPool.mkAggregateCommit 15 [1] [1])
                  (BFT.mkBFTHeights 30 20 10) 13 eq_refl Hb Hb Hh eq_refl)
           Hnext).
Defined.

Lemma verifyCertificate_validators_order_witness :
  let bftParams :=
    BFT.mkBFTParameters 3 2 2 [BFT.mkValidator [2] 2; BFT.mkValidator [1] 1] [] in
  let bftParams' :=
    BFT.mkBFTParameters 3 2 2 [BFT.mkValidator [1] 1; BFT.mkValidator [2] 2] [] in
  BFT.validators bftParams ≡ₚ BFT.validators bftParams'
  /\ (CommitPool.verifyCertificate
        (CommitPoolModel.withBFTParameters Samples.sampleEnv (fun _ => Ok bftParams'))
        (CommitPool.mkAggregateCommit 15 [1] [1])).2
     = (CommitPool.verifyCertificate
          (CommitPoolModel.withBFTParameters Samples.sampleEnv (fun _ => Ok bftParams))
          (CommitPool.mkAggregateCommit 15 [1] [1])).2.
Proof.
  cbv zeta.
  assert (Hperm : [BFT.mkValidator [2] 2; BFT.mkValidator [1] 1]
                  ≡ₚ [BFT.mkValidator [1] 1; BFT.mkValidator [2] 2])
    by apply perm_swap.
  split; [exact Hperm|].
  refine (CommitPoolOrderFacts.verifyCertificate_validators_order
            Samples.sampleEnv (fun a => a)
            (CommitPool.mkAggregateCommit 15 [1] [1])
            (BFT.mkBFTParameters 3 2 2
               [BFT.mkValidator [2] 2; BFT.mkValidator [1] 1] [])
            (BFT.mkBFTParameters 3 2 2
               [BFT.mkValidator [1] 1; BFT.mkValidator [2] 2] [])
            _ Hperm eq_refl _).
  - intros v _. reflexivity.
  - intros v1 v2 H1 H2 Hk. cbn in H1, H2.
    repeat match goal with
           | H : _ ∈ _ :: _ |- _ => apply elem_of_cons in H as [->|H]
           | H : _ ∈ [] |- _ => by apply elem_of_nil in H
           end; try reflexivity; discriminate.
Defined.

Lemma getSortedWeightsAndValidatorKeys_order_witness :
  let entries' := [CommitPool.mkKeyWithWeight 3 [1];
                   CommitPool.mkKeyWithWeight 5 [2; 1];
                   CommitPool.mkKeyWithWeight 7 [1; 9]] in
  let heap' : gmap nat (list CommitPool.KeyWithWeight) := {[ 0%nat := entries' ]} in
  heap' !! 0%nat = Some entries'
  /\ (CommitPool.getSortedWeightsAndValidatorKeys 0 heap').2
     = (CommitPool.getSortedWeightsAndValidatorKeys 4 Samples.sampleHeap).2.
Proof.
  cbv zeta.
  match goal with |- ?lookup = _ /\ _ =>
    assert (Hlook : lookup = Some [CommitPool.mkKeyWithWeight 3 [1];
                                   CommitPool.mkKeyWithWeight 5 [2; 1];
                                   CommitPool.mkKeyWithWeight 7 [1; 9]])
      by apply lookup_singleton_eq
  end.
  split; [exact Hlook|].
  refine (CommitPoolOrderFacts.getSortedWeightsAndValidatorKeys_order
            Samples.sampleHeap _ 4 0
            [CommitPool.mkKeyWithWeight 5 [2; 1];
             CommitPool.mkKeyWithWeight 7 [1; 9];
             CommitPool.mkKeyWithWeight 3 [1]]
            [CommitPool.mkKeyWithWeight 3 [1];
             CommitPool.mkKeyWithWeight 5 [2; 1];
             CommitPool.mkKeyWithWeight 7 [1; 9]]
            eq_refl Hlook _ _).
  - symmetry. apply Permutation_cons_append.
  - intros a b Ha Hb Hk.
    repeat match goal with
           | H : _ ∈ _ :: _ |- _ => apply elem_of_cons in H as [->|H]
           | H : _ ∈ [] |- _ => by apply elem_of_nil in H
           end; try reflexivity; discriminate.
Defined.

Lemma pickStandByDelegate_picks_witness :
  let entries := [([1], 2); ([2], 3)] in
  let seed := [0; 0; 0; 0; 0; 0; 0; 4] in
  0 < DPoS.sumWeights entries
  /\ exists before address weight after,
       entries = before ++ (address, weight) :: after
       /\ DPoS.pickStandByDelegate entries seed = Ok address
       /\ DPoS.sumWeights before <= 4 < DPoS.sumWeights before + weight.
Proof.
  cbv zeta.
  assert (Hpos : Forall (fun entry : Buffer * Z => 0 <= entry.2)
                   [([1], 2); ([2], 3)])
    by (repeat constructor; cbn; lia).
  assert (Htotal : 0 < DPoS.sumWeights [([1], 2); ([2], 3)]) by (cbn; lia).
  assert (Hlen : (8 <= length [0; 0; 0; 0; 0; 0; 0; 4])%nat) by (cbn; lia).
  assert (Hbytes : Forall (fun byte => 0 <= byte < 256) [0; 0; 0; 0; 0; 0; 0; 4])
    by (repeat constructor; lia).
  split; [exact Htotal|].
  exact (DPoSFacts.pickStandByDelegate_picks [([1], 2); ([2], 3)]
           [0; 0; 0; 0; 0; 0; 0; 4] Hpos Htotal Hlen Hbytes).
Defined.

Lemma pickStandByDelegate_throws_witness :
  DPoS.sumWeights [] = 0
  /\ DPoS.pickStandByDelegate [] [0; 0; 0; 0; 0; 0; 0; 4] = Throw RangeError.
Proof.
  split; [reflexivity|].
  exact (DPoSFacts.pickStandByDelegate_throws [] [0; 0; 0; 0; 0; 0; 0; 4]
           (or_intror eq_refl)).
Defined.

Lemma new_returns_witness :
  Z.of_nat (length [[97]; [98]; [99]]) < 2 ^ 63
  /\ exists s,
       Samples.new [[97]; [98]; [99]] = (s, Ok tt)
       /\ MerkleTreeModel.known s (MerkleTree._root s).
Proof.
  assert (Hne : [[97]; [98]; [99]] <> @nil Buffer) by discriminate.
  assert (Hlen : Z.of_nat (length [[97]; [98]; [99]]) < 2 ^ 63) by (cbn; lia).
  split; [exact Hlen|].
  exact (MerkleTreeArenaFacts.new_returns Samples.sampleHash Samples.EMPTY_HASH
           Samples.LEAF_PREFIX Samples.BRANCH_PREFIX [[97]; [98]; [99]] Hne Hlen).
Defined.

Lemma getNode_reads_only_witness :
  let s := (Samples.new [[97]]).1 in
  let h := Samples.sampleHash [1] in
  (length h = 32%nat /\ MerkleTreeModel.digestKeys s)
  /\ (MerkleTree.getNode Samples.LEAF_PREFIX h s).1 = s
  /\ (MerkleTree.getNode Samples.LEAF_PREFIX h s).2 = Throw (HashNotFound h).
Proof.
  cbv zeta.
  assert (Hhash : forall b, length (Samples.sampleHash b) = 32%nat)
    by (intros b; apply MerkleTreeArenaFacts.be_bytes_length).
  assert (Hkeys : MerkleTreeModel.digestKeys (Samples.new [[97]]).1).
  { apply (MerkleTreeArenaFacts.reachable_digestKeys Samples.sampleHash
             Samples.EMPTY_HASH Samples.LEAF_PREFIX Samples.BRANCH_PREFIX);
      [exact Hhash|].
    exact (MerkleTreeModel.reachable_new Samples.sampleHash Samples.EMPTY_HASH
             Samples.LEAF_PREFIX Samples.BRANCH_PREFIX [[97]] eq_refl). }
  split; [split; [apply Hhash|exact Hkeys]|].
  destruct (MerkleTreeArenaFacts.getNode_reads_only Samples.LEAF_PREFIX
              (Samples.sampleHash [1]) (Samples.new [[97]]).1
              (Hhash [1]) Hkeys) as (Hstate & Hunknown & _).
  split; [exact Hstate|]. apply Hunknown. vm_compute. reflexivity.
Defined.

Lemma arena_contentAddressed_witness :
  let s := (Samples.append [98] (Samples.new [[97]]).1).1 in
  MerkleTreeModel.reachable Samples.sampleHash Samples.EMPTY_HASH
    Samples.LEAF_PREFIX Samples.BRANCH_PREFIX s
  /\ MerkleTreeModel.contentAddressed Samples.sampleHash Samples.LEAF_PREFIX
       Samples.BRANCH_PREFIX (MerkleTree._hashToBuffer s).
Proof.
  cbv zeta.
  assert (Hs : MerkleTreeModel.reachable Samples.sampleHash Samples.EMPTY_HASH
                 Samples.LEAF_PREFIX Samples.BRANCH_PREFIX
                 (Samples.append [98] (Samples.new [[97]]).1).1).
  { exact (MerkleTreeModel.reachable_append Samples.sampleHash
             Samples.EMPTY_HASH Samples.LEAF_PREFIX Samples.BRANCH_PREFIX [98] _
             (MerkleTreeModel.reachable_new Samples.sampleHash
                Samples.EMPTY_HASH Samples.LEAF_PREFIX Samples.BRANCH_PREFIX
                [[97]] eq_refl)). }
  split; [exact Hs|].
  exact (MerkleTreeArenaFacts.arena_contentAddressed Samples.sampleHash
           Samples.EMPTY_HASH Samples.LEAF_PREFIX Samples.BRANCH_PREFIX _ Hs).
Defined.

Lemma getNextHeightBFTParameters_least_witness :
  let s := BFT.mkStores None ∅ in
  -1 <= 3 < BFTQueries.MAX_UINT32
  /\ BFTQueries.getNextHeightBFTParameters 3 s
     = (s, Throw BFTParameterNotFoundError).
Proof.
  cbv zeta.
  assert (Hrange : -1 <= 3 < BFTQueries.MAX_UINT32)
    by (unfold BFTQueries.MAX_UINT32; lia).
  split; [exact Hrange|].
  destruct (BFTLookupFacts.getNextHeightBFTParameters_least 3
              (BFT.mkStores None ∅) Hrange) as (Hstate & _ & Hnone).
  destruct (BFTQueries.getNextHeightBFTParameters 3 (BFT.mkStores None ∅))
    as [s' r]. cbn in Hstate, Hnone. subst s'. f_equal. apply Hnone.
  intros h' [p Hp]. by rewrite lookup_empty in Hp.
Defined.

Lemma setBFTParameters_from_dpos_witness :
  exists s',
    Samples.setBFTParameters 2 2 (DPoS.bftWeights [[1]; [2]; [3]])
      Samples.sampleStores = (s', Ok tt).
Proof.
  assert (Hsize : 3 <= 10) by lia.
  assert (Hbounds : 3 / 3 + 1 <= 2 <= 3) by (split; [vm_compute; discriminate|lia]).
  refine (proj2 (proj2 (proj2 (proj2 (proj2
    (BFTLookupFacts.setBFTParameters_from_dpos 10 Samples.sampleAccount
       Samples.sampleEncode Samples.sampleHash 2 [[1]; [2]; [3]]
       Samples.sampleStores))))) Hsize Hbounds _ _).
  - intros a _. by eexists.
  - exists 10. split; [reflexivity|]. unfold BFTQueries.MAX_UINT32. lia.
Defined.
